(** * routine-pool: a shallow embedding of the goroutine pool

    The Go package [routinepool] (pool.go and the worker file) is embedded as
    follows.

    - Go's [int] is a 64-bit two's complement integer: a [Z] kept in range by
      [wrap] wherever the code does arithmetic on it ([taskIndex++]).
    - A Go channel is a record [chan] with its capacity, its buffer and its
      closed flag; [chan_send], [chan_recv] and [chan_close] give the three
      outcomes Go has for each operation (done, blocks, panics).
    - The structs [Task], [Result], [Future], [worker] and [Pool] are records
      with the fields of the source.
    - Every function of the source is a function here.  Where the source
      blocks or spawns goroutines, the function returns the goroutines it
      leaves behind, and the interleaving of goroutines is the executable
      transition function [exec] over a [State] (the pool, the goroutines,
      and the heap of result channels made by [newFuture]).  A schedule is a
      list of [action]s; [run] executes it and returns the events observed. *)

From Stdlib Require Import ZArith Lia List String.
From stdpp Require Import base option list gmap.
Import ListNotations.
Local Open Scope Z_scope.
#[local] Set Warnings "-clear-no-such-hyp".

(** ** Go integers *)

Definition int_bits : Z := 64.
Definition int_min : Z := - 2 ^ (int_bits - 1).
Definition int_max : Z := 2 ^ (int_bits - 1) - 1.

(** Two's complement wrap-around of a mathematical integer into [int]. *)
Definition wrap (z : Z) : Z :=
  (z + 2 ^ (int_bits - 1)) mod 2 ^ int_bits - 2 ^ (int_bits - 1).

(** ** Run-time panics the package can raise *)

Inductive panic :=
  | MakeSliceLenOutOfRange   (* make([]*worker, n) with n < 0 *)
  | MakeChanSizeOutOfRange   (* make(chan T, n) with n < 0 *)
  | IntegerDivideByZero      (* taskIndex % 0 *)
  | IndexOutOfRange          (* p.workers[i] with i outside the slice *)
  | SendOnClosedChannel
  | CloseOfClosedChannel
  | NilPointerDereference    (* future.Result with future == nil *)
  | TaskPanic.               (* raised inside the caller's computation *)

(** ** Channels *)

Record chan (A : Type) := Chan {
  cap : Z;
  buf : list A;
  chan_closed : bool
}.
Arguments Chan {A} _ _ _.
Arguments cap {A} _.
Arguments buf {A} _.
Arguments chan_closed {A} _.

(** [make(chan A, size)]; [None] is the run-time panic on a negative size. *)
Definition make_chan {A : Type} (size : Z) : option (chan A) :=
  if size <? 0 then None else Some (Chan size [] false).

Inductive send_result (A : Type) :=
  | Sent (c : chan A)
  | SendBlocks
  | SendPanics.
Arguments Sent {A} _.
Arguments SendBlocks {A}.
Arguments SendPanics {A}.

(** [c <- x] when no receiver is waiting. *)
Definition chan_send {A : Type} (c : chan A) (x : A) : send_result A :=
  if chan_closed c then SendPanics
  else if Z.of_nat (length (buf c)) <? cap c
       then Sent (Chan (cap c) (buf c ++ [x]) (chan_closed c))
       else SendBlocks.

Inductive recv_result (A : Type) :=
  | Received (x : A) (c : chan A)
  | RecvClosed               (* zero value, ok = false *)
  | RecvBlocks.
Arguments Received {A} _ _.
Arguments RecvClosed {A}.
Arguments RecvBlocks {A}.

(** [x, ok := <-c] when no sender is waiting. *)
Definition chan_recv {A : Type} (c : chan A) : recv_result A :=
  match buf c with
  | x :: rest => Received x (Chan (cap c) rest (chan_closed c))
  | [] => if chan_closed c then RecvClosed else RecvBlocks
  end.

(** [close(c)]; [None] is the panic on a channel that is closed already. *)
Definition chan_close {A : Type} (c : chan A) : option (chan A) :=
  if chan_closed c then None else Some (Chan (cap c) (buf c) true).

(** [make(chan struct{})]: an unbuffered channel that is only ever closed. *)
Definition make_signal : chan unit := Chan 0 [] false.

(** The three error values of the package ([fmt.Errorf] of a constant). *)
Definition ErrAlreadyRunning : string := "the pool is already running".
Definition ErrClosed : string := "the pool is closed".
Definition ErrAlreadyStopped : string := "the pool is already closed".

Section RoutinePool.

(** The dynamic types behind [interface{}] and [error]; [None] is [nil]. *)
Context {V E : Type}.

(** ** The structs of pool.go *)

(** What calling a [func() (interface{}, error)] does. *)
Inductive Fn :=
  | Returns (v : option V) (e : option E)
  | Panics
  | Diverges.

Record Result := mkResult {
  rindex : Z;
  value : option V;
  err : option E
}.

(** A channel reference: an address in the heap of result channels. *)
Definition chan_ref := nat.

Record Task := mkTask {
  index : Z;
  fn : Fn;
  responseCh : option chan_ref      (* [None] is the nil channel *)
}.

Record Future := mkFuture {
  ResultCh : option chan_ref        (* field [Result] of the source *)
}.

Record worker := mkWorker {
  wid : Z;                          (* field [id] of the source *)
  requestCh : chan Task;
  shutdown : chan unit
}.

Record Pool := mkPool {
  numWorkers : Z;
  taskCh : chan Task;
  workers : list worker;
  closed : bool;                    (* atomic.Bool *)
  wg : Z;                           (* sync.WaitGroup counter *)
  shutdownCh : chan unit
}.

Definition set_taskCh (p : Pool) (c : chan Task) : Pool :=
  mkPool (numWorkers p) c (workers p) (closed p) (wg p) (shutdownCh p).
Definition set_workers (p : Pool) (ws : list worker) : Pool :=
  mkPool (numWorkers p) (taskCh p) ws (closed p) (wg p) (shutdownCh p).
Definition set_closed (p : Pool) (b : bool) : Pool :=
  mkPool (numWorkers p) (taskCh p) (workers p) b (wg p) (shutdownCh p).
Definition set_wg (p : Pool) (n : Z) : Pool :=
  mkPool (numWorkers p) (taskCh p) (workers p) (closed p) n (shutdownCh p).
Definition set_shutdownCh (p : Pool) (c : chan unit) : Pool :=
  mkPool (numWorkers p) (taskCh p) (workers p) (closed p) (wg p) c.

(** [p.wg.Done()], deferred by [dispatch] and by [worker.start]. *)
Definition wg_done (p : Pool) : Pool := set_wg p (wg p - 1).

(** ** Goroutines *)

(** Program points of [Pool.dispatch]. *)
Inductive dstate :=
  | DSelect (taskIndex : Z)
  | DSend (taskIndex : Z) (workerIndex : nat) (task : Task).

(** Program points of [worker.start]. *)
Inductive wstate :=
  | WSelect
  | WCall (task : Task)
  | WReply (task : Task) (result : option V) (e : option E).

(** Program points of [Pool.Stop] after its compare-and-swap succeeded. *)
Inductive stop_pc :=
  | SCloseTaskCh
  | SCloseShutdownCh
  | SCloseWorker (i : nat)
  | SWait.

Inductive goroutine :=
  | GDispatch (d : dstate)
  | GWorker (w : nat) (s : wstate)  (* [w.start()] of [p.workers[w]] *)
  | GAddTask (task : Task)          (* a caller at [p.taskCh <- task] *)
  | GStop (pc : stop_pc)            (* a caller inside [Stop] *)
  | GExited
  | GPanicked (why : panic).

(** ** NewPool *)

Definition new_worker (i : nat) : worker :=
  mkWorker (Z.of_nat i) (Chan 0 [] false) make_signal.

(** [NewPool]; [inl] is the panic of a [make] with a negative length. *)
Definition NewPool (numWorkers taskChSize : Z) : panic + Pool :=
  let taskChSize := if taskChSize <=? 0 then 1 else taskChSize in
  match make_chan taskChSize with
  | None => inl MakeChanSizeOutOfRange
  | Some tch =>
      if numWorkers <? 0 then inl MakeSliceLenOutOfRange
      else inr (mkPool numWorkers tch
                  (map new_worker (seq 0 (Z.to_nat numWorkers)))
                  true 0 make_signal)
  end.

(** ** Start *)

(** [atomic.Bool.CompareAndSwap]: the new value and whether it swapped. *)
Definition CompareAndSwap (b old new : bool) : bool * bool :=
  if Bool.eqb b old then (new, true) else (b, false).

(** [Start]: the error returned (if any), the pool, the goroutines launched.
    ([wg.Add] panics on a negative counter only; the counter is the number
    of goroutines still to leave, so it never is.) *)
Definition Start (p : Pool) : option string * Pool * list goroutine :=
  let '(flag, swapped) := CompareAndSwap (closed p) true false in
  if swapped then
    let p1 := set_closed p flag in
    let p2 := set_wg p1 (wg p1 + (numWorkers p1 + 1)) in
    (None, p2,
     map (fun w => GWorker w WSelect) (seq 0 (length (workers p2)))
       ++ [GDispatch (DSelect 0)])
  else (Some ErrAlreadyRunning, set_closed p flag, []).

(** ** newFuture *)

Definition newFuture (futures : list (chan Result)) (size : Z)
  : panic + (Future * list (chan Result)) :=
  match make_chan size with
  | None => inl MakeChanSizeOutOfRange
  | Some c => inr (mkFuture (Some (length futures)), futures ++ [c])
  end.

(** ** AddTask *)

(** Lines 84 to 87: the flag check and the construction of the task. *)
Definition AddTask_enter (p : Pool) (future : option Future) (index : Z)
  (fn : Fn) : panic + (string + Task) :=
  if closed p then inr (inl ErrClosed)
  else match future with
       | None => inl NilPointerDereference
       | Some f => inr (inr (mkTask index fn (ResultCh f)))
       end.

Inductive addtask_outcome :=
  | AddTaskError (e : string) (p : Pool)   (* returned an error *)
  | AddTaskPanic (why : panic) (p : Pool)
  | AddTaskBlocked (task : Task) (p : Pool) (* waits at [p.taskCh <- task] *)
  | AddTaskOk (p : Pool).                  (* returned nil *)

(** [AddTask] run without interference from other goroutines. *)
Definition AddTask (p : Pool) (future : option Future) (index : Z) (fn : Fn)
  : addtask_outcome :=
  match AddTask_enter p future index fn with
  | inl why => AddTaskPanic why p
  | inr (inl e) => AddTaskError e p
  | inr (inr task) =>
      match chan_send (taskCh p) task with
      | Sent c => AddTaskOk (set_taskCh p c)
      | SendBlocks => AddTaskBlocked task p
      | SendPanics => AddTaskPanic SendOnClosedChannel p
      end
  end.

(** ** Stop *)

(** Line 94: the compare-and-swap; the error returned (if any) and the pool. *)
Definition Stop_enter (p : Pool) : option string * Pool :=
  let '(flag, swapped) := CompareAndSwap (closed p) false true in
  if swapped then (None, set_closed p flag)
  else (Some ErrAlreadyStopped, set_closed p flag).

Definition close_worker (w : worker) : option worker :=
  match chan_close (shutdown w) with
  | None => None
  | Some c => Some (mkWorker (wid w) (requestCh w) c)
  end.

(** Where the loop over [p.workers] stands before closing worker [i]. *)
Definition stop_loop (p : Pool) (i : nat) : stop_pc :=
  if (i <? length (workers p))%nat then SCloseWorker i else SWait.

(** One statement of lines 97 to 102.  [None]: blocked in [wg.Wait];
    a goroutine [GExited] is the return of [nil]. *)
Definition stop_step (p : Pool) (pc : stop_pc) : option (Pool * goroutine) :=
  match pc with
  | SCloseTaskCh =>
      match chan_close (taskCh p) with
      | None => Some (p, GPanicked CloseOfClosedChannel)
      | Some c => Some (set_taskCh p c, GStop SCloseShutdownCh)
      end
  | SCloseShutdownCh =>
      match chan_close (shutdownCh p) with
      | None => Some (p, GPanicked CloseOfClosedChannel)
      | Some c => Some (set_shutdownCh p c, GStop (stop_loop p 0))
      end
  | SCloseWorker i =>
      match workers p !! i with
      | None => Some (p, GStop SWait)
      | Some w =>
          match close_worker w with
          | None => Some (p, GPanicked CloseOfClosedChannel)
          | Some w' =>
              Some (set_workers p (<[i := w']> (workers p)),
                    GStop (stop_loop p (S i)))
          end
      end
  | SWait => if wg p =? 0 then Some (p, GExited) else None
  end.

Inductive stop_outcome :=
  | StopError (e : string) (p : Pool)
  | StopPanic (why : panic) (p : Pool)
  | StopWaiting (p : Pool)                 (* blocked in [wg.Wait] *)
  | StopOk (p : Pool).                     (* returned nil *)

(** The statements a caller at [pc] has left to execute, at most, in a
    pool of [n] workers. *)
Definition stop_steps (n : nat) (pc : stop_pc) : nat :=
  match pc with
  | SCloseTaskCh => n + 4
  | SCloseShutdownCh => n + 3
  | SCloseWorker i => (n - i) + 2
  | SWait => 1
  end.

(** The statements of [Stop] from [pc] on, one after the other; [None] when
    [fuel] runs out before the outcome is known. *)
Fixpoint stop_run (fuel : nat) (p : Pool) (pc : stop_pc)
  : option stop_outcome :=
  match fuel with
  | O => None
  | S fuel' =>
      match stop_step p pc with
      | None => Some (StopWaiting p)
      | Some (p', GStop pc') => stop_run fuel' p' pc'
      | Some (p', GPanicked why) => Some (StopPanic why p')
      | Some (p', _) => Some (StopOk p')
      end
  end.

(** [Stop] run without interference from other goroutines (the fuel given
    is enough: [Stop_returns]). *)
Definition Stop (p : Pool) : option stop_outcome :=
  match Stop_enter p with
  | (Some e, p') => Some (StopError e p')
  | (None, p') =>
      stop_run (stop_steps (length (workers p')) SCloseTaskCh) p' SCloseTaskCh
  end.

(** ** worker.stop *)

(** [worker.stop]: [close(w.shutdown)]; [inl] is the panic of a second
    close. *)
Definition worker_stop (w : worker) : panic + worker :=
  match chan_close (shutdown w) with
  | None => inl CloseOfClosedChannel
  | Some c => inr (mkWorker (wid w) (requestCh w) c)
  end.

(** ** The caller of pool_test.go *)

(** Lines 56 to 62 of pool_test.go: the results received from the future,
    stored under their index, in the order of their receipt. *)
Definition collect (received : list Result) : gmap Z Result :=
  foldl (fun results result => <[rindex result := result]> results) ∅
    received.

(** ** The goroutines' steps *)

(** What a schedule lets one observe. *)
Inductive event :=
  | EvStart (e : option string)          (* [Start] returned *)
  | EvStop (e : option string)           (* [Stop] passed or failed line 94 *)
  | EvStopReturn                         (* [Stop] returned nil *)
  | EvSubmit (task : Task)               (* [AddTask] built its task *)
  | EvSubmitError (e : string)           (* [AddTask] returned an error *)
  | EvEnqueue (task : Task)              (* [AddTask] returned nil *)
  | EvDequeue (task : Task)              (* the dispatcher received it *)
  | EvHandoff (w : nat) (task : Task)    (* worker [w] received it *)
  | EvPublish (task : Task) (c : chan_ref) (r : Result)
  | EvDiscard (task : Task)              (* nil response channel *)
  | EvDrain (c : chan_ref) (r : Result)  (* the caller received [r] *)
  | EvNewFuture (f : Future)
  | EvClose (c : chan_ref)
  | EvPanic (why : panic).

(** The cases of the two [select] statements. *)
Inductive select_case :=
  | CaseTask            (* [<-p.taskCh], [<-w.requestCh] *)
  | CaseShutdown        (* [<-w.shutdown] *)
  | CaseOwnerShutdown.  (* [<-p.shutdownCh], [<-w.owner.shutdownCh] *)

(** Lines 117 and 118 up to the send: the worker the task is routed to. *)
Definition dispatch_route (p : Pool) (taskIndex : Z) (task : Task)
  : goroutine :=
  if numWorkers p =? 0 then GPanicked IntegerDivideByZero
  else
    let workerIndex := Z.rem taskIndex (numWorkers p) in
    if (workerIndex <? 0) || (Z.of_nat (length (workers p)) <=? workerIndex)
    then GPanicked IndexOutOfRange
    else GDispatch (DSend taskIndex (Z.to_nat workerIndex) task).

(** Line 119, once the send of line 118 has completed: [taskIndex++]. *)
Definition dispatch_sent (taskIndex : Z) : dstate :=
  DSelect (wrap (taskIndex + 1)).

(** [dispatch] alone, over the tasks it receives from the intake queue, each
    send of line 118 finding its worker ready: the hand-offs made, in order,
    and where the goroutine stands afterwards. *)
Fixpoint dispatch_loop (p : Pool) (taskIndex : Z) (tasks : list Task)
  : list (nat * Task) * goroutine :=
  match tasks with
  | [] => ([], GDispatch (DSelect taskIndex))
  | task :: rest =>
      match dispatch_route p taskIndex task with
      | GDispatch (DSend k w t) =>
          match dispatch_sent k with
          | DSelect k' =>
              let '(hs, g) := dispatch_loop p k' rest in ((w, t) :: hs, g)
          | d => ([(w, t)], GDispatch d)
          end
      | g => ([], g)
      end
  end.

(** Every panic of a goroutine is observed. *)
Definition panic_events (g : goroutine) : list event :=
  match g with
  | GPanicked why => [EvPanic why]
  | _ => []
  end.

(** The deferred [wg.Done] runs on a return and on a panic alike. *)
Definition leave (p : Pool) (g : goroutine) : Pool :=
  match g with
  | GExited | GPanicked _ => wg_done p
  | _ => p
  end.

(** The [select] of [dispatch] taking case [c]; [None] when [c] blocks.
    Nothing is ever sent on a shutdown channel or, outside the rendezvous
    [Handoff], on a worker's request channel: a receive from one of them
    proceeds exactly when the channel is closed. *)
Definition dispatch_select (p : Pool) (taskIndex : Z) (c : select_case)
  : option (list event * Pool * goroutine) :=
  match c with
  | CaseTask =>
      match chan_recv (taskCh p) with
      | Received task ch =>
          let g := dispatch_route p taskIndex task in
          Some (EvDequeue task :: panic_events g, leave (set_taskCh p ch) g, g)
      | RecvClosed => Some ([], wg_done p, GExited)
      | RecvBlocks => None
      end
  | CaseOwnerShutdown =>
      if chan_closed (shutdownCh p) then Some ([], wg_done p, GExited)
      else None
  | CaseShutdown => None
  end.

(** The [select] of [worker.start] taking a case other than the receipt of a
    task from the dispatcher (that one is the rendezvous [Handoff]). *)
Definition worker_select (p : Pool) (w : nat) (c : select_case)
  : option (list event * Pool * goroutine) :=
  match workers p !! w with
  | None => None
  | Some wk =>
      let ch := match c with
                | CaseTask => chan_closed (requestCh wk)
                | CaseShutdown => chan_closed (shutdown wk)
                | CaseOwnerShutdown => chan_closed (shutdownCh p)
                end in
      if ch then Some ([], wg_done p, GExited) else None
  end.

(** Line 162: the call of [task.fn]; [None] while it does not return. *)
Definition worker_call (p : Pool) (w : nat) (task : Task)
  : option (list event * Pool * goroutine) :=
  match fn task with
  | Returns result e => Some ([], p, GWorker w (WReply task result e))
  | Panics => Some ([EvPanic TaskPanic], wg_done p, GPanicked TaskPanic)
  | Diverges => None
  end.

(** Lines 164 to 170: the nil check and the send of the [Result]. *)
Definition worker_reply (p : Pool) (futures : list (chan Result)) (w : nat)
  (task : Task) (result : option V) (e : option E)
  : option (list event * Pool * list (chan Result) * goroutine) :=
  match responseCh task with
  | None => Some ([EvDiscard task], p, futures, GWorker w WSelect)
  | Some c =>
      match futures !! c with
      | None => None
      | Some ch =>
          let r := mkResult (index task) result e in
          match chan_send ch r with
          | Sent ch' =>
              Some ([EvPublish task c r], p, <[c := ch']> futures,
                    GWorker w WSelect)
          | SendBlocks => None
          | SendPanics =>
              Some ([EvPanic SendOnClosedChannel], wg_done p, futures,
                    GPanicked SendOnClosedChannel)
          end
      end
  end.

(** Line 88 executed by a caller that passed the check of line 84. *)
Definition addtask_send (p : Pool) (task : Task)
  : option (list event * Pool * goroutine) :=
  match chan_send (taskCh p) task with
  | Sent ch => Some ([EvEnqueue task], set_taskCh p ch, GExited)
  | SendBlocks => None
  | SendPanics =>
      Some ([EvPanic SendOnClosedChannel], p, GPanicked SendOnClosedChannel)
  end.

Definition stop_events (g : goroutine) : list event :=
  match g with
  | GExited => [EvStopReturn]
  | _ => panic_events g
  end.

(** ** The whole system *)

Record State := mkState {
  pool : Pool;
  goroutines : list goroutine;
  futures : list (chan Result)
}.

(** What the scheduler and the callers can do next. *)
Inductive action :=
  | CallStart
  | CallStop
  | CallAddTask (future : option Future) (index : Z) (fn : Fn)
  | CallNewFuture (size : Z)
  | CallClose (c : chan_ref)              (* [Future.Close] *)
  | Receive (c : chan_ref)                (* [<-future.Result] *)
  | ReceiveFrom (c : chan_ref) (j : nat)  (* the same, from blocked sender [j] *)
  | Step (i : nat) (c : select_case)      (* goroutine [i] moves on *)
  | Handoff (i j : nat).                  (* dispatcher [i] to worker [j] *)

(** One step of goroutine [g]. *)
Definition step_goroutine (p : Pool) (fs : list (chan Result)) (g : goroutine)
  (c : select_case)
  : option (list event * Pool * list (chan Result) * goroutine) :=
  match g with
  | GDispatch (DSelect taskIndex) =>
      '(evs, p', g') ← dispatch_select p taskIndex c; Some (evs, p', fs, g')
  | GDispatch (DSend _ _ _) => None
  | GWorker w WSelect =>
      '(evs, p', g') ← worker_select p w c; Some (evs, p', fs, g')
  | GWorker w (WCall task) =>
      '(evs, p', g') ← worker_call p w task; Some (evs, p', fs, g')
  | GWorker w (WReply task result e) => worker_reply p fs w task result e
  | GAddTask task =>
      '(evs, p', g') ← addtask_send p task; Some (evs, p', fs, g')
  | GStop pc =>
      '(p', g') ← stop_step p pc; Some (stop_events g', p', fs, g')
  | GExited | GPanicked _ => None
  end.

(** The transition function; [None] when the action is not enabled. *)
Definition exec (a : action) (s : State) : option (list event * State) :=
  let p := pool s in
  let gs := goroutines s in
  let fs := futures s in
  match a with
  | CallStart =>
      let '(e, p', spawned) := Start p in
      Some ([EvStart e], mkState p' (gs ++ spawned) fs)
  | CallStop =>
      match Stop_enter p with
      | (Some e, p') => Some ([EvStop (Some e)], mkState p' gs fs)
      | (None, p') =>
          Some ([EvStop None], mkState p' (gs ++ [GStop SCloseTaskCh]) fs)
      end
  | CallAddTask future index fn =>
      match AddTask_enter p future index fn with
      | inl why => Some ([EvPanic why], s)
      | inr (inl e) => Some ([EvSubmitError e], s)
      | inr (inr task) =>
          Some ([EvSubmit task], mkState p (gs ++ [GAddTask task]) fs)
      end
  | CallNewFuture size =>
      match newFuture fs size with
      | inl why => Some ([EvPanic why], s)
      | inr (f, fs') => Some ([EvNewFuture f], mkState p gs fs')
      end
  | CallClose c =>
      ch ← fs !! c;
      match chan_close ch with
      | None => Some ([EvPanic CloseOfClosedChannel], s)
      | Some ch' => Some ([EvClose c], mkState p gs (<[c := ch']> fs))
      end
  | Receive c =>
      ch ← fs !! c;
      match chan_recv ch with
      | Received r ch' => Some ([EvDrain c r], mkState p gs (<[c := ch']> fs))
      | RecvClosed => Some ([], s)
      | RecvBlocks => None
      end
  | ReceiveFrom c j =>
      ch ← fs !! c;
      match gs !! j with
      | Some (GWorker w (WReply task result e)) =>
          let r := mkResult (index task) result e in
          match chan_recv ch, chan_send ch r with
          | RecvBlocks, SendBlocks =>
              if decide (responseCh task = Some c) then
                Some ([EvPublish task c r; EvDrain c r],
                      mkState p (<[j := GWorker w WSelect]> gs) fs)
              else None
          | _, _ => None
          end
      | _ => None
      end
  | Step i c =>
      g ← gs !! i;
      '(evs, p', fs', g') ← step_goroutine p fs g c;
      Some (evs, mkState p' (<[i := g']> gs) fs')
  | Handoff i j =>
      match gs !! i, gs !! j with
      | Some (GDispatch (DSend taskIndex workerIndex task)),
        Some (GWorker w WSelect) =>
          if decide (w = workerIndex) then
            Some ([EvHandoff w task],
                  mkState p
                    (<[j := GWorker w (WCall task)]>
                       (<[i := GDispatch (dispatch_sent taskIndex)]> gs))
                    fs)
          else None
      | _, _ => None
      end
  end.

(** Executing a schedule, collecting the events in order. *)
Fixpoint run (acts : list action) (s : State) : option (list event * State) :=
  match acts with
  | [] => Some ([], s)
  | a :: rest =>
      '(evs, s') ← exec a s;
      '(evs', s'') ← run rest s';
      Some (evs ++ evs', s'')
  end.

(** The system right after a successful [NewPool]. *)
Definition boot (p : Pool) : State := mkState p [] [].

(** ** Projections used in the statements *)

Definition Start_error (p : Pool) : option string := (Start p).1.1.
Definition Start_pool (p : Pool) : Pool := (Start p).1.2.
Definition Start_spawned (p : Pool) : list goroutine := (Start p).2.

Definition stop_pool (o : stop_outcome) : Pool :=
  match o with
  | StopError _ p | StopPanic _ p | StopWaiting p | StopOk p => p
  end.

Definition stop_error (o : stop_outcome) : option string :=
  match o with
  | StopError e _ => Some e
  | _ => None
  end.

(** Every [shutdown] channel of the worker set is closed. *)
Definition workers_closed (p : Pool) : Prop :=
  Forall (fun w => chan_closed (shutdown w) = true) (workers p).

(** ** The vocabulary of the invariants and of the statements *)

(** The first [i] workers have their [shutdown] channel closed. *)
Definition workers_closed_upto (p : Pool) (i : nat) : Prop :=
  forall k w, (k < i)%nat -> workers p !! k = Some w ->
    chan_closed (shutdown w) = true.

(** No action reopens a channel of the pool or changes the worker set. *)
Definition pool_le (p p' : Pool) : Prop :=
  (chan_closed (taskCh p) = true -> chan_closed (taskCh p') = true)
  /\ (chan_closed (shutdownCh p) = true -> chan_closed (shutdownCh p') = true)
  /\ length (workers p') = length (workers p)
  /\ (forall k w, workers p !! k = Some w -> chan_closed (shutdown w) = true ->
        exists w', workers p' !! k = Some w'
                   /\ chan_closed (shutdown w') = true).

Definition all_closed (p : Pool) : Prop :=
  chan_closed (taskCh p) = true /\ chan_closed (shutdownCh p) = true
  /\ workers_closed p.

Definition stop_done (p : Pool) (g : goroutine) : Prop :=
  match g with
  | GStop SCloseTaskCh => True
  | GStop SCloseShutdownCh => chan_closed (taskCh p) = true
  | GStop (SCloseWorker i) =>
      chan_closed (taskCh p) = true /\ chan_closed (shutdownCh p) = true
      /\ workers_closed_upto p i
  | GStop SWait => all_closed p
  | _ => True
  end.

Definition stop_inv (evs : list event) (s : State) : Prop :=
  Forall (stop_done (pool s)) (goroutines s)
  /\ (EvStopReturn ∈ evs -> all_closed (pool s)).

(** The task a goroutine holds was built by [AddTask]; a worker past line 162
    holds what the task's computation returned. *)
Definition holds_submitted (evs : list event) (g : goroutine) : Prop :=
  match g with
  | GAddTask t | GDispatch (DSend _ _ t) | GWorker _ (WCall t) =>
      EvSubmit t ∈ evs
  | GWorker _ (WReply t v e) => EvSubmit t ∈ evs /\ fn t = Returns v e
  | _ => True
  end.

(** [r] is the [Result] of [t] written to channel [c]. *)
Definition result_of_task (evs : list event) (t : Task) (c : chan_ref)
  (r : Result) : Prop :=
  EvSubmit t ∈ evs /\ responseCh t = Some c /\ rindex r = index t
  /\ fn t = Returns (value r) (err r).

Definition result_inv (evs : list event) (s : State) : Prop :=
  Forall (holds_submitted evs) (goroutines s)
  /\ Forall (fun t => EvSubmit t ∈ evs) (buf (taskCh (pool s)))
  /\ (forall t c r, EvPublish t c r ∈ evs -> result_of_task evs t c r)
  /\ (forall c ch r, futures s !! c = Some ch -> r ∈ buf ch ->
        exists t, EvPublish t c r ∈ evs)
  /\ (forall c r, EvDrain c r ∈ evs -> exists t, EvPublish t c r ∈ evs).

(** The round-robin assignment: the [i]-th task goes to worker
    [(k0 + i) mod W]. *)
Definition round_robin (W k0 : Z) (tasks : list Task) : list (nat * Task) :=
  imap (fun i task => (Z.to_nat ((k0 + Z.of_nat i) mod W), task)) tasks.

Definition is_dispatcher (g : goroutine) : Prop :=
  match g with GDispatch _ => True | _ => False end.

(** The tasks the dispatcher took from the intake queue and the hand-offs
    it made, in the order of the events. *)
Definition dequeued (evs : list event) : list Task :=
  omap (fun ev => match ev with EvDequeue t => Some t | _ => None end) evs.

Definition handoffs (evs : list event) : list (nat * Task) :=
  omap (fun ev => match ev with EvHandoff w t => Some (w, t) | _ => None end)
    evs.

(** Where the dispatcher of pool [p0] stands after the events [evs]: where
    [dispatch_loop] stands after the tasks taken so far, the last of them
    being still in its hands when it waits at the send of line 118. *)
Definition dispatcher_at (p0 : Pool) (evs : list event) (g : goroutine)
  : Prop :=
  match g with
  | GDispatch (DSend k w t) =>
      exists tasks,
        dequeued evs = tasks ++ [t]
        /\ dispatch_loop p0 0 tasks = (handoffs evs, GDispatch (DSelect k))
        /\ dispatch_route p0 k t = g
  | GDispatch (DSelect _) | GPanicked _ =>
      dispatch_loop p0 0 (dequeued evs) = (handoffs evs, g)
  | _ => False
  end.

(** Exactly one of the goroutines [gs] is the dispatcher. *)
Definition has_dispatcher (p0 : Pool) (evs : list event)
  (gs : list goroutine) : Prop :=
  exists i g,
    gs !! i = Some g /\ dispatcher_at p0 evs g
    /\ forall j g', gs !! j = Some g' -> is_dispatcher g' -> j = i.

(** A caller past the check of [AddTask], or a worker. *)
Definition is_client (g : goroutine) : Prop :=
  match g with
  | GAddTask _ | GWorker _ _ => True
  | _ => False
  end.

Definition not_stopping (g : goroutine) : Prop :=
  match g with GStop _ => False | _ => True end.

(** In a pool that was never stopped there is one dispatcher at most, and
    its hand-offs are those of [dispatch_loop]. *)
Definition dispatch_inv (p0 : Pool) (evs : list event) (s : State) : Prop :=
  chan_closed (taskCh (pool s)) = false
  /\ chan_closed (shutdownCh (pool s)) = false
  /\ numWorkers (pool s) = numWorkers p0
  /\ length (workers (pool s)) = length (workers p0)
  /\ Forall not_stopping (goroutines s)
  /\ (closed (pool s) = true ->
      goroutines s = [] /\ dequeued evs = [] /\ handoffs evs = [])
  /\ (closed (pool s) = false -> has_dispatcher p0 evs (goroutines s)).

(** The tasks built by [AddTask], handed to a worker, answered on their
    response channel, and dropped for want of one, in the order of the
    events. *)
Definition submitted (evs : list event) : list Task :=
  omap (fun ev => match ev with EvSubmit t => Some t | _ => None end) evs.

Definition handed (evs : list event) : list Task :=
  omap (fun ev => match ev with EvHandoff _ t => Some t | _ => None end) evs.

Definition published (evs : list event) : list Task :=
  omap (fun ev => match ev with EvPublish t _ _ => Some t | _ => None end) evs.

Definition discarded (evs : list event) : list Task :=
  omap (fun ev => match ev with EvDiscard t => Some t | _ => None end) evs.

(** The results written to channel [c], in the order they were written. *)
Definition results_on (c : chan_ref) (evs : list event) : list Result :=
  omap (fun ev => match ev with
                  | EvPublish _ c' r => if decide (c' = c) then Some r else None
                  | _ => None
                  end) evs.

(** The tasks a goroutine holds: a caller at its send, the dispatcher at
    its send, a worker between the receipt of a task and its reply. *)
Definition sending (g : goroutine) : list Task :=
  match g with GAddTask t => [t] | _ => [] end.

Definition routing (g : goroutine) : list Task :=
  match g with GDispatch (DSend _ _ t) => [t] | _ => [] end.

Definition working (g : goroutine) : list Task :=
  match g with
  | GWorker _ (WCall t) | GWorker _ (WReply t _ _) => [t]
  | _ => []
  end.

(** No goroutine and no caller has panicked. *)
Definition no_panic (evs : list event) : Prop :=
  forall why, EvPanic why ∉ evs.

(** Every task submitted is, once and only once, with a caller at its send,
    in the intake queue, with the dispatcher, or handed to a worker; every
    task handed to a worker is, once and only once, with a worker, answered,
    or dropped for want of a response channel. *)
Definition accounted (evs : list event) (s : State) : Prop :=
  submitted evs
    ≡ₚ (goroutines s ≫= sending) ++ buf (taskCh (pool s))
       ++ (goroutines s ≫= routing) ++ handed evs
  /\ handed evs
       ≡ₚ (goroutines s ≫= working) ++ published evs ++ discarded evs.

Definition is_worker_of (w : nat) (g : goroutine) : Prop :=
  match g with GWorker w' _ => w' = w | _ => False end.

Definition worker_open (w : worker) : Prop :=
  chan_closed (shutdown w) = false /\ chan_closed (requestCh w) = false.

Definition channels_open (p : Pool) : Prop :=
  chan_closed (taskCh p) = false /\ chan_closed (shutdownCh p) = false
  /\ Forall worker_open (workers p).

(** No caller is inside [Stop], nothing has panicked, and the dispatcher
    sends to workers of the pool only. *)
Definition live (p : Pool) (g : goroutine) : Prop :=
  match g with
  | GStop _ | GPanicked _ => False
  | GDispatch (DSend _ w _) => (w < length (workers p))%nat
  | _ => True
  end.

Definition running_inv (s : State) : Prop :=
  channels_open (pool s)
  /\ 1 <= cap (taskCh (pool s))
  /\ Forall (live (pool s)) (goroutines s)
  /\ (closed (pool s) = true ->
      goroutines s = [] /\ buf (taskCh (pool s)) = [])
  /\ (closed (pool s) = false ->
      Exists is_dispatcher (goroutines s)
      /\ forall w, (w < length (workers (pool s)))%nat ->
           Exists (is_worker_of w) (goroutines s)).

(** A result channel holds no more results than were written to it. *)
Definition sinks_bounded (evs : list event) (s : State) : Prop :=
  forall c ch, futures s !! c = Some ch ->
    (length (buf ch) <= length (results_on c evs))%nat.

(** The tasks submitted with response channel [c], in submission order. *)
Definition batch (c : chan_ref) (evs : list event) : list Task :=
  filter (fun t => responseCh t = Some c) (submitted evs).

(** The [Result] a worker builds for a task. *)
Definition task_result (t : Task) : option Result :=
  match fn t with
  | Returns v e => Some (mkResult (index t) v e)
  | _ => None
  end.

(** The steps of the pool's own goroutines, and of callers past the check
    of [AddTask] or [Stop]. *)
Definition internal (a : action) : Prop :=
  match a with
  | Step _ _ | Handoff _ _ => True
  | _ => False
  end.

(** No goroutine can move. *)
Definition quiescent (s : State) : Prop :=
  forall a, internal a -> exec a s = None.

(** What a goroutine still has to do, in steps, at most; [n] is the number
    of workers. *)
Definition weight (n : nat) (g : goroutine) : nat :=
  match g with
  | GAddTask _ => 5
  | GDispatch (DSelect _) => 1
  | GDispatch (DSend _ _ _) => 4
  | GWorker _ WSelect => 1
  | GWorker _ (WCall _) => 3
  | GWorker _ (WReply _ _ _) => 2
  | GStop pc => stop_steps n pc
  | GExited | GPanicked _ => 0
  end.

(** A bound on the number of steps the goroutines can take without a new
    call from outside. *)
Definition measure (s : State) : nat :=
  sum_list_with (weight (length (workers (pool s)))) (goroutines s)
  + 4 * length (buf (taskCh (pool s))).

(** ** The vocabulary of the further properties *)

(** The tasks whose [AddTask] returned nil, in the order of the events. *)
Definition enqueued (evs : list event) : list Task :=
  omap (fun ev => match ev with EvEnqueue t => Some t | _ => None end) evs.

(** The results callers received from channel [c], in the order of the
    events. *)
Definition drained (c : chan_ref) (evs : list event) : list Result :=
  omap (fun ev => match ev with
                  | EvDrain c' r => if decide (c' = c) then Some r else None
                  | _ => None
                  end) evs.

(** The intake queue holds the tasks enqueued and not yet taken by the
    dispatcher, in order, and no more of them than its capacity. *)
Definition queue_inv (p0 : Pool) (evs : list event) (s : State) : Prop :=
  enqueued evs = dequeued evs ++ buf (taskCh (pool s))
  /\ Z.of_nat (length (buf (taskCh (pool s)))) <= cap (taskCh (pool s))
  /\ cap (taskCh (pool s)) = cap (taskCh p0).

(** The results waiting in result channel [c]. *)
Definition pending (fs : list (chan Result)) (c : chan_ref) : list Result :=
  match fs !! c with
  | Some ch => buf ch
  | None => []
  end.

(** Every result channel holds the results written to it and not yet
    received, in order, and no more of them than its capacity. *)
Definition sinks_inv (evs : list event) (s : State) : Prop :=
  (forall c, results_on c evs = drained c evs ++ pending (futures s) c)
  /\ Forall (fun ch => Z.of_nat (length (buf ch)) <= cap ch) (futures s).

(** The goroutines the wait group counts: a worker or the dispatcher that
    has not left yet. *)
Definition counted (g : goroutine) : nat :=
  match g with
  | GDispatch _ | GWorker _ _ => 1
  | _ => 0
  end.

(** The wait group counts the workers and dispatchers that have not left. *)
Definition wg_inv (s : State) : Prop :=
  wg (pool s) = Z.of_nat (sum_list_with counted (goroutines s))
  /\ numWorkers (pool s) = Z.of_nat (length (workers (pool s))).

(** No worker and no dispatcher is left, the intake queue is closed and
    holds the tasks [B], and the events [evs] move no task. *)
Definition at_rest (B : list Task) (evs : list event) (s : State) : Prop :=
  Forall (fun g => counted g = 0%nat) (goroutines s)
  /\ chan_closed (taskCh (pool s)) = true
  /\ buf (taskCh (pool s)) = B
  /\ enqueued evs = [] /\ dequeued evs = [] /\ handoffs evs = []
  /\ published evs = [] /\ discarded evs = [].

(** The dispatcher, goroutine [i], waits at the send of line 118 with task
    [t] for worker [w], no goroutine of which is left; the events [evs]
    hold no return of [Stop] and no hand-off to [w]. *)
Definition stuck_send (i : nat) (k : Z) (w : nat) (t : Task)
  (evs : list event) (s : State) : Prop :=
  wg_inv s
  /\ goroutines s !! i = Some (GDispatch (DSend k w t))
  /\ Forall (fun g => ~ is_worker_of w g) (goroutines s)
  /\ (EvStopReturn ∉ evs)
  /\ (forall t', EvHandoff w t' ∉ evs).

(** In a pool that was never stopped the goroutine of worker [w] is the
    [w]-th goroutine of the system. *)
Definition placed (p0 : Pool) (s : State) : Prop :=
  length (workers (pool s)) = length (workers p0)
  /\ (closed (pool s) = true -> goroutines s = [])
  /\ forall i w st, goroutines s !! i = Some (GWorker w st) ->
       i = w /\ (w < length (workers p0))%nat.

(** The futures [newFuture] returned, in the order of the events. *)
Definition created (evs : list event) : list Future :=
  omap (fun ev => match ev with EvNewFuture f => Some f | _ => None end) evs.

(** The futures made so far are the result channels of the system. *)
Definition futures_inv (evs : list event) (s : State) : Prop :=
  created evs = (fun c => mkFuture (Some c)) <$> seq 0 (length (futures s)).

(** Goroutine [j] is worker [w] inside the call of the computation of task
    [t]; the events [evs] hold no return of [Stop] and no answer to [t]. *)
Definition in_call (j w : nat) (t : Task) (evs : list event) (s : State)
  : Prop :=
  wg_inv s
  /\ goroutines s !! j = Some (GWorker w (WCall t))
  /\ (EvStopReturn ∉ evs).

(** A goroutine of the pool that waits at its [select], or has returned. *)
Definition idle_goroutine (p : Pool) (g : goroutine) : Prop :=
  match g with
  | GWorker w WSelect => (w < length (workers p))%nat
  | GDispatch (DSelect _) | GExited => True
  | _ => False
  end.

(** Where the caller of the first [Stop] stands: the channels it has not
    reached yet are open. *)
Definition stop_pending (p : Pool) (evs : list event) (g : goroutine)
  : Prop :=
  match g with
  | GStop SCloseTaskCh =>
      chan_closed (taskCh p) = false /\ chan_closed (shutdownCh p) = false
      /\ Forall (fun w => chan_closed (shutdown w) = false) (workers p)
  | GStop SCloseShutdownCh =>
      chan_closed (shutdownCh p) = false
      /\ Forall (fun w => chan_closed (shutdown w) = false) (workers p)
  | GStop (SCloseWorker j) =>
      chan_closed (shutdownCh p) = true /\ (j < length (workers p))%nat
      /\ forall k w, (j <= k)%nat -> workers p !! k = Some w ->
           chan_closed (shutdown w) = false
  | GStop SWait => chan_closed (shutdownCh p) = true
  | GExited => EvStopReturn ∈ evs /\ chan_closed (shutdownCh p) = true
  | _ => False
  end.

(** An idle pool on which goroutine [m] runs [Stop]. *)
Definition stopping (m : nat) (evs : list event) (s : State) : Prop :=
  buf (taskCh (pool s)) = []
  /\ no_panic evs
  /\ (forall i g, goroutines s !! i = Some g -> i <> m ->
        idle_goroutine (pool s) g)
  /\ exists g, goroutines s !! m = Some g /\ stop_pending (pool s) evs g.

(** The steps the goroutines of [s] might take. *)
Definition candidates (s : State) : list action :=
  let idx := seq 0 (length (goroutines s)) in
  (idx ≫= fun i => [Step i CaseTask; Step i CaseShutdown;
                     Step i CaseOwnerShutdown])
  ++ (idx ≫= fun i => idx ≫= fun j => [Handoff i j]).

(** * Basic facts *)

Lemma set_closed_id (p : Pool) : set_closed p (closed p) = p.
Proof. by destruct p. Qed.

Lemma Start_running (p : Pool) :
  closed p = false -> Start p = (Some ErrAlreadyRunning, p, []).
Proof.
  intros H. unfold Start, CompareAndSwap. rewrite H. simpl.
  by rewrite <- H, set_closed_id.
Qed.

Lemma Start_stopped (p : Pool) :
  closed p = true ->
  Start p =
    (None,
     mkPool (numWorkers p) (taskCh p) (workers p) false
       (wg p + (numWorkers p + 1)) (shutdownCh p),
     map (fun w => GWorker w WSelect) (seq 0 (length (workers p)))
       ++ [GDispatch (DSelect 0)]).
Proof. intros H. unfold Start, CompareAndSwap. by rewrite H. Qed.

Lemma Stop_enter_stopped (p : Pool) :
  closed p = true -> Stop_enter p = (Some ErrAlreadyStopped, p).
Proof.
  intros H. unfold Stop_enter, CompareAndSwap. rewrite H. simpl.
  by rewrite <- H, set_closed_id.
Qed.

Lemma Stop_enter_running (p : Pool) :
  closed p = false -> Stop_enter p = (None, set_closed p true).
Proof. intros H. unfold Stop_enter, CompareAndSwap. by rewrite H. Qed.

Lemma stop_step_closed (p p' : Pool) (pc : stop_pc) (g : goroutine) :
  stop_step p pc = Some (p', g) -> closed p' = closed p.
Proof.
  destruct pc; simpl; intros H;
    repeat (case_match; simplify_eq); try done.
Qed.

Lemma stop_step_decreases (p p' : Pool) (pc pc' : stop_pc) :
  stop_step p pc = Some (p', GStop pc') ->
  length (workers p') = length (workers p)
  /\ (stop_steps (length (workers p)) pc'
      < stop_steps (length (workers p)) pc)%nat.
Proof.
  destruct pc; simpl; intros H; unfold stop_loop in *;
    repeat (case_match; simplify_eq); simpl;
    rewrite ?length_insert;
    repeat match goal with
      | H : (_ <? _)%nat = true |- _ => apply Nat.ltb_lt in H
      | H : (_ <? _)%nat = false |- _ => apply Nat.ltb_ge in H
      | H : workers _ !! _ = Some _ |- _ => apply lookup_lt_Some in H
      end;
    split; try done; lia.
Qed.

Lemma stop_run_returns (fuel : nat) (p : Pool) (pc : stop_pc) :
  (stop_steps (length (workers p)) pc <= fuel)%nat ->
  exists o, stop_run fuel p pc = Some o
            /\ closed (stop_pool o) = closed p /\ stop_error o = None.
Proof.
  revert p pc. induction fuel as [|fuel IH]; intros p pc Hfuel.
  - destruct pc; simpl in Hfuel; lia.
  - simpl. destruct (stop_step p pc) as [[p' g]|] eqn:Hs; [|by eauto].
    pose proof (stop_step_closed _ _ _ _ Hs) as Hc.
    destruct g as [| | |pc'| |]; try by eauto.
    apply stop_step_decreases in Hs as [Hlen Hlt].
    destruct (IH p' pc') as (o & Ho & Hoc & Hoe); [rewrite Hlen; lia|].
    exists o. rewrite Hoc. by eauto.
Qed.

(** [Stop] has an outcome: the fuel it is given is enough. *)
Lemma Stop_returns (p : Pool) : exists o, Stop p = Some o.
Proof.
  unfold Stop. destruct (Stop_enter p) as [[e|] p']; [by eauto|].
  destruct (stop_run_returns _ p' SCloseTaskCh (le_n _)) as (o & Ho & _).
  by eauto.
Qed.

(** * Schedules *)

Lemma run_app (acts1 acts2 : list action) (s : State) :
  run (acts1 ++ acts2) s =
    '(evs1, s1) ← run acts1 s;
    '(evs2, s2) ← run acts2 s1;
    Some (evs1 ++ evs2, s2).
Proof.
  revert s. induction acts1 as [|a acts1 IH]; intros s; simpl.
  - destruct (run acts2 s) as [[evs2 s2]|]; simpl; done.
  - destruct (exec a s) as [[evs s']|]; simpl; [|done].
    rewrite IH. destruct (run acts1 s') as [[evs1 s1]|]; simpl; [|done].
    destruct (run acts2 s1) as [[evs2 s2]|]; simpl; [|done].
    by rewrite (assoc_L (++)).
Qed.

Lemma run_two (a b : action) (s : State) :
  run [a; b] s =
    '(evs1, s1) ← exec a s;
    '(evs2, s2) ← exec b s1;
    Some (evs1 ++ evs2, s2).
Proof.
  simpl. destruct (exec a s) as [[evs1 s1]|]; simpl; [|done].
  destruct (exec b s1) as [[evs2 s2]|]; simpl; [|done].
  by rewrite (right_id_L [] (++)).
Qed.

(** An invariant of the events so far and the state, kept by every action
    that satisfies [A], is kept by every schedule of such actions. *)
Lemma run_invariant (A : action -> Prop) (I : list event -> State -> Prop) :
  (forall evs0 s a evs s',
      I evs0 s -> A a -> exec a s = Some (evs, s') -> I (evs0 ++ evs) s') ->
  forall acts evs0 s evs s',
    I evs0 s -> Forall A acts -> run acts s = Some (evs, s') ->
    I (evs0 ++ evs) s'.
Proof.
  intros Hstep acts. induction acts as [|a acts IH];
    intros evs0 s evs s' HI HA Hrun; simpl in Hrun.
  - simplify_eq. by rewrite (right_id_L [] (++)).
  - destruct (exec a s) as [[evs1 s1]|] eqn:He; simpl in Hrun; [|done].
    destruct (run acts s1) as [[evs2 s2]|] eqn:Hr; simpl in Hrun; [|done].
    simplify_eq. inversion HA as [|? ? Ha HA']; subst.
    rewrite (assoc_L (++)). eapply IH; eauto.
Qed.

(** Case analysis of the action [exec a s = Some _] found in the context. *)
Ltac split_cases :=
  repeat first [ progress simplify_option_eq | case_match ]; try done.

Ltac exec_cases :=
  match goal with
  | H : exec ?a _ = Some _ |- _ =>
      destruct a; simpl in H;
      unfold Start, Stop_enter, AddTask_enter, newFuture, CompareAndSwap in H
  end;
  split_cases;
  repeat match goal with
    | H : step_goroutine _ _ _ _ = Some _ |- _ =>
        unfold step_goroutine, dispatch_select, worker_select, worker_call,
          worker_reply, addtask_send, stop_step, close_worker in H;
        split_cases
    end.

(** ** Channel operations *)

Lemma chan_send_Sent {A : Type} (c c' : chan A) (x : A) :
  chan_send c x = Sent c' ->
  chan_closed c = false /\ Z.of_nat (length (buf c)) < cap c
  /\ c' = Chan (cap c) (buf c ++ [x]) false.
Proof.
  unfold chan_send. destruct (chan_closed c) eqn:Hc; [done|].
  destruct (Z.ltb_spec (Z.of_nat (length (buf c))) (cap c)); [|done].
  by intros [= <-].
Qed.

Lemma chan_send_SendPanics {A : Type} (c : chan A) (x : A) :
  chan_send c x = SendPanics <-> chan_closed c = true.
Proof. unfold chan_send. destruct (chan_closed c); repeat case_match; done. Qed.

Lemma chan_send_SendBlocks {A : Type} (c : chan A) (x : A) :
  chan_send c x = SendBlocks <->
  chan_closed c = false /\ cap c <= Z.of_nat (length (buf c)).
Proof.
  unfold chan_send. destruct (chan_closed c); [naive_solver|].
  destruct (Z.ltb_spec (Z.of_nat (length (buf c))) (cap c));
    naive_solver lia.
Qed.

Lemma chan_recv_Received {A : Type} (c c' : chan A) (x : A) :
  chan_recv c = Received x c' ->
  buf c = x :: buf c' /\ cap c' = cap c /\ chan_closed c' = chan_closed c.
Proof.
  unfold chan_recv. destruct (buf c) as [|y rest]; [by case_match|].
  by intros [= <- <-].
Qed.

Lemma chan_recv_RecvClosed {A : Type} (c : chan A) :
  chan_recv c = RecvClosed <-> buf c = [] /\ chan_closed c = true.
Proof.
  unfold chan_recv. destruct (buf c), (chan_closed c); naive_solver.
Qed.

Lemma chan_recv_RecvBlocks {A : Type} (c : chan A) :
  chan_recv c = RecvBlocks <-> buf c = [] /\ chan_closed c = false.
Proof.
  unfold chan_recv. destruct (buf c), (chan_closed c); naive_solver.
Qed.

Lemma chan_close_Some {A : Type} (c c' : chan A) :
  chan_close c = Some c' ->
  chan_closed c = false /\ c' = Chan (cap c) (buf c) true.
Proof. unfold chan_close. destruct (chan_closed c); by intros [= <-]. Qed.

Lemma chan_close_None {A : Type} (c : chan A) :
  chan_close c = None <-> chan_closed c = true.
Proof. unfold chan_close. by destruct (chan_closed c). Qed.

(** Turn the outcomes of channel operations in the context into facts. *)
Ltac chan_facts :=
  repeat match goal with
    | H : chan_send _ _ = Sent _ |- _ =>
        apply chan_send_Sent in H as (? & ? & ?)
    | H : chan_send _ _ = SendBlocks |- _ =>
        apply chan_send_SendBlocks in H as (? & ?)
    | H : chan_send _ _ = SendPanics |- _ =>
        apply chan_send_SendPanics in H
    | H : chan_recv _ = Received _ _ |- _ =>
        apply chan_recv_Received in H as (? & ? & ?)
    | H : chan_recv _ = RecvClosed |- _ =>
        apply chan_recv_RecvClosed in H as (? & ?)
    | H : chan_recv _ = RecvBlocks |- _ =>
        apply chan_recv_RecvBlocks in H as (? & ?)
    | H : chan_close _ = Some _ |- _ =>
        apply chan_close_Some in H as (? & ?)
    | H : chan_close _ = None |- _ =>
        apply chan_close_None in H
    | H : make_chan _ = Some _ |- _ =>
        unfold make_chan in H; case_match; [done|]; injection H as <-
    end.

(** ** The flag changes in [Start] and [Stop] only *)

Lemma leave_fields (p : Pool) (g : goroutine) :
  numWorkers (leave p g) = numWorkers p /\ taskCh (leave p g) = taskCh p
  /\ workers (leave p g) = workers p /\ closed (leave p g) = closed p
  /\ shutdownCh (leave p g) = shutdownCh p.
Proof. by destruct g. Qed.

Lemma exec_closed_flag (a : action) (s s' : State) (evs : list event) :
  exec a s = Some (evs, s') -> a <> CallStart -> a <> CallStop ->
  closed (pool s') = closed (pool s).
Proof.
  intros H H1 H2. exec_cases. by destruct (dispatch_route _ _ _).
Qed.

Lemma run_closed_flag (acts : list action) (s s' : State) (evs : list event) :
  run acts s = Some (evs, s') ->
  Forall (fun a => a <> CallStart /\ a <> CallStop) acts ->
  closed (pool s') = closed (pool s).
Proof.
  intros Hrun HA.
  apply (run_invariant (fun a => a <> CallStart /\ a <> CallStop)
           (fun _ s1 => closed (pool s1) = closed (pool s)))
    with (acts := acts) (evs0 := []) (s := s) (evs := evs); try done.
  intros evs0 s1 a evs1 s1' HI [? ?] He. rewrite <- HI.
  by eapply exec_closed_flag.
Qed.

(** ** Closed channels stay closed *)

Lemma pool_le_refl (p : Pool) : pool_le p p.
Proof. repeat split; eauto. Qed.

Lemma pool_le_same (p p' : Pool) :
  taskCh p' = taskCh p -> shutdownCh p' = shutdownCh p ->
  workers p' = workers p -> pool_le p p'.
Proof.
  intros H1 H2 H3. unfold pool_le. rewrite H1, H2, H3. repeat split; eauto.
Qed.

Lemma exec_pool_le (a : action) (s s' : State) (evs : list event) :
  exec a s = Some (evs, s') -> pool_le (pool s) (pool s').
Proof.
  intros H. exec_cases; try apply pool_le_refl;
    try (apply pool_le_same; done).
  - (* the dispatcher receives a task *)
    destruct (leave_fields (set_taskCh (pool s) c)
                (dispatch_route (pool s) taskIndex x)) as (_ & Ht & Hw & _ & Hs).
    apply chan_recv_Received in H as (_ & _ & Hc).
    unfold pool_le. rewrite Ht, Hw, Hs. simpl. rewrite Hc.
    repeat split; eauto.
  - (* a caller's task enters the intake queue *)
    apply chan_send_Sent in H as (Hc & _ & ->).
    repeat split; simpl; eauto.
  - (* [close(p.taskCh)] *)
    apply chan_close_Some in H as (_ & ->). repeat split; simpl; eauto.
  - (* [close(p.shutdownCh)] *)
    apply chan_close_Some in H as (_ & ->). repeat split; simpl; eauto.
  - (* [close(w.shutdown)] *)
    match goal with H : chan_close _ = Some _ |- _ =>
      apply chan_close_Some in H as (_ & ->) end.
    repeat split; simpl; eauto.
    + by rewrite length_insert.
    + intros k w' Hk Hw'. destruct (decide (k = i0)) as [->|Hne].
      * eexists. split; [|shelve].
        apply list_lookup_insert_eq. by eapply lookup_lt_Some.
        Unshelve. done.
      * exists w'. by rewrite list_lookup_insert_ne.
Qed.

Lemma run_pool_le (acts : list action) (s s' : State) (evs : list event) :
  run acts s = Some (evs, s') -> pool_le (pool s) (pool s').
Proof.
  revert s evs. induction acts as [|a acts IH]; intros s evs H; simpl in H.
  - simplify_eq. apply pool_le_refl.
  - destruct (exec a s) as [[evs1 s1]|] eqn:He; simpl in H; [|done].
    destruct (run acts s1) as [[evs2 s2]|] eqn:Hr; simpl in H; [|done].
    simplify_eq. apply exec_pool_le in He. apply IH in Hr.
    destruct He as (A1 & A2 & A3 & A4), Hr as (B1 & B2 & B3 & B4).
    repeat split; eauto; [congruence|].
    intros k w Hk Hw. destruct (A4 k w Hk Hw) as (w1 & Hk1 & Hw1). eauto.
Qed.

(** ** What a caller inside [Stop] has closed so far *)

Lemma workers_closed_upto_all (p : Pool) (i : nat) :
  (length (workers p) <= i)%nat -> workers_closed_upto p i ->
  workers_closed p.
Proof.
  intros Hi Hu. apply Forall_lookup. intros k w Hk. apply (Hu k w); [|done].
  apply lookup_lt_Some in Hk. lia.
Qed.

Lemma workers_closed_upto_le (p p' : Pool) (i : nat) :
  pool_le p p' -> workers_closed_upto p i -> workers_closed_upto p' i.
Proof.
  intros (_ & _ & Hlen & Hw) Hu k w' Hk Hw'.
  destruct (workers p !! k) as [w|] eqn:Hl.
  - destruct (Hw k w Hl (Hu k w Hk Hl)) as (w'' & ? & ?). congruence.
  - apply lookup_ge_None in Hl. apply lookup_lt_Some in Hw'. lia.
Qed.

Lemma workers_closed_le (p p' : Pool) :
  pool_le p p' -> workers_closed p -> workers_closed p'.
Proof.
  intros Hle Hc. pose proof Hle as (_ & _ & Hlen & _).
  apply (workers_closed_upto_all p' (length (workers p))); [lia|].
  apply (workers_closed_upto_le p); [done|].
  intros k w _ Hk. by eapply (proj1 (Forall_lookup _ _) Hc).
Qed.

Lemma all_closed_le (p p' : Pool) :
  pool_le p p' -> all_closed p -> all_closed p'.
Proof.
  intros Hle (H1 & H2 & H3). pose proof Hle as (A1 & A2 & _).
  repeat split; eauto using workers_closed_le.
Qed.

Lemma stop_done_le (p p' : Pool) (g : goroutine) :
  pool_le p p' -> stop_done p g -> stop_done p' g.
Proof.
  intros Hle. pose proof Hle as (A1 & A2 & _).
  destruct g as [| | |[]| |]; simpl; try done; eauto using all_closed_le.
  intros (? & ? & ?). repeat split; eauto using workers_closed_upto_le.
Qed.

Lemma stop_loop_done (p : Pool) (i : nat) :
  chan_closed (taskCh p) = true -> chan_closed (shutdownCh p) = true ->
  workers_closed_upto p i -> stop_done p (GStop (stop_loop p i)).
Proof.
  intros H1 H2 H3. unfold stop_loop.
  destruct (Nat.ltb_spec i (length (workers p))); simpl; [done|].
  repeat split; eauto using workers_closed_upto_all.
Qed.

Lemma stop_inv_step (evs0 evs : list event) (s s' : State) (a : action) :
  stop_inv evs0 s -> exec a s = Some (evs, s') -> stop_inv (evs0 ++ evs) s'.
Proof.
  intros [Hgs Hret] H.
  assert (Hle : pool_le (pool s) (pool s')) by by eapply exec_pool_le.
  assert (Hgs' : Forall (stop_done (pool s')) (goroutines s)).
  { eapply Forall_impl; [done|]. intros g. by apply stop_done_le. }
  assert (Hret' : EvStopReturn ∈ evs0 -> all_closed (pool s')).
  { intros Hin. eapply all_closed_le; eauto. }
  clear Hgs Hret. unfold stop_inv.
  exec_cases; simpl in *; split.
  all: try done.
  all: rewrite ?elem_of_app, ?elem_of_cons, ?elem_of_nil.
  all: try (intros [?|Hin]; [by eauto|];
            try (by repeat (destruct Hin as [?|Hin]; [done|]))).
  all: try match goal with
       | |- Forall _ (<[_:=_]> _) => apply Forall_insert; [done|]
       | |- Forall _ (_ ++ _) => apply Forall_app; split; [done|]
       end.
  all: try match goal with
       | |- Forall _ (<[_:=_]> _) => apply Forall_insert; [done|]
       | |- Forall _ (map _ _ ++ _) =>
           apply Forall_app; split; [by apply Forall_map, Forall_true|]
       end.
  all: try match goal with
       | |- Forall _ _ => by repeat constructor
       | |- stop_done _ (dispatch_route _ _ _) =>
           by unfold dispatch_route; repeat case_match
       end.
  all: try done.
  all: try match goal with
       | Hl : goroutines _ !! _ = Some (GStop _) |- _ =>
           pose proof (proj1 (Forall_lookup _ _) Hgs' _ _ Hl) as Hi;
           simpl in Hi
       end.
  - destruct Hin as [?|Hin]; [done|].
    destruct (dispatch_route _ _ _); simpl in Hin;
      by rewrite ?list_elem_of_singleton, ?elem_of_nil in Hin.
  - by apply chan_close_Some in H as (_ & ->).
  - apply chan_close_Some in H as (_ & ->).
    apply (stop_loop_done (set_shutdownCh (pool s) _) 0); try done.
    intros k w Hk. lia.
  - match goal with H : chan_close _ = Some _ |- _ =>
      apply chan_close_Some in H as (_ & ->) end.
    destruct Hi as (Ht & Hs & Hu).
    match goal with |- stop_done ?p' _ =>
      replace (stop_loop (pool s) (S i0)) with (stop_loop p' (S i0))
        by (unfold stop_loop; simpl; by rewrite length_insert);
      apply (stop_loop_done p' (S i0)); try done end.
    intros k w' Hk Hw'. simpl in Hw'.
    destruct (decide (k = i0)) as [->|Hne].
    + rewrite list_lookup_insert_eq in Hw' by by eapply lookup_lt_Some.
      by simplify_eq.
    + apply (Hu k w'); [lia|]. simpl.
      by rewrite list_lookup_insert_ne in Hw' |- *.
  - destruct Hi as (Ht & Hs & Hu). repeat split; try done.
    apply (workers_closed_upto_all _ i0); [|done].
    by apply lookup_ge_None.
  - done.
  - by repeat apply Forall_insert.
Qed.

Lemma stop_inv_run (acts : list action) (s s' : State) (evs0 evs : list event) :
  stop_inv evs0 s -> run acts s = Some (evs, s') -> stop_inv (evs0 ++ evs) s'.
Proof.
  intros HI Hrun.
  apply (run_invariant (fun _ => True) stop_inv) with (acts := acts) (s := s);
    try done.
  - intros. by eapply stop_inv_step.
  - by apply Forall_true.
Qed.

Lemma stop_inv_boot (p : Pool) : stop_inv [] (boot p).
Proof. split; [by constructor|]. by intros ?%elem_of_nil. Qed.

Lemma exec_stays_stopped (a : action) (s s' : State) (evs : list event) :
  exec a s = Some (evs, s') -> a <> CallStart -> closed (pool s) = true ->
  closed (pool s') = true.
Proof.
  intros H Ha Hc. destruct a;
    try (erewrite exec_closed_flag; by eauto).
  simpl in H. rewrite Stop_enter_stopped in H by done. by simplify_eq.
Qed.

Lemma run_stays_stopped (acts : list action) (s s' : State) (evs : list event) :
  run acts s = Some (evs, s') -> Forall (fun a => a <> CallStart) acts ->
  closed (pool s) = true -> closed (pool s') = true.
Proof.
  intros Hrun HA Hc.
  apply (run_invariant (fun a => a <> CallStart)
           (fun _ s1 => closed (pool s1) = true))
    with (acts := acts) (evs0 := []) (s := s) (evs := evs); try done.
  intros evs0 s1 a evs1 s1' HI Ha He. by eapply exec_stays_stopped.
Qed.

Lemma exec_stays_running (a : action) (s s' : State) (evs : list event) :
  exec a s = Some (evs, s') -> a <> CallStop -> closed (pool s) = false ->
  closed (pool s') = false.
Proof.
  intros H Ha Hc. destruct a;
    try (erewrite exec_closed_flag; by eauto).
  simpl in H. rewrite Start_running in H by done. by simplify_eq.
Qed.

Lemma run_stays_running (acts : list action) (s s' : State) (evs : list event) :
  run acts s = Some (evs, s') -> Forall (fun a => a <> CallStop) acts ->
  closed (pool s) = false -> closed (pool s') = false.
Proof.
  intros Hrun HA Hc.
  apply (run_invariant (fun a => a <> CallStop)
           (fun _ s1 => closed (pool s1) = false))
    with (acts := acts) (evs0 := []) (s := s) (evs := evs); try done.
  intros evs0 s1 a evs1 s1' HI Ha He. by eapply exec_stays_running.
Qed.

(** * C4: the lifecycle flag guards [Start] and [Stop] *)

(** C4. [Start] returns the already-running error exactly when the flag is
    not Stopped and otherwise flips it to Running and returns nil; [Stop]
    returns the already-stopped error exactly when the flag is not Running
    and otherwise flips it to Stopped.  A [Start] that fails changes nothing
    and launches nothing; one that succeeds launches a goroutine for each
    worker and the dispatcher.  Hence for every pool the second of
    two [Start]s returns the already-running error, and the second of two
    [Stop]s the already-stopped error; and so it is in the running system,
    whatever the goroutines and the other callers do in between: a [Start]
    made while no [Stop] was called since the flag read Running fails, and
    a [Stop] made while no [Start] was called since it read Stopped fails. *)
Theorem Start_Stop_guarded (p : Pool) :
  (Start_error p = Some ErrAlreadyRunning <-> closed p = false)
  /\ (Start_error p = None <-> closed p = true)
  /\ closed (Start_pool p) = false
  /\ (closed p = false -> Start_pool p = p /\ Start_spawned p = [])
  /\ (closed p = true ->
      Start_spawned p
      = map (fun w => GWorker w WSelect) (seq 0 (length (workers p)))
          ++ [GDispatch (DSelect 0)])
  /\ Start_error (Start_pool p) = Some ErrAlreadyRunning
  /\ exists o,
       Stop p = Some o
       /\ (stop_error o = Some ErrAlreadyStopped <-> closed p = true)
       /\ (stop_error o = None <-> closed p = false)
       /\ closed (stop_pool o) = true
       /\ Stop (stop_pool o)
          = Some (StopError ErrAlreadyStopped (stop_pool o))
       /\ (forall s acts evs s',
             pool s = Start_pool p ->
             Forall (fun a => a <> CallStop) acts ->
             run acts s = Some (evs, s') ->
             fst <$> exec CallStart s'
             = Some [EvStart (Some ErrAlreadyRunning)])
       /\ (forall s acts evs s',
             pool s = stop_pool o ->
             Forall (fun a => a <> CallStart) acts ->
             run acts s = Some (evs, s') ->
             fst <$> exec CallStop s'
             = Some [EvStop (Some ErrAlreadyStopped)]).
Proof.
  assert (HS : closed (Start_pool p) = false).
  { unfold Start_pool. destruct (closed p) eqn:Hc.
    - by rewrite Start_stopped.
    - by rewrite Start_running. }
  assert (HR : forall s acts evs s',
             pool s = Start_pool p ->
             Forall (fun a => a <> CallStop) acts ->
             run acts s = Some (evs, s') ->
             fst <$> exec CallStart s'
             = Some [EvStart (Some ErrAlreadyRunning)]).
  { intros s acts evs s' Hp HA Hrun. rewrite <- Hp in HS.
    pose proof (run_stays_running _ _ _ _ Hrun HA HS) as Hc'.
    simpl. by rewrite Start_running. }
  assert (HT : forall q, closed q = true -> forall s acts evs s',
             pool s = q ->
             Forall (fun a => a <> CallStart) acts ->
             run acts s = Some (evs, s') ->
             fst <$> exec CallStop s'
             = Some [EvStop (Some ErrAlreadyStopped)]).
  { intros q Hq s acts evs s' Hp HA Hrun. rewrite <- Hp in Hq.
    pose proof (run_stays_stopped _ _ _ _ Hrun HA Hq) as Hc'.
    simpl. by rewrite Stop_enter_stopped. }
  split; [|split; [|split; [done|split; [|split; [|split]]]]].
  - unfold Start_error. destruct (closed p) eqn:Hc.
    + by rewrite Start_stopped.
    + by rewrite Start_running.
  - unfold Start_error. destruct (closed p) eqn:Hc.
    + by rewrite Start_stopped.
    + by rewrite Start_running.
  - intros Hc. unfold Start_pool, Start_spawned. by rewrite Start_running.
  - intros Hc. unfold Start_spawned. by rewrite Start_stopped.
  - unfold Start_error. by rewrite Start_running.
  - unfold Stop. destruct (closed p) eqn:Hc.
    + rewrite Stop_enter_stopped by done. eexists. split; [done|].
      cbn [stop_error stop_pool]. rewrite Hc, Stop_enter_stopped by done.
      do 4 (split; [done|]). split; [exact HR|]. by apply HT.
    + rewrite Stop_enter_running by done.
      destruct (stop_run_returns _ (set_closed p true) SCloseTaskCh (le_n _))
        as (o & Ho & Hoc & Hoe).
      exists o. split; [exact Ho|]. rewrite Hoe. simpl in Hoc.
      rewrite Hoc, Stop_enter_stopped by done.
      do 4 (split; [done|]). split; [exact HR|]. by apply HT.
Qed.

(** * C3: [AddTask] *)

(** C3, amended.  When the flag reads Stopped, [AddTask] returns the closed
    error and leaves the pool, hence the intake queue, as it was.  Otherwise,
    for a non-nil future and an intake queue that is not closed, it builds
    the task from the future's channel, the index and the computation and
    appends it to the intake queue, at once when there is room and after
    waiting at the send otherwise.  As long as no [Start] is called after
    the flag was set to Stopped, every [AddTask] returns the closed error. *)
Theorem AddTask_checks_flag (p : Pool) (future : option Future) (index : Z)
  (fn : Fn) :
  (closed p = true -> AddTask p future index fn = AddTaskError ErrClosed p)
  /\ (closed p = false -> chan_closed (taskCh p) = false ->
      forall f, future = Some f ->
        let task := mkTask index fn (ResultCh f) in
        (Z.of_nat (length (buf (taskCh p))) < cap (taskCh p) ->
           AddTask p future index fn
           = AddTaskOk (set_taskCh p
                          (Chan (cap (taskCh p)) (buf (taskCh p) ++ [task])
                             false)))
        /\ (cap (taskCh p) <= Z.of_nat (length (buf (taskCh p))) ->
              AddTask p future index fn = AddTaskBlocked task p
              /\ forall q, chan_closed (taskCh q) = false ->
                   Z.of_nat (length (buf (taskCh q))) < cap (taskCh q) ->
                   addtask_send q task
                   = Some ([EvEnqueue task],
                           set_taskCh q
                             (Chan (cap (taskCh q)) (buf (taskCh q) ++ [task])
                                false),
                           GExited)))
  /\ (forall s acts evs s',
        pool s = p -> closed p = true ->
        Forall (fun a => a <> CallStart) acts ->
        run acts s = Some (evs, s') ->
        exec (CallAddTask future index fn) s'
        = Some ([EvSubmitError ErrClosed], s')).
Proof.
  split; [|split].
  - intros Hc. unfold AddTask, AddTask_enter. by rewrite Hc.
  - intros Hc Hopen f -> task. unfold AddTask, AddTask_enter, chan_send.
    rewrite Hc, Hopen. simpl. fold task. split.
    + intros Hlt. by destruct (Z.ltb_spec (Z.of_nat (length (buf (taskCh p))))
                                 (cap (taskCh p))); [|lia].
    + intros Hge. split.
      * by destruct (Z.ltb_spec (Z.of_nat (length (buf (taskCh p))))
                       (cap (taskCh p))); [lia|].
      * intros q Hq Hlt. unfold addtask_send, chan_send. rewrite Hq.
        by destruct (Z.ltb_spec (Z.of_nat (length (buf (taskCh q))))
                       (cap (taskCh q))); [|lia].
  - intros s acts evs s' <- Hc HA Hrun.
    pose proof (run_stays_stopped _ _ _ _ Hrun HA Hc) as Hc'.
    simpl. unfold AddTask_enter. by rewrite Hc'.
Qed.

(** * C10: a stopped pool cannot be started again *)

(** C10. Once a [Stop] has returned nil, the intake queue and all shutdown
    channels are closed, and they are closed in every state reached later.
    In such a later state where the flag reads Stopped, [Start] returns nil
    all the same and sets the flag to Running; after it, an [AddTask] passes
    its check and panics at the send on the closed intake queue. *)
Theorem stopped_pool_stays_closed (p0 : Pool) (acts : list action)
  (evs : list event) (s : State) :
  run acts (boot p0) = Some (evs, s) ->
  EvStopReturn ∈ evs ->
  all_closed (pool s)
  /\ forall acts' evs' s',
       run acts' s = Some (evs', s') ->
       all_closed (pool s')
       /\ (closed (pool s') = true ->
           exists s'',
             exec CallStart s' = Some ([EvStart None], s'')
             /\ closed (pool s'') = false
             /\ all_closed (pool s'')
             /\ forall f index fn,
                  let task := mkTask index fn (ResultCh f) in
                  AddTask (pool s'') (Some f) index fn
                  = AddTaskPanic SendOnClosedChannel (pool s'')
                  /\ exec (CallAddTask (Some f) index fn) s''
                     = Some ([EvSubmit task],
                             mkState (pool s'')
                               (goroutines s'' ++ [GAddTask task])
                               (futures s''))
                  /\ addtask_send (pool s'') task
                     = Some ([EvPanic SendOnClosedChannel], pool s'',
                             GPanicked SendOnClosedChannel)).
Proof.
  intros Hrun Hret.
  pose proof (stop_inv_run _ _ _ [] _ (stop_inv_boot p0) Hrun) as [_ Hall].
  specialize (Hall Hret). split; [done|].
  intros acts' evs' s' Hrun'.
  assert (Hall' : all_closed (pool s')).
  { eapply all_closed_le; [|done]. by eapply run_pool_le. }
  split; [done|]. intros Hc.
  simpl. rewrite Start_stopped by done.
  eexists. split; [done|]. simpl. split; [done|].
  assert (Hall'' : all_closed
            (mkPool (numWorkers (pool s')) (taskCh (pool s'))
               (workers (pool s')) false
               (wg (pool s') + (numWorkers (pool s') + 1))
               (shutdownCh (pool s')))) by done.
  split; [done|]. destruct Hall' as (Ht & _).
  intros f index fn. unfold AddTask, addtask_send, AddTask_enter, chan_send.
  simpl. by rewrite Ht.
Qed.

(** ** Where results come from *)

Lemma holds_submitted_mono (evs evs' : list event) (g : goroutine) :
  holds_submitted evs g -> holds_submitted (evs ++ evs') g.
Proof.
  destruct g as [[]|? []| | | |]; simpl; rewrite ?elem_of_app; tauto.
Qed.

Lemma result_of_task_mono (evs evs' : list event) t c r :
  result_of_task evs t c r -> result_of_task (evs ++ evs') t c r.
Proof. unfold result_of_task. rewrite elem_of_app. tauto. Qed.

Lemma holds_submitted_route (evs : list event) (p : Pool) (k : Z) (t : Task) :
  EvSubmit t ∈ evs -> holds_submitted evs (dispatch_route p k t).
Proof. intros H. unfold dispatch_route. by repeat case_match. Qed.

Lemma result_inv_step (evs0 evs : list event) (s s' : State) (a : action) :
  result_inv evs0 s -> exec a s = Some (evs, s') ->
  result_inv (evs0 ++ evs) s'.
Proof.
  intros (Hgs & Hq & Hpub & Hbuf & Hdrain) H.
  assert (Hgs' : Forall (holds_submitted (evs0 ++ evs)) (goroutines s)).
  { eapply Forall_impl; [done|]. intros g. apply holds_submitted_mono. }
  assert (Hq' : Forall (fun t => EvSubmit t ∈ evs0 ++ evs)
                  (buf (taskCh (pool s)))).
  { eapply Forall_impl; [done|]. intros t. rewrite elem_of_app. tauto. }
  assert (Hpub' : forall t c r, EvPublish t c r ∈ evs0 ->
                    result_of_task (evs0 ++ evs) t c r).
  { intros t c r Hin. by apply result_of_task_mono, Hpub. }
  assert (Hbuf' : forall c ch r, futures s !! c = Some ch -> r ∈ buf ch ->
                    exists t, EvPublish t c r ∈ evs0 ++ evs).
  { intros c ch r Hc Hr. destruct (Hbuf c ch r Hc Hr) as [t Ht].
    exists t. rewrite elem_of_app. tauto. }
  assert (Hdrain' : forall c r, EvDrain c r ∈ evs0 ->
                      exists t, EvPublish t c r ∈ evs0 ++ evs).
  { intros c r Hin. destruct (Hdrain c r Hin) as [t Ht].
    exists t. rewrite elem_of_app. tauto. }
  clear Hgs Hq Hpub Hbuf Hdrain. unfold result_inv.
  exec_cases; simpl in *;
    repeat match goal with
      | Hl : goroutines _ !! _ = Some _ |- _ =>
          pose proof (proj1 (Forall_lookup _ _) Hgs' _ _ Hl);
          apply list_elem_of_lookup_2 in Hl
      end;
    simpl in *; rewrite ?(right_id_L [] (++)) in *.
  all: split; [|split; [|split; [|split]]].
  all: try done.
  all: try match goal with
       | |- Forall _ (<[_:=_]> (<[_:=_]> _)) =>
           apply Forall_insert; [apply Forall_insert; [done|]|]
       | |- Forall _ (<[_:=_]> _) => apply Forall_insert; [done|]
       | |- Forall _ (goroutines _ ++ _) => apply Forall_app; split; [done|]
       end.
  all: try match goal with
       | |- Forall _ (map _ _ ++ _) =>
           apply Forall_app; split; [by apply Forall_map, Forall_true|]
       end.
  all: try match goal with
       | |- Forall (holds_submitted _) _ => by repeat constructor
       | |- holds_submitted _ (dispatch_route _ _ _) =>
           apply holds_submitted_route
       end.
  all: try (simpl; rewrite ?elem_of_app, ?elem_of_cons, ?elem_of_nil;
            by intuition).
  all: try (intros ? ? ?; rewrite elem_of_app; intros [?|Hin]; [by eauto|];
            rewrite ?elem_of_cons, ?elem_of_nil in Hin;
            by intuition discriminate).
  all: try (intros ? ?; rewrite elem_of_app; intros [?|Hin]; [by eauto|];
            rewrite ?elem_of_cons, ?elem_of_nil in Hin;
            by intuition discriminate).
  all: chan_facts; subst; simpl in *.
  - repeat constructor. simpl. apply elem_of_app. right.
    by apply list_elem_of_singleton.
  - intros c0 ch r [Hl|[_ Hl]]%lookup_app_Some Hr; [by eauto|].
    apply list_lookup_singleton_Some in Hl as [_ <-].
    by apply elem_of_nil in Hr.
  - intros c1 ch r [(-> & <- & _)|[_ Hl]]%list_lookup_insert_Some Hr;
      by eauto.
  - intros c1 ch r [(-> & <- & _)|[_ Hl]]%list_lookup_insert_Some Hr;
      [|by eauto].
    eapply Hbuf'; [done|]. match goal with H : buf _ = _ :: _ |- _ =>
      rewrite H end. by right.
  - intros c1 r. rewrite elem_of_app, list_elem_of_singleton.
    intros [?|[= -> ->]]; [by eauto|].
    eapply Hbuf'; [done|]. match goal with H : buf _ = _ :: _ |- _ =>
      rewrite H end. by left.
  - intros t c0 r. rewrite elem_of_app, !elem_of_cons, elem_of_nil.
    intros [?|[[= -> -> ->]|[?|[]]]]; [by eauto|..|done].
    match goal with H : _ /\ fn _ = _ |- _ => destruct H end.
    by repeat split.
  - intros c0 r. rewrite elem_of_app, !elem_of_cons, elem_of_nil.
    intros [Hin|[?|[[= -> ->]|[]]]]; [by eauto|done|].
    exists task. apply elem_of_app. right. apply elem_of_cons. by left.
  - match goal with H : buf (taskCh _) = _ :: _ |- _ =>
      rewrite H in Hq'; by inversion Hq' end.
  - destruct (leave_fields (set_taskCh (pool s) c)
                (dispatch_route (pool s) taskIndex x)) as (_ & -> & _).
    simpl. match goal with H : buf (taskCh _) = _ :: _ |- _ =>
      rewrite H in Hq'; by inversion Hq' end.
  - intros t c0 r. rewrite elem_of_app, elem_of_cons.
    intros [?|[?|Hin]]; [by eauto|done|].
    destruct (dispatch_route _ _ _); simpl in Hin;
      by rewrite ?list_elem_of_singleton, ?elem_of_nil in Hin.
  - intros c0 r. rewrite elem_of_app, elem_of_cons.
    intros [?|[?|Hin]]; [by eauto|done|].
    destruct (dispatch_route _ _ _); simpl in Hin;
      by rewrite ?list_elem_of_singleton, ?elem_of_nil in Hin.
  - intros t c3 r. rewrite elem_of_app, list_elem_of_singleton.
    intros [?|[= -> -> ->]]; [by eauto|].
    match goal with H : _ /\ fn _ = _ |- _ => destruct H end.
    by repeat split.
  - intros c3 ch r [(-> & <- & _)|[_ Hl]]%list_lookup_insert_Some Hr;
      [|by eauto].
    simpl in Hr. apply elem_of_app in Hr as [Hr|Hr%list_elem_of_singleton].
    + by eauto.
    + subst r. eexists. apply elem_of_app. right.
      by apply list_elem_of_singleton.
  - apply Forall_app. split; [done|]. by repeat constructor.
  - done.
  - done.
Qed.

Lemma result_inv_run (acts : list action) (s s' : State)
  (evs0 evs : list event) :
  result_inv evs0 s -> run acts s = Some (evs, s') ->
  result_inv (evs0 ++ evs) s'.
Proof.
  intros HI Hrun.
  apply (run_invariant (fun _ => True) result_inv)
    with (acts := acts) (s := s); try done.
  - intros. by eapply result_inv_step.
  - by apply Forall_true.
Qed.

Lemma result_inv_boot (p : Pool) : buf (taskCh p) = [] -> result_inv [] (boot p).
Proof.
  intros Hb. unfold result_inv. simpl. rewrite Hb.
  split; [by constructor|]. split; [by constructor|].
  split; [|split].
  - by intros ? ? ? ?%elem_of_nil.
  - by intros ? ? ? [=].
  - by intros ? ? ?%elem_of_nil.
Qed.

(** * C7: [NewPool] *)

Lemma NewPool_inr (n size : Z) (p : Pool) :
  NewPool n size = inr p ->
  0 <= n
  /\ p = mkPool n (Chan (if size <=? 0 then 1 else size) [] false)
           (map new_worker (seq 0 (Z.to_nat n))) true 0 make_signal.
Proof.
  unfold NewPool, make_chan.
  destruct (Z.leb_spec size 0); simpl;
    try destruct (Z.ltb_spec size 0); try lia;
    destruct (Z.ltb_spec n 0); try done; by intros [= <-].
Qed.

Lemma NewPool_returns (n size : Z) :
  0 <= n ->
  NewPool n size
  = inr (mkPool n (Chan (if size <=? 0 then 1 else size) [] false)
           (map new_worker (seq 0 (Z.to_nat n))) true 0 make_signal).
Proof.
  intros Hn. unfold NewPool, make_chan.
  destruct (Z.leb_spec size 0); simpl.
  - destruct (Z.ltb_spec n 0); [lia|]. reflexivity.
  - destruct (Z.ltb_spec size 0); [lia|].
    destruct (Z.ltb_spec n 0); [lia|]. reflexivity.
Qed.


(** * C9: the worker count is not validated *)

(** C9. No operation checks the worker count.  A negative count makes
    [NewPool] panic when it allocates the worker slice.  With a count of
    zero [NewPool] and [Start] succeed and [AddTask] accepts a task, and
    the dispatcher panics with a division by zero on the first task it
    receives, whatever its counter.  With a count of at least 1 the
    dispatcher routes every task received at a counter that is not
    negative to a worker of the pool. *)
Theorem worker_count_unchecked (size : Z) :
  (forall n, n < 0 -> NewPool n size = inl MakeSliceLenOutOfRange)
  /\ (exists p p',
        NewPool 0 size = inr p
        /\ Start p = (None, p', [GDispatch (DSelect 0)])
        /\ (forall k task,
              dispatch_route p' k task = GPanicked IntegerDivideByZero)
        /\ forall f index fn,
             let task := mkTask index fn (ResultCh f) in
             fst <$> run [CallStart; CallAddTask (Some f) index fn;
                          Step 1 CaseTask; Step 0 CaseTask] (boot p)
             = Some [EvStart None; EvSubmit task; EvEnqueue task;
                     EvDequeue task; EvPanic IntegerDivideByZero])
  /\ (forall n p k task,
        1 <= n -> NewPool n size = inr p -> 0 <= k ->
        exists w,
          dispatch_route p k task = GDispatch (DSend k w task)
          /\ Z.of_nat w = k mod n /\ is_Some (workers p !! w)).
Proof.
  split; [|split].
  - intros n Hn. unfold NewPool, make_chan.
    destruct (Z.leb_spec size 0); simpl.
    + by destruct (Z.ltb_spec n 0); [|lia].
    + destruct (Z.ltb_spec size 0); [lia|].
      by destruct (Z.ltb_spec n 0); [|lia].
  - pose proof (NewPool_returns 0 size ltac:(lia)) as Hp.
    eexists _, _. split; [exact Hp|]. split; [done|]. split; [done|].
    intros f index fn task. simpl.
    unfold addtask_send, chan_send. simpl.
    assert (Hcap : (Z.of_nat 0 <? (if size <=? 0 then 1 else size)) = true).
    { apply Z.ltb_lt. destruct (Z.leb_spec size 0); lia. }
    rewrite Hcap. simpl. done.
  - intros n p k task Hn Hp Hk.
    apply NewPool_inr in Hp as [_ ->]. unfold dispatch_route. simpl.
    rewrite length_map, length_seq.
    destruct (Z.eqb_spec n 0); [lia|].
    pose proof (Z.rem_bound_pos k n Hk ltac:(lia)) as [Hr1 Hr2].
    destruct (Z.ltb_spec (Z.rem k n) 0); [lia|].
    destruct (Z.leb_spec (Z.of_nat (Z.to_nat n)) (Z.rem k n)); [lia|].
    simpl. eexists. split; [done|]. split.
    + rewrite Z2Nat.id by done. apply Z.rem_mod_nonneg; lia.
    + apply lookup_lt_is_Some. rewrite length_map, length_seq. lia.
Qed.

(** * C1: a result carries the index of its task *)

(** C1. In every schedule of a pool made by [NewPool], whatever the callers
    and however many batches share the pool: each [Result] a worker writes
    goes to the response channel of the task it ran, carries that task's
    index and what that task's computation returned, and the task was built
    by an [AddTask] with that channel and index; every [Result] found in a
    result channel, and every [Result] a caller received from one, was
    written that way for that very channel. *)
Theorem result_index_is_task_index (n size : Z) (p0 : Pool)
  (acts : list action) (evs : list event) (s : State) :
  NewPool n size = inr p0 ->
  run acts (boot p0) = Some (evs, s) ->
  (forall t c r, EvPublish t c r ∈ evs ->
     rindex r = index t /\ responseCh t = Some c /\ EvSubmit t ∈ evs
     /\ fn t = Returns (value r) (err r))
  /\ (forall c ch r, futures s !! c = Some ch -> r ∈ buf ch ->
        exists t, EvPublish t c r ∈ evs /\ rindex r = index t
                  /\ responseCh t = Some c /\ EvSubmit t ∈ evs)
  /\ (forall c r, EvDrain c r ∈ evs ->
        exists t, EvPublish t c r ∈ evs /\ rindex r = index t
                  /\ responseCh t = Some c /\ EvSubmit t ∈ evs).
Proof.
  intros Hp Hrun.
  assert (Hb : buf (taskCh p0) = []) by by apply NewPool_inr in Hp as [_ ->].
  pose proof (result_inv_run _ _ _ [] _ (result_inv_boot _ Hb) Hrun)
    as (_ & _ & Hpub & Hbuf & Hdrain).
  simpl in *. split; [|split].
  - intros t c r Hin. destruct (Hpub t c r Hin) as (? & ? & ? & ?). done.
  - intros c ch r Hc Hr. destruct (Hbuf c ch r Hc Hr) as [t Ht].
    destruct (Hpub t c r Ht) as (? & ? & ? & ?). by exists t.
  - intros c r Hin. destruct (Hdrain c r Hin) as [t Ht].
    destruct (Hpub t c r Ht) as (? & ? & ? & ?). by exists t.
Qed.

(** * C6: the computation's error is passed on untouched *)

(** C6, amended.  For every task whose computation returns an error, the
    [Result] written for it carries the task's index, that error as it was
    returned, and the value the computation returned with it, as it was
    returned (nil only when the computation returned nil). *)
Theorem task_error_verbatim (n size : Z) (p0 : Pool) (acts : list action)
  (evs : list event) (s : State) (t : Task) (c : chan_ref) (r : Result)
  (v : option V) (e : E) :
  NewPool n size = inr p0 ->
  run acts (boot p0) = Some (evs, s) ->
  EvPublish t c r ∈ evs ->
  fn t = Returns v (Some e) ->
  err r = Some e /\ value r = v /\ rindex r = index t.
Proof.
  intros Hp Hrun Hin Hfn.
  assert (Hb : buf (taskCh p0) = []) by by apply NewPool_inr in Hp as [_ ->].
  pose proof (result_inv_run _ _ _ [] _ (result_inv_boot _ Hb) Hrun)
    as (_ & _ & Hpub & _).
  destruct (Hpub t c r Hin) as (? & ? & ? & Hfn'). rewrite Hfn in Hfn'.
  by simplify_eq.
Qed.

(** * C8: what a worker does with a task *)

(** C8. A worker that has received a task calls its computation; when that
    returns, with an error or without, the worker builds the [Result] from
    the task's index and what was returned.  With a nil response channel the
    [Result] is dropped, no channel changes and nothing panics; otherwise the
    worker sends it on the task's response channel and on no other: the
    [Result] is appended there as soon as the channel takes it (the send
    waits while the channel is full and panics when it is closed).  Either
    way the worker is back at its [select], where it receives the next task
    the dispatcher sends it. *)
Theorem worker_runs_task (s : State) (j w : nat) (task : Task)
  (v : option V) (e : option E) (c1 c2 : select_case) :
  goroutines s !! j = Some (GWorker w (WCall task)) ->
  fn task = Returns v e ->
  let r := mkResult (index task) v e in
  let back := <[j := GWorker w WSelect]> (goroutines s) in
  exec (Step j c1) s
  = Some ([], mkState (pool s)
                (<[j := GWorker w (WReply task v e)]> (goroutines s))
                (futures s))
  /\ match responseCh task with
     | None =>
         run [Step j c1; Step j c2] s
         = Some ([EvDiscard task], mkState (pool s) back (futures s))
     | Some c =>
         forall ch, futures s !! c = Some ch ->
           match chan_send ch r with
           | Sent ch' =>
               buf ch' = buf ch ++ [r]
               /\ run [Step j c1; Step j c2] s
                  = Some ([EvPublish task c r],
                          mkState (pool s) back (<[c := ch']> (futures s)))
           | SendBlocks => run [Step j c1; Step j c2] s = None
           | SendPanics =>
               run [Step j c1; Step j c2] s
               = Some ([EvPanic SendOnClosedChannel],
                       mkState (wg_done (pool s))
                         (<[j := GPanicked SendOnClosedChannel]>
                            (goroutines s))
                         (futures s))
           end
     end
  /\ forall s' i k task',
       goroutines s' !! j = Some (GWorker w WSelect) ->
       goroutines s' !! i = Some (GDispatch (DSend k w task')) ->
       exec (Handoff i j) s'
       = Some ([EvHandoff w task'],
               mkState (pool s')
                 (<[j := GWorker w (WCall task')]>
                    (<[i := GDispatch (dispatch_sent k)]> (goroutines s')))
                 (futures s')).
Proof.
  intros Hj Hfn r back.
  assert (Hlt : (j < length (goroutines s))%nat) by by eapply lookup_lt_Some.
  assert (H1 : exec (Step j c1) s
               = Some ([], mkState (pool s)
                             (<[j := GWorker w (WReply task v e)]>
                                (goroutines s))
                             (futures s))).
  { simpl. rewrite Hj. simpl. unfold worker_call. by rewrite Hfn. }
  split; [done|]. split.
  - rewrite run_two, H1. simpl.
    rewrite list_lookup_insert_eq by done. simpl. unfold worker_reply.
    destruct (responseCh task) as [c|]; simpl.
    + intros ch Hch. rewrite Hch. fold r.
      destruct (chan_send ch r) as [ch'| |] eqn:Hs; simpl;
        rewrite ?list_insert_insert_eq; try done.
      split; [|done]. by apply chan_send_Sent in Hs as (_ & _ & ->).
    + by rewrite list_insert_insert_eq.
  - intros s' i k task' Hj' Hi'. simpl. rewrite Hi', Hj'.
    by rewrite decide_True.
Qed.

(** * C5: round-robin dispatch *)

Lemma int_min_value : int_min = -9223372036854775808.
Proof. reflexivity. Qed.

Lemma int_max_value : int_max = 9223372036854775807.
Proof. reflexivity. Qed.

Lemma wrap_in_range (z : Z) : int_min <= z <= int_max -> wrap z = z.
Proof.
  rewrite int_min_value, int_max_value. unfold wrap, int_bits. intros Hz.
  change (2 ^ (64 - 1)) with 9223372036854775808 in *.
  change (2 ^ 64) with 18446744073709551616.
  rewrite Z.mod_small; lia.
Qed.

Lemma dispatch_route_in_range (p : Pool) (k : Z) (task : Task) :
  1 <= numWorkers p -> Z.of_nat (length (workers p)) = numWorkers p ->
  0 <= k ->
  dispatch_route p k task
  = GDispatch (DSend k (Z.to_nat (k mod numWorkers p)) task).
Proof.
  intros HW Hlen Hk. unfold dispatch_route.
  destruct (Z.eqb_spec (numWorkers p) 0); [lia|].
  pose proof (Z.rem_bound_pos k (numWorkers p) Hk ltac:(lia)) as [Hr1 Hr2].
  rewrite Hlen.
  destruct (Z.ltb_spec (Z.rem k (numWorkers p)) 0); [lia|].
  destruct (Z.leb_spec (numWorkers p) (Z.rem k (numWorkers p))); [lia|].
  simpl. by rewrite Z.rem_mod_nonneg by lia.
Qed.

Lemma dispatch_loop_in_range (p : Pool) (tasks : list Task) (k0 : Z) :
  1 <= numWorkers p -> Z.of_nat (length (workers p)) = numWorkers p ->
  0 <= k0 -> k0 + Z.of_nat (length tasks) <= int_max + 1 ->
  dispatch_loop p (wrap k0) tasks
  = (round_robin (numWorkers p) k0 tasks,
     GDispatch (DSelect (wrap (k0 + Z.of_nat (length tasks))))).
Proof.
  intros HW Hlen. revert k0.
  induction tasks as [|task rest IH]; intros k0 Hk0 Hmax.
  - simpl. by rewrite Z.add_0_r.
  - simpl length in Hmax. rewrite wrap_in_range
      by (rewrite int_min_value, int_max_value in *; lia).
    simpl. rewrite dispatch_route_in_range by done.
    unfold dispatch_sent. rewrite IH by lia. unfold round_robin. simpl.
    rewrite Z.add_0_r. f_equal; [f_equal|].
    + apply imap_ext. intros i t _. simpl. do 3 f_equal. lia.
    + do 3 f_equal. lia.
Qed.

Lemma dispatch_route_cases (p : Pool) (k : Z) (task : Task) :
  (exists why, dispatch_route p k task = GPanicked why)
  \/ (exists w, dispatch_route p k task = GDispatch (DSend k w task)
                /\ (w < length (workers p))%nat).
Proof.
  unfold dispatch_route. destruct (numWorkers p =? 0); [by eauto|].
  destruct (Z.ltb_spec (Z.rem k (numWorkers p)) 0); simpl; [by eauto|].
  destruct (Z.leb_spec (Z.of_nat (length (workers p)))
              (Z.rem k (numWorkers p))); simpl; [by eauto|].
  right. eexists. split; [done|]. lia.
Qed.

Lemma dispatch_loop_app (p : Pool) (k : Z) (tasks1 tasks2 : list Task) :
  dispatch_loop p k (tasks1 ++ tasks2)
  = match dispatch_loop p k tasks1 with
    | (hs1, GDispatch (DSelect k')) =>
        let '(hs2, g) := dispatch_loop p k' tasks2 in (hs1 ++ hs2, g)
    | (hs1, g) => (hs1, g)
    end.
Proof.
  revert k. induction tasks1 as [|task rest IH]; intros k; simpl.
  - by destruct (dispatch_loop p k tasks2).
  - destruct (dispatch_route_cases p k task) as [[why ->]|(w & -> & _)];
      [done|].
    simpl. rewrite IH.
    destruct (dispatch_loop p (wrap (k + 1)) rest) as [hs1 g1].
    destruct g1 as [[k'|]| | | | |]; try done.
    by destruct (dispatch_loop p k' tasks2).
Qed.

(** ** The dispatcher in the running system *)

Lemma dequeued_app evs evs' :
  dequeued (evs ++ evs') = dequeued evs ++ dequeued evs'.
Proof. apply omap_app. Qed.

Lemma handoffs_app evs evs' :
  handoffs (evs ++ evs') = handoffs evs ++ handoffs evs'.
Proof. apply omap_app. Qed.

Lemma dispatch_route_same (p p0 : Pool) (k : Z) (t : Task) :
  numWorkers p = numWorkers p0 -> length (workers p) = length (workers p0) ->
  dispatch_route p k t = dispatch_route p0 k t.
Proof. intros Hn Hl. unfold dispatch_route. by rewrite Hn, Hl. Qed.

Lemma dispatch_loop_snoc_sent (p : Pool) (k0 k : Z) (tasks : list Task)
  (hs : list (nat * Task)) (w : nat) (t : Task) :
  dispatch_loop p k0 tasks = (hs, GDispatch (DSelect k)) ->
  dispatch_route p k t = GDispatch (DSend k w t) ->
  dispatch_loop p k0 (tasks ++ [t])
  = (hs ++ [(w, t)], GDispatch (dispatch_sent k)).
Proof.
  intros Hl Hr. rewrite dispatch_loop_app, Hl. simpl. by rewrite Hr.
Qed.

Lemma dispatch_loop_snoc_panic (p : Pool) (k0 k : Z) (tasks : list Task)
  (hs : list (nat * Task)) (why : panic) (t : Task) :
  dispatch_loop p k0 tasks = (hs, GDispatch (DSelect k)) ->
  dispatch_route p k t = GPanicked why ->
  dispatch_loop p k0 (tasks ++ [t]) = (hs, GPanicked why).
Proof.
  intros Hl Hr. rewrite dispatch_loop_app, Hl. simpl. rewrite Hr.
  by rewrite (right_id_L [] (++)).
Qed.

Lemma dispatcher_at_frame (p0 : Pool) (evs0 evs : list event)
  (g : goroutine) :
  dequeued evs = [] -> handoffs evs = [] ->
  dispatcher_at p0 evs0 g -> dispatcher_at p0 (evs0 ++ evs) g.
Proof.
  intros Hd Hh. unfold dispatcher_at.
  by rewrite dequeued_app, handoffs_app, Hd, Hh, !(right_id_L [] (++)).
Qed.

Lemma has_dispatcher_app (p0 : Pool) (evs0 evs : list event)
  (gs gs' : list goroutine) :
  dequeued evs = [] -> handoffs evs = [] -> Forall is_client gs' ->
  has_dispatcher p0 evs0 gs -> has_dispatcher p0 (evs0 ++ evs) (gs ++ gs').
Proof.
  intros Hd Hh Hgs' (i & g & Hi & Hg & Huniq). exists i, g.
  split; [by apply lookup_app_l_Some|].
  split; [by apply dispatcher_at_frame|].
  intros j g' Hj Hdisp. apply lookup_app_Some in Hj as [Hj|[_ Hj]].
  - by eapply Huniq.
  - apply (proj1 (Forall_lookup _ _) Hgs') in Hj. by destruct g'.
Qed.

Lemma has_dispatcher_insert (p0 : Pool) (evs0 evs : list event)
  (gs : list goroutine) (j : nat) (g g' : goroutine) :
  dequeued evs = [] -> handoffs evs = [] ->
  gs !! j = Some g -> is_client g -> ~ is_dispatcher g' ->
  has_dispatcher p0 evs0 gs ->
  has_dispatcher p0 (evs0 ++ evs) (<[j := g']> gs).
Proof.
  intros Hd Hh Hj Hg Hg' (i & gi & Hi & Hgi & Huniq).
  assert (Hne : j <> i).
  { intros ->. rewrite Hi in Hj. simplify_eq. by destruct g as [[]| | | | |]. }
  exists i, gi. rewrite list_lookup_insert_ne by done.
  split; [done|]. split; [by apply dispatcher_at_frame|].
  intros k gk Hk Hdisp. destruct (decide (k = j)) as [->|Hkj].
  - rewrite list_lookup_insert_eq in Hk by by eapply lookup_lt_Some.
    by simplify_eq.
  - rewrite list_lookup_insert_ne in Hk by done. by eapply Huniq.
Qed.

Lemma has_dispatcher_insert_client (p0 : Pool) (evs : list event)
  (gs : list goroutine) (j : nat) (g g' : goroutine) :
  gs !! j = Some g -> is_client g -> ~ is_dispatcher g' ->
  has_dispatcher p0 evs gs -> has_dispatcher p0 evs (<[j := g']> gs).
Proof.
  intros Hj Hg Hg' Hd. rewrite <- (right_id_L [] (++) evs).
  by eapply has_dispatcher_insert.
Qed.

Lemma has_dispatcher_moves (p0 : Pool) (evs0 evs : list event)
  (gs : list goroutine) (i : nat) (g g' : goroutine) :
  gs !! i = Some g -> is_dispatcher g ->
  (dispatcher_at p0 evs0 g -> dispatcher_at p0 (evs0 ++ evs) g') ->
  has_dispatcher p0 evs0 gs ->
  has_dispatcher p0 (evs0 ++ evs) (<[i := g']> gs).
Proof.
  intros Hi Hg Hmove (i0 & g0 & Hi0 & Hg0 & Huniq).
  assert (i = i0) as <- by by eapply Huniq. simplify_eq.
  exists i, g'. split; [|split; [by apply Hmove|]].
  - apply list_lookup_insert_eq. by eapply lookup_lt_Some.
  - intros k gk Hk Hdisp. destruct (decide (k = i)) as [->|Hne]; [done|].
    rewrite list_lookup_insert_ne in Hk by done. by eapply Huniq.
Qed.

Lemma dispatch_inv_boot (p0 : Pool) (n size : Z) :
  NewPool n size = inr p0 -> dispatch_inv p0 [] (boot p0).
Proof.
  intros Hp. apply NewPool_inr in Hp as [Hn ->].
  unfold dispatch_inv. simpl. repeat split; try done.
Qed.

Lemma has_dispatcher_frame (p0 : Pool) (evs0 evs : list event)
  (gs : list goroutine) :
  dequeued evs = [] -> handoffs evs = [] ->
  has_dispatcher p0 evs0 gs -> has_dispatcher p0 (evs0 ++ evs) gs.
Proof.
  intros Hd Hh (i & g & Hi & Hg & Huniq). exists i, g.
  split; [done|]. split; [by apply dispatcher_at_frame|done].
Qed.

(** The cases of [dispatch_inv_step] in which a caller or a worker moves. *)
Ltac client_moves :=
  do 4 (split; [done|]);
  split;
  [ first [ assumption
          | apply Forall_insert; [assumption | done]
          | apply Forall_app; split; [assumption | by repeat constructor] ]
  | split; [intros Hc; congruence|]; intros _;
    first [ eapply has_dispatcher_insert;
            [done | done | eassumption | done | by intros [] | assumption]
          | eapply has_dispatcher_app;
            [done | done | by repeat constructor | assumption]
          | eapply has_dispatcher_frame; [done | done | assumption]
          | assumption ] ].

Lemma dispatch_inv_step (p0 : Pool) (evs0 evs : list event) (s s' : State)
  (a : action) :
  dispatch_inv p0 evs0 s -> a <> CallStop -> exec a s = Some (evs, s') ->
  dispatch_inv p0 (evs0 ++ evs) s'.
Proof.
  intros (Ht & Hs & Hn & Hl & Hstop & Hstopped & Hrunning) Ha H.
  unfold dispatch_inv.
  destruct (closed (pool s)) eqn:Hclosed.
  - (* not started yet: there is no goroutine *)
    clear Hrunning. destruct (Hstopped eq_refl) as (Hgs & Hd & Hh).
    clear Hstopped.
    exec_cases; simpl in *; chan_facts; subst; simpl in *;
      rewrite ?(right_id_L [] (++));
      try done; try congruence;
      try (rewrite Hgs in *; rewrite ?lookup_nil in *; done);
      try (repeat (split; [done|]);
           try (split;
                [intros _; by rewrite ?dequeued_app, ?handoffs_app, ?Hd, ?Hh|]);
           intros Hc; congruence).
    repeat (split; [done|]). rewrite Hgs. simpl. split; [|split; [done|]].
    { apply Forall_app. split; [by apply Forall_map, Forall_true|].
      by repeat constructor. }
    intros _. exists (length (workers (pool s))), (GDispatch (DSelect 0)).
    split; [|split].
    + rewrite lookup_app_r by (rewrite length_map, length_seq; lia).
      by rewrite length_map, length_seq, Nat.sub_diag.
    + simpl. by rewrite dequeued_app, handoffs_app, Hd, Hh.
    + intros j g' Hj Hdisp. apply lookup_app_Some in Hj as [Hj|[Hge Hj]].
      * apply list_lookup_fmap_Some in Hj as (w & ? & ?). by simplify_eq.
      * rewrite length_map, length_seq in Hj, Hge.
        apply lookup_lt_Some in Hj as Hlt. simpl in Hlt. lia.
  - clear Hstopped. specialize (Hrunning eq_refl).
    exec_cases; simpl in *; chan_facts; subst; simpl in *;
      try done; try congruence;
      try match goal with
        | H : eqb (closed _) true = true |- _ => by rewrite Hclosed in H
        | H : goroutines _ !! _ = Some (GStop _) |- _ =>
            by apply (proj1 (Forall_lookup _ _) Hstop) in H
        end;
      rewrite ?(right_id_L [] (++) (goroutines _));
      try client_moves.
    + (* the dispatcher receives a task *)
      pose proof (leave_fields (set_taskCh (pool s) c)
                    (dispatch_route (pool s) taskIndex x))
        as (-> & -> & -> & -> & ->).
      simpl. rewrite H1. do 4 (split; [done|]).
      pose proof (dispatch_route_same (pool s) p0 taskIndex x Hn Hl) as Hsame.
      split; [|split; [intros Hc; congruence|]; intros _].
      { apply Forall_insert; [done|].
        by destruct (dispatch_route_cases (pool s) taskIndex x)
          as [[why ->]|(w & -> & _)]. }
      eapply has_dispatcher_moves; [done|done| |done].
      unfold dispatcher_at at 1. intros Hloop.
      rewrite Hsame in *.
      destruct (dispatch_route_cases p0 taskIndex x)
        as [[why Hr]|(w & Hr & _)]; rewrite Hr; simpl.
      * rewrite dequeued_app, handoffs_app. simpl.
        rewrite (right_id_L [] (++)). by eapply dispatch_loop_snoc_panic.
      * exists (dequeued evs0). rewrite dequeued_app, handoffs_app. simpl.
        by rewrite (right_id_L [] (++)).
    + (* the dispatcher hands its task to a worker *)
      do 4 (split; [done|]).
      split; [|split; [intros Hc; congruence|]; intros _].
      { apply Forall_insert; [|done]. by apply Forall_insert. }
      assert (Hij : i <> j) by (intros ->; congruence).
      eapply has_dispatcher_insert_client;
        [by rewrite list_lookup_insert_ne|done|by intros []|].
      eapply has_dispatcher_moves; [done|done| |done].
      simpl. intros (tasks & Hdeq & Hloop & Hr).
      rewrite dequeued_app, handoffs_app, Hdeq. simpl.
      rewrite (right_id_L [] (++)). by eapply dispatch_loop_snoc_sent.
Qed.

Lemma dispatch_inv_run (p0 : Pool) (n size : Z) (acts : list action)
  (evs : list event) (s : State) :
  NewPool n size = inr p0 -> Forall (fun a => a <> CallStop) acts ->
  run acts (boot p0) = Some (evs, s) -> dispatch_inv p0 evs s.
Proof.
  intros Hp HA Hrun.
  apply (run_invariant (fun a => a <> CallStop) (dispatch_inv p0))
    with (acts := acts) (evs0 := []) (s := boot p0) (evs := evs);
    [|by eapply dispatch_inv_boot|done|done].
  intros evs0 s1 a evs1 s1' HI Ha He. by eapply dispatch_inv_step.
Qed.

(** The hand-offs made so far are those of [dispatch_loop] over the tasks
    taken so far, the last of which may still be in the dispatcher's hands. *)
Lemma dispatch_inv_handoffs (p0 : Pool) (evs : list event) (s : State) :
  dispatch_inv p0 evs s ->
  exists tasks,
    (dispatch_loop p0 0 tasks).1 = handoffs evs
    /\ (dequeued evs = tasks
        \/ exists t, dequeued evs = tasks ++ [t]
                     /\ exists k, (dispatch_loop p0 0 tasks).2
                                  = GDispatch (DSelect k)).
Proof.
  intros (_ & _ & _ & _ & _ & Hstopped & Hrunning).
  destruct (closed (pool s)) eqn:Hc.
  - destruct (Hstopped eq_refl) as (_ & -> & ->). exists []. by auto.
  - destruct (Hrunning eq_refl) as (i & g & _ & Hg & _).
    destruct g as [[k|k w t]| | | | |]; simpl in Hg; try done.
    + exists (dequeued evs). rewrite Hg. by auto.
    + destruct Hg as (tasks & Hdeq & Hloop & _). exists tasks.
      rewrite Hloop. split; [done|]. right. by eauto.
    + exists (dequeued evs). rewrite Hg. by auto.
Qed.


(** Past the hand-off number [2^63 - 1] the counter is negative, and the
    next task received makes the dispatcher index the worker slice with a
    negative remainder unless [W] divides [2^63]. *)
Lemma dispatch_loop_overflow (W size : Z) (p : Pool) (task : Task) (n : nat) :
  1 <= W -> NewPool W size = inr p ->
  Z.of_nat n = int_max + 1 -> Z.rem int_min W <> 0 ->
  (repeat task n ++ [task]) !! n = Some task
  /\ (dispatch_loop p 0 (repeat task n ++ [task])).1 !! n = None
  /\ (dispatch_loop p 0 (repeat task n ++ [task])).2
     = GPanicked IndexOutOfRange.
Proof.
  intros HW Hp Hn Hrem. apply NewPool_inr in Hp as [_ Hp].
  assert (HnW : numWorkers p = W) by by subst p.
  assert (Hws : Z.of_nat (length (workers p)) = numWorkers p).
  { subst p. simpl. rewrite length_map, length_seq. lia. }
  split.
  { rewrite lookup_app_r by (rewrite repeat_length; lia).
    by rewrite repeat_length, Nat.sub_diag. }
  rewrite dispatch_loop_app.
  pose proof (dispatch_loop_in_range p (repeat task n) 0) as Hloop.
  rewrite (wrap_in_range 0) in Hloop by done.
  rewrite Hloop by (rewrite ?repeat_length; lia). clear Hloop.
  rewrite repeat_length, Z.add_0_l, Hn.
  change (wrap (int_max + 1)) with int_min.
  assert (Hroute : dispatch_route p int_min task = GPanicked IndexOutOfRange).
  { unfold dispatch_route. rewrite HnW.
    destruct (Z.eqb_spec W 0); [lia|].
    pose proof (Z.rem_nonpos int_min W ltac:(lia) ltac:(done)) as Hb.
    destruct (Z.ltb_spec (Z.rem int_min W) 0); [done|]. lia. }
  simpl. rewrite Hroute. simpl. split; [|done].
  apply lookup_ge_None. rewrite length_app. unfold round_robin.
  rewrite length_imap, repeat_length. simpl. lia.
Qed.

(** * C2: every task of a batch yields exactly one result *)

(** ** Accounting of tasks *)

Lemma bind_insert_Permutation {A B : Type} (f : A -> list B) (l : list A)
  (i : nat) (x y : A) :
  l !! i = Some x -> f x ++ (<[i := y]> l ≫= f) ≡ₚ f y ++ (l ≫= f).
Proof.
  intros Hi. rewrite insert_take_drop by by eapply lookup_lt_Some.
  rewrite <- (take_drop_middle l i x Hi) at 3.
  rewrite !bind_app, !bind_cons. solve_Permutation.
Qed.

Lemma no_panic_app (evs evs' : list event) :
  no_panic (evs ++ evs') -> no_panic evs /\ no_panic evs'.
Proof.
  intros H. split; intros why Hin; apply (H why), elem_of_app; tauto.
Qed.

Lemma no_panic_cons_panic (why : panic) (evs : list event) :
  ~ no_panic (EvPanic why :: evs).
Proof. intros H. apply (H why). by left. Qed.

Lemma submitted_app evs evs' :
  submitted (evs ++ evs') = submitted evs ++ submitted evs'.
Proof. apply omap_app. Qed.
Lemma handed_app evs evs' : handed (evs ++ evs') = handed evs ++ handed evs'.
Proof. apply omap_app. Qed.
Lemma published_app evs evs' :
  published (evs ++ evs') = published evs ++ published evs'.
Proof. apply omap_app. Qed.
Lemma discarded_app evs evs' :
  discarded (evs ++ evs') = discarded evs ++ discarded evs'.
Proof. apply omap_app. Qed.
Lemma results_on_app c evs evs' :
  results_on c (evs ++ evs') = results_on c evs ++ results_on c evs'.
Proof. apply omap_app. Qed.

Lemma bind_insert2_Permutation {A B : Type} (f : A -> list B) (l : list A)
  (i j : nat) (x x' y y' : A) :
  l !! i = Some x -> l !! j = Some x' -> i <> j ->
  (f x ++ f x') ++ (<[j := y']> (<[i := y]> l) ≫= f)
  ≡ₚ (f y ++ f y') ++ (l ≫= f).
Proof.
  intros Hi Hj Hne.
  assert (Hj' : <[i := y]> l !! j = Some x')
    by by rewrite list_lookup_insert_ne.
  pose proof (bind_insert_Permutation f _ j x' y' Hj') as F2.
  pose proof (bind_insert_Permutation f l i x y Hi) as F1.
  rewrite <- (assoc_L (++)), F2.
  rewrite (assoc_L (++)), (comm (++) (f x)), <- (assoc_L (++)), F1.
  solve_Permutation.
Qed.

(** Bring the goroutines of the new state back to those of the old one:
    name the tasks held after the step, and relate them to those held
    before. *)
Ltac account_with F :=
  simpl in F;
  first [ apply Permutation_cons_inv in F; rewrite F
        | rewrite F
        | rewrite <- F ];
  clear F.

Ltac account_goroutines :=
  repeat match goal with
    | Hi : ?gs !! ?i = Some ?g, Hj : ?gs !! ?j = Some ?h
      |- context [<[?j := ?h']> (<[?i := ?g']> ?gs) ≫= ?f] =>
        let F := fresh "F" in
        let X := fresh "X" in
        assert (i <> j) by (intros ->; rewrite Hi in Hj; discriminate Hj);
        pose proof (bind_insert2_Permutation f gs i j g h g' h' Hi Hj
                      ltac:(assumption)) as F;
        set (X := <[j := h']> (<[i := g']> gs) ≫= f) in *;
        account_with F
    | Hl : ?gs !! ?i = Some ?g |- context [<[?i := ?g']> ?gs ≫= ?f] =>
        let F := fresh "F" in
        let X := fresh "X" in
        pose proof (bind_insert_Permutation f gs i g g' Hl) as F;
        set (X := <[i := g']> gs ≫= f) in *;
        account_with F
    end.

Lemma bind_spawned_workers (f : goroutine -> list Task) (ws : list nat) :
  (forall w, f (GWorker w WSelect) = []) ->
  map (fun w => GWorker w WSelect) ws ≫= f = [].
Proof.
  intros Hf. induction ws as [|w ws IH]; [done|].
  csimpl. by rewrite Hf, IH.
Qed.

Lemma accounted_step (evs0 evs : list event) (s s' : State) (a : action) :
  accounted evs0 s -> exec a s = Some (evs, s') -> no_panic evs ->
  accounted (evs0 ++ evs) s'.
Proof.
  intros [K1 K2] H Hnp. unfold accounted.
  rewrite submitted_app, handed_app, published_app, discarded_app.
  exec_cases; simpl in *; chan_facts; subst; simpl in *;
    try (by apply no_panic_cons_panic in Hnp);
    rewrite ?bind_app, ?bind_cons, ?bind_nil, ?bind_spawned_workers by done;
    simpl; rewrite ?(right_id_L [] (++));
    try done;
    try (rewrite K1, K2; account_goroutines; split; solve_Permutation).
  destruct (dispatch_route_cases (pool s) taskIndex x)
    as [[why Hr]|(w & Hr & _)]; rewrite Hr in *; simpl in *.
  - exfalso. apply (Hnp why). right. by left.
  - rewrite ?(right_id_L [] (++)). rewrite K1, K2, H.
    account_goroutines. split; solve_Permutation.
Qed.

Lemma accounted_boot (p : Pool) : buf (taskCh p) = [] -> accounted [] (boot p).
Proof. intros Hb. unfold accounted. simpl. by rewrite Hb. Qed.

Lemma accounted_run (acts : list action) (s s' : State)
  (evs0 evs : list event) :
  accounted evs0 s -> run acts s = Some (evs, s') -> no_panic evs ->
  accounted (evs0 ++ evs) s'.
Proof.
  revert s evs0 evs. induction acts as [|a acts IH];
    intros s evs0 evs HI Hrun Hnp; simpl in Hrun.
  - simplify_eq. by rewrite (right_id_L [] (++)).
  - destruct (exec a s) as [[evs1 s1]|] eqn:He; simpl in Hrun; [|done].
    destruct (run acts s1) as [[evs2 s2]|] eqn:Hr; simpl in Hrun; [|done].
    simplify_eq. apply no_panic_app in Hnp as [Hnp1 Hnp2].
    rewrite (assoc_L (++)). eapply IH; [|done|done].
    by eapply accounted_step.
Qed.

(** ** A started pool that is never stopped *)

Lemma Exists_insert_keep {A : Type} (P : A -> Prop) (l : list A) (i : nat)
  (x y : A) :
  l !! i = Some x -> (P x -> P y) -> Exists P l -> Exists P (<[i := y]> l).
Proof.
  intros Hi Hxy. rewrite !Exists_exists.
  intros (z & Hz & HP). apply list_elem_of_lookup in Hz as [k Hk].
  destruct (decide (k = i)) as [->|Hne].
  - exists y. split; [|naive_solver].
    apply list_elem_of_lookup. exists i.
    apply list_lookup_insert_eq. by eapply lookup_lt_Some.
  - exists z. split; [|done]. apply list_elem_of_lookup. exists k.
    by rewrite list_lookup_insert_ne.
Qed.

Lemma running_inv_boot (n size : Z) (p : Pool) :
  NewPool n size = inr p -> running_inv (boot p).
Proof.
  intros Hp. apply NewPool_inr in Hp as [Hn ->].
  unfold running_inv, channels_open. simpl. repeat split; try done.
  - apply Forall_map, Forall_true. done.
  - destruct (Z.leb_spec size 0); lia.
Qed.

Lemma live_same_workers (p p' : Pool) (g : goroutine) :
  length (workers p') = length (workers p) -> live p g -> live p' g.
Proof. intros Hlen. destruct g as [[]| | | | |]; simpl; by rewrite ?Hlen. Qed.

(** The cases of [running_inv_step] that replace goroutines in place and
    leave the pool as it is. *)
Ltac in_place :=
  match goal with
  | Hlive : Forall (live _) (goroutines ?s),
    Hnil : closed _ = true -> forall i g, goroutines ?s !! i = Some g -> False,
    Hrunning : closed _ = false -> Exists _ _ /\ _ |- _ =>
      split; [done|]; split; [done|]; split;
      [ repeat (apply Forall_insert; [|done]); exact Hlive
      | split;
        [ intros Hc; exfalso; eauto using Hnil
        | intros Hc; destruct (Hrunning Hc) as [Hd Hwkr]; split;
          [|intros w' Hw'; specialize (Hwkr w' Hw')];
          repeat first
            [ eassumption
            | eapply Exists_insert_keep;
              [ first [ eassumption
                      | rewrite list_lookup_insert_ne;
                        [eassumption | congruence] ]
              | by simpl | ] ] ] ]
  end.

Lemma running_inv_step (evs : list event) (s s' : State) (a : action) :
  running_inv s -> exec a s = Some (evs, s') -> a <> CallStop ->
  no_panic evs -> running_inv s'.
Proof.
  intros ((Ht & Hs & Hws) & Hcap & Hlive & Hstopped & Hrunning) H Ha Hnp.
  assert (Hlk : forall i g, goroutines s !! i = Some g -> live (pool s) g).
  { intros i g. apply (proj1 (Forall_lookup _ _) Hlive). }
  assert (Hwk : forall i w, workers (pool s) !! i = Some w -> worker_open w).
  { intros i w. apply (proj1 (Forall_lookup _ _) Hws). }
  assert (Hnil : closed (pool s) = true ->
                 forall i g, goroutines s !! i = Some g -> False).
  { intros Hc i g Hi. destruct (Hstopped Hc) as [Hgs _].
    by rewrite Hgs in Hi. }
  unfold running_inv, channels_open.
  exec_cases; simpl in *; chan_facts; subst; simpl in *;
    try (by apply no_panic_cons_panic in Hnp);
    try done; try congruence;
    try match goal with
      | Hl : goroutines _ !! _ = Some (GStop _) |- _ =>
          by destruct (Hlk _ _ Hl)
      | Hl : workers _ !! _ = Some _ |- _ =>
          destruct (Hwk _ _ Hl); congruence
      end.
  - (* Start succeeds *)
    split; [done|]. split; [done|].
    assert (Hc : closed (pool s) = true) by by destruct (closed (pool s)).
    destruct (Hstopped Hc) as [-> Hb]. simpl.
    split; [|split; [done|]].
    + apply Forall_app. split; [by apply Forall_map, Forall_true|].
      by repeat constructor.
    + intros _. split.
      * apply Exists_app. right. by repeat constructor.
      * intros w Hw. apply Exists_app. left. apply Exists_exists.
        exists (GWorker w WSelect). split; [|done].
        apply list_elem_of_fmap. exists w. split; [done|].
        apply elem_of_seq. lia.
  - (* Start fails *)
    rewrite (right_id_L [] (++)).
    by destruct (pool s); simpl in *.
  - (* AddTask builds its task *)
    split; [done|]. split; [done|]. split; [|split; [done|]].
    + apply Forall_app. split; [done|]. by repeat constructor.
    + intros _. destruct (Hrunning ltac:(done)) as [Hd Hwkr].
      split; [apply Exists_app; by left|].
      intros w Hw. apply Exists_app. left. by apply Hwkr.
  - (* a caller receives from a worker waiting at its send *)
    in_place.
  - (* the dispatcher receives a task *)
    destruct (dispatch_route_cases (pool s) taskIndex x)
      as [[why Hr]|(w & Hr & Hw)]; rewrite Hr in *; simpl in *.
    { exfalso. apply (Hnp why). right. by left. }
    split; [by rewrite H1|]. split; [lia|]. split; [|split].
    + apply Forall_insert; [|done].
      eapply Forall_impl; [exact Hlive|]. by intros [[]| | | | |].
    + intros Hc. exfalso. eauto using Hnil.
    + intros Hc. destruct (Hrunning Hc) as [Hd Hwkr]. split.
      * eapply Exists_insert_keep; [done|done|done].
      * intros w' Hw'. eapply Exists_insert_keep; [done|done|by apply Hwkr].
  - in_place.
  - in_place.
  - in_place.
  - (* a caller's task enters the intake queue *)
    split; [done|]. split; [done|]. split; [|split].
    + apply Forall_insert; [|done].
      eapply Forall_impl; [exact Hlive|]. by intros [[]| | | | |].
    + intros Hc. exfalso. eauto using Hnil.
    + intros Hc. destruct (Hrunning Hc) as [Hd Hwkr]. split.
      * eapply Exists_insert_keep; [done|done|done].
      * intros w' Hw'. eapply Exists_insert_keep; [done|done|by apply Hwkr].
  - in_place.
Qed.

Lemma running_inv_run (acts : list action) (s s' : State) (evs : list event) :
  running_inv s -> run acts s = Some (evs, s') ->
  Forall (fun a => a <> CallStop) acts -> no_panic evs -> running_inv s'.
Proof.
  revert s evs. induction acts as [|a acts IH];
    intros s evs HI Hrun HA Hnp; simpl in Hrun.
  - by simplify_eq.
  - destruct (exec a s) as [[evs1 s1]|] eqn:He; simpl in Hrun; [|done].
    destruct (run acts s1) as [[evs2 s2]|] eqn:Hr; simpl in Hrun; [|done].
    simplify_eq. apply no_panic_app in Hnp as [Hnp1 Hnp2].
    inversion HA as [|? ? Ha HA']; subst.
    eapply IH; [|done|done|done]. by eapply running_inv_step.
Qed.

(** ** What the events say *)

Lemma sinks_bounded_step (evs0 evs : list event) (s s' : State) (a : action) :
  sinks_bounded evs0 s -> exec a s = Some (evs, s') ->
  sinks_bounded (evs0 ++ evs) s'.
Proof.
  intros Hb H c' ch' Hc'. rewrite results_on_app, length_app.
  assert (Hold : forall ch, futures s !! c' = Some ch ->
            (length (buf ch) <= length (results_on c' evs0))%nat)
    by (intros; by eapply Hb).
  exec_cases; simpl in *; chan_facts; subst; simpl in *;
    try (by etrans; [by eapply Hold|lia]).
  - (* newFuture *)
    apply lookup_app_Some in Hc' as [Hc'|[_ Hc']].
    + etrans; [by eapply Hold|lia].
    + apply list_lookup_singleton_Some in Hc' as [_ <-]. simpl. lia.
  - (* Future.Close *)
    apply list_lookup_insert_Some in Hc' as [(-> & <- & _)|[_ Hc']];
      simpl; etrans; [by eapply Hold| lia | by eapply Hold | lia].
  - (* a caller receives *)
    apply list_lookup_insert_Some in Hc' as [(-> & <- & _)|[_ Hc']].
    + specialize (Hold _ Heqo).
      match goal with H : buf _ = _ :: _ |- _ => rewrite H in Hold end.
      simpl in *. lia.
    + etrans; [by eapply Hold|lia].
  - (* a worker writes its result to this channel *)
    apply list_lookup_insert_Some in Hc' as [(_ & <- & _)|[? _]]; [|done].
    simpl. rewrite length_app. simpl.
    match goal with H : futures s !! _ = Some _ |- _ =>
      specialize (Hold _ H) end. lia.
  - (* a worker writes its result to another channel *)
    apply list_lookup_insert_Some in Hc' as [(? & _)|[_ Hc']]; [done|].
    etrans; [by eapply Hold|lia].
Qed.

Lemma sinks_bounded_run (acts : list action) (s s' : State)
  (evs0 evs : list event) :
  sinks_bounded evs0 s -> run acts s = Some (evs, s') ->
  sinks_bounded (evs0 ++ evs) s'.
Proof.
  intros HI Hrun.
  apply (run_invariant (fun _ => True) sinks_bounded)
    with (acts := acts) (s := s); try done.
  - intros. by eapply sinks_bounded_step.
  - by apply Forall_true.
Qed.

(** A task is dropped only for want of a response channel. *)
Lemma exec_discard (a : action) (s s' : State) (evs : list event) (t : Task) :
  exec a s = Some (evs, s') -> EvDiscard t ∈ evs -> responseCh t = None.
Proof.
  intros H Hin. exec_cases; simpl in *;
    rewrite ?elem_of_cons, ?elem_of_nil in Hin;
    try (by intuition discriminate).
  - destruct Hin as [?|Hin]; [done|].
    destruct (dispatch_route _ _ _); simpl in Hin;
      by rewrite ?list_elem_of_singleton, ?elem_of_nil in Hin.
  - destruct Hin as [[= ->]|[]]. done.
Qed.

Lemma run_discard (acts : list action) (s s' : State) (evs : list event)
  (t : Task) :
  run acts s = Some (evs, s') -> EvDiscard t ∈ evs -> responseCh t = None.
Proof.
  revert s evs. induction acts as [|a acts IH]; intros s evs Hrun Hin;
    simpl in Hrun.
  - simplify_eq. by apply elem_of_nil in Hin.
  - destruct (exec a s) as [[evs1 s1]|] eqn:He; simpl in Hrun; [|done].
    destruct (run acts s1) as [[evs2 s2]|] eqn:Hr; simpl in Hrun; [|done].
    simplify_eq. apply elem_of_app in Hin as [Hin|Hin].
    + by eapply exec_discard.
    + by eapply IH.
Qed.

(** ** Batches *)

Lemma result_of_task_result (evs : list event) (t : Task) (c : chan_ref)
  (r : Result) :
  result_of_task evs t c r -> responseCh t = Some c /\ task_result t = Some r.
Proof.
  intros (_ & Hc & Hi & Hf). split; [done|].
  unfold task_result. rewrite Hf, <- Hi. by destruct r.
Qed.

Lemma results_on_published (c : chan_ref) (evs : list event) :
  (forall t c' r, EvPublish t c' r ∈ evs ->
     responseCh t = Some c' /\ task_result t = Some r) ->
  Some <$> results_on c evs
  = task_result <$> filter (fun t => responseCh t = Some c) (published evs).
Proof.
  induction evs as [|ev evs IH]; intros Hpub; [done|].
  assert (IH' := IH (fun t c' r Hin => Hpub t c' r (list_elem_of_further _ _ _ Hin))).
  destruct ev; try exact IH'.
  destruct (Hpub task c0 r (list_elem_of_here _ _)) as [Hc Hr].
  unfold results_on, published in *. simpl.
  destruct (decide (c0 = c)) as [->|Hne].
  - rewrite filter_cons_True by done. csimpl. by rewrite Hr, IH'.
  - rewrite filter_cons_False by congruence. done.
Qed.

Lemma bind_nil_lookup {A B : Type} (f : A -> list B) (l : list A) :
  (forall i x, l !! i = Some x -> f x = []) -> l ≫= f = [].
Proof.
  induction l as [|x l IH]; intros H; [done|]. csimpl.
  rewrite (H 0%nat x) by done. apply IH. intros i y Hi. by apply (H (S i)).
Qed.

Lemma filter_elem_length {A : Type} (P : A -> Prop) `{!forall x, Decision (P x)}
  (l : list A) (x : A) :
  x ∈ l -> P x -> (0 < length (filter P l))%nat.
Proof.
  intros Hin HP.
  assert (Hx : x ∈ filter P l) by by apply list_elem_of_filter.
  destruct (filter P l); [by apply elem_of_nil in Hx|simpl; lia].
Qed.

(** ** A pool at rest has answered every task *)

Section Quiescent.

Variables (evs : list event) (s : State).
Hypothesis Hrun : running_inv s.
Hypothesis Hacc : accounted evs s.
Hypothesis Hbound : sinks_bounded evs s.
Hypothesis Hres : result_inv evs s.
Hypothesis Hreturns : forall t, t ∈ submitted evs -> fn t <> Diverges.
Hypothesis Hsized : forall t c, t ∈ submitted evs -> responseCh t = Some c ->
  exists ch, futures s !! c = Some ch
             /\ Z.of_nat (length (batch c evs)) <= cap ch.
Hypothesis Hquiet : quiescent s.

Lemma handed_submitted (t : Task) : t ∈ handed evs -> t ∈ submitted evs.
Proof.
  destruct Hacc as [K1 _]. rewrite K1, !elem_of_app. tauto.
Qed.

Lemma working_handed (i : nat) (g : goroutine) (t : Task) :
  goroutines s !! i = Some g -> t ∈ working g -> t ∈ handed evs.
Proof.
  intros Hi Ht. destruct Hacc as [_ K2]. rewrite K2, elem_of_app. left.
  apply list_elem_of_bind. exists g. split; [done|].
  by eapply list_elem_of_lookup_2.
Qed.

Lemma published_lt_batch (i : nat) (g : goroutine) (t : Task) (c : chan_ref) :
  goroutines s !! i = Some g -> t ∈ working g -> responseCh t = Some c ->
  (length (results_on c evs) < length (batch c evs))%nat.
Proof.
  intros Hi Ht Hc. destruct Hacc as [K1 K2].
  destruct Hres as (_ & _ & Hpub & _).
  assert (Hlen : length (results_on c evs)
                 = length (filter (fun t => responseCh t = Some c)
                             (published evs))).
  { rewrite <- (length_fmap Some), results_on_published, length_fmap; [done|].
    intros t' c' r Hin. eapply result_of_task_result. by apply Hpub. }
  rewrite Hlen. unfold batch. rewrite K1, !filter_app, !length_app, K2.
  rewrite !filter_app, !length_app.
  assert (0 < length (filter (fun t => responseCh t = Some c)
                        (goroutines s ≫= working)))%nat; [|lia].
  apply (filter_elem_length _ _ t); [|done].
  apply list_elem_of_bind. exists g. split; [done|].
  by eapply list_elem_of_lookup_2.
Qed.

Lemma quiescent_no_work (i : nat) (g : goroutine) :
  goroutines s !! i = Some g -> working g = [].
Proof.
  intros Hi. destruct g as [|w [|t|t v e]| | | |]; try done; exfalso.
  - (* at the call of the computation *)
    assert (Ht : t ∈ submitted evs).
    { apply handed_submitted. eapply working_handed; [done|]. by left. }
    pose proof (Hquiet (Step i CaseTask) I) as Hq. simpl in Hq.
    rewrite Hi in Hq. simpl in Hq. unfold worker_call in Hq.
    specialize (Hreturns t Ht). by destruct (fn t).
  - (* at the send of the result *)
    assert (Ht : t ∈ submitted evs).
    { apply handed_submitted. eapply working_handed; [done|]. by left. }
    pose proof (Hquiet (Step i CaseTask) I) as Hq. simpl in Hq.
    rewrite Hi in Hq. simpl in Hq. unfold worker_reply in Hq.
    destruct (responseCh t) as [c|] eqn:Hc; [|done].
    destruct (Hsized t c Ht Hc) as (ch & Hch & Hcap). rewrite Hch in Hq.
    destruct (chan_send ch _) eqn:Hsend; try done.
    apply chan_send_SendBlocks in Hsend as [_ Hfull].
    pose proof (Hbound c ch Hch) as Hb.
    pose proof (published_lt_batch i _ t c Hi ltac:(by left) Hc). lia.
Qed.

Lemma started_when_populated (i : nat) (g : goroutine) :
  goroutines s !! i = Some g -> closed (pool s) = false.
Proof.
  intros Hi. destruct Hrun as (_ & _ & _ & Hstopped & _).
  destruct (closed (pool s)); [|done].
  destruct (Hstopped eq_refl) as [Hgs _]. by rewrite Hgs in Hi.
Qed.

Lemma quiescent_no_routing (i : nat) (g : goroutine) :
  goroutines s !! i = Some g -> routing g = [].
Proof.
  intros Hi. destruct g as [[|k w t]| | | | |]; try done; exfalso.
  destruct Hrun as (_ & _ & Hlive & _ & Hrunning).
  pose proof (proj1 (Forall_lookup _ _) Hlive _ _ Hi) as Hw. simpl in Hw.
  destruct (Hrunning (started_when_populated _ _ Hi)) as [_ Hworkers].
  pose proof (Hworkers w Hw) as Hex.
  apply Exists_exists in Hex as (g & Hg & Hgw).
  apply list_elem_of_lookup in Hg as [j Hj].
  destruct g as [|w' st| | | |]; try done. simpl in Hgw. subst w'.
  pose proof (quiescent_no_work j _ Hj) as Hidle.
  destruct st; try done.
  pose proof (Hquiet (Handoff i j) I) as Hq. simpl in Hq.
  rewrite Hi, Hj in Hq. by rewrite decide_True in Hq.
Qed.

Lemma quiescent_queue_empty : buf (taskCh (pool s)) = [].
Proof.
  destruct Hrun as (_ & _ & _ & Hstopped & Hrunning).
  destruct (closed (pool s)) eqn:Hc; [by destruct (Hstopped eq_refl)|].
  destruct (Hrunning eq_refl) as [Hd _].
  apply Exists_exists in Hd as (g & Hg & Hgd).
  apply list_elem_of_lookup in Hg as [i Hi].
  destruct g as [d| | | | |]; try done.
  pose proof (quiescent_no_routing i _ Hi) as Hidle.
  destruct d as [k|]; [|done].
  pose proof (Hquiet (Step i CaseTask) I) as Hq. simpl in Hq.
  rewrite Hi in Hq. simpl in Hq. unfold chan_recv in Hq.
  by destruct (buf (taskCh (pool s))).
Qed.

Lemma quiescent_no_sending (i : nat) (g : goroutine) :
  goroutines s !! i = Some g -> sending g = [].
Proof.
  intros Hi. destruct g as [| |t| | |]; try done; exfalso.
  destruct Hrun as ((Hopen & _) & Hcap & _).
  pose proof (Hquiet (Step i CaseTask) I) as Hq. simpl in Hq.
  rewrite Hi in Hq. simpl in Hq. unfold addtask_send, chan_send in Hq.
  rewrite Hopen, quiescent_queue_empty in Hq. simpl in Hq.
  change (Z.of_nat 0) with 0 in Hq.
  by destruct (Z.ltb_spec 0 (cap (taskCh (pool s)))); [|lia].
Qed.

(** At rest, the tasks submitted are those answered or dropped. *)
Lemma quiescent_all_answered :
  submitted evs ≡ₚ published evs ++ discarded evs.
Proof.
  destruct Hacc as [K1 K2]. rewrite K1, K2.
  rewrite (bind_nil_lookup sending), (bind_nil_lookup routing),
    (bind_nil_lookup working), quiescent_queue_empty;
    eauto using quiescent_no_sending, quiescent_no_routing,
      quiescent_no_work.
Qed.

End Quiescent.

(** ** The pool comes to rest *)

Lemma sum_list_with_insert {A : Type} (f : A -> nat) (l : list A) (i : nat)
  (x y : A) :
  l !! i = Some x ->
  (sum_list_with f (<[i := y]> l) + f x = sum_list_with f l + f y)%nat.
Proof.
  revert i. induction l as [|z l IH]; intros [|i] Hi; simpl in *;
    simplify_eq.
  - lia.
  - specialize (IH i Hi). lia.
Qed.

Lemma measure_step (a : action) (s s' : State) (evs : list event) :
  exec a s = Some (evs, s') -> internal a -> (measure s' < measure s)%nat.
Proof.
  intros H Hint. unfold measure.
  destruct a; try done; exec_cases; simpl in *; chan_facts; subst; simpl in *;
    repeat match goal with
      | |- context [length (workers (leave ?p ?g))] =>
          replace (workers (leave p g)) with (workers p) by by destruct g
      | |- context [buf (taskCh (leave ?p ?g))] =>
          replace (taskCh (leave p g)) with (taskCh p) by by destruct g
      end;
    simpl; rewrite ?length_insert, ?length_app; simpl;
    repeat match goal with
      | Hi : ?gs !! ?i = Some ?g, Hj : ?gs !! ?j = Some ?h
        |- context [sum_list_with ?f (<[?j := ?h']> (<[?i := ?g']> ?gs))] =>
          assert (i <> j) by (intros ->; rewrite Hi in Hj; discriminate Hj);
          let F := fresh "F" in
          assert (F : <[i := g']> gs !! j = Some h)
            by (by rewrite list_lookup_insert_ne);
          pose proof (sum_list_with_insert f _ j h h' F);
          pose proof (sum_list_with_insert f gs i g g' Hi);
          generalize dependent (sum_list_with f (<[j := h']> (<[i := g']> gs)));
          generalize dependent (sum_list_with f (<[i := g']> gs)); intros
      | Hi : ?gs !! ?i = Some ?g
        |- context [sum_list_with ?f (<[?i := ?g']> ?gs)] =>
          pose proof (sum_list_with_insert f gs i g g' Hi);
          generalize dependent (sum_list_with f (<[i := g']> gs)); intros
      end;
    simpl in *; try lia.
  all: try match goal with
       | H : workers _ !! _ = Some _ |- _ => apply lookup_lt_Some in H
       end.
  all: try match goal with
       | H : context [dispatch_route ?p ?k ?x] |- _ =>
           destruct (dispatch_route_cases p k x) as [[? Hr]|(? & Hr & _)];
           rewrite Hr in H; simpl in H
       end.
  all: try match goal with
       | H : buf _ = _ :: _ |- _ => rewrite H; simpl
       end.
  all: unfold stop_loop in *;
    repeat match goal with
      | H : context [(?a <? ?b)%nat] |- _ => destruct (Nat.ltb_spec a b)
      end;
    simpl in *; lia.
Qed.

Lemma measure_run (acts : list action) (s s' : State) (evs : list event) :
  Forall internal acts -> run acts s = Some (evs, s') ->
  (length acts + measure s' <= measure s)%nat.
Proof.
  revert s evs. induction acts as [|a acts IH]; intros s evs HA Hrun;
    simpl in Hrun.
  - simplify_eq. simpl. lia.
  - destruct (exec a s) as [[evs1 s1]|] eqn:He; simpl in Hrun; [|done].
    destruct (run acts s1) as [[evs2 s2]|] eqn:Hr; simpl in Hrun; [|done].
    simplify_eq. inversion HA as [|? ? Ha HA']; subst.
    pose proof (measure_step _ _ _ _ He Ha).
    pose proof (IH _ _ HA' Hr). simpl. lia.
Qed.

Lemma indices_on_published (c : chan_ref) (evs : list event) :
  (forall t c' r, EvPublish t c' r ∈ evs ->
     responseCh t = Some c' /\ rindex r = index t) ->
  rindex <$> results_on c evs
  = index <$> filter (fun t => responseCh t = Some c) (published evs).
Proof.
  induction evs as [|ev evs IH]; intros Hpub; [done|].
  assert (IH' := IH (fun t c' r Hin => Hpub t c' r (list_elem_of_further _ _ _ Hin))).
  destruct ev; try exact IH'.
  destruct (Hpub task c0 r (list_elem_of_here _ _)) as [Hc Hr].
  unfold results_on, published in *. simpl.
  destruct (decide (c0 = c)) as [->|Hne].
  - rewrite filter_cons_True by done. csimpl. by rewrite Hr, IH'.
  - rewrite filter_cons_False by congruence. done.
Qed.

Lemma filter_none {A : Type} (P : A -> Prop) `{!forall x, Decision (P x)}
  (l : list A) :
  (forall x, x ∈ l -> ~ P x) -> filter P l = [].
Proof.
  induction l as [|x l IH]; intros Hl; [done|].
  rewrite filter_cons_False by (apply Hl; by left).
  apply IH. intros y Hy. apply Hl. by right.
Qed.

Lemma discarded_elem (evs : list event) (t : Task) :
  t ∈ discarded evs -> EvDiscard t ∈ evs.
Proof.
  unfold discarded. rewrite list_elem_of_omap. intros (ev & Hin & Hev).
  destruct ev; simplify_eq. done.
Qed.


(** * Further properties of the code *)

(** ** The intake queue is first in, first out *)

Lemma enqueued_app evs evs' :
  enqueued (evs ++ evs') = enqueued evs ++ enqueued evs'.
Proof. apply omap_app. Qed.

Lemma drained_app c evs evs' :
  drained c (evs ++ evs') = drained c evs ++ drained c evs'.
Proof. apply omap_app. Qed.

Lemma queue_inv_step (p0 : Pool) (evs0 evs : list event) (s s' : State)
  (a : action) :
  queue_inv p0 evs0 s -> exec a s = Some (evs, s') ->
  queue_inv p0 (evs0 ++ evs) s'.
Proof.
  intros (Hq & Hlen & Hcap) H. unfold queue_inv.
  rewrite enqueued_app, dequeued_app.
  exec_cases; simpl in *; chan_facts; subst; simpl in *;
    rewrite ?(right_id_L [] (++)); try done.
  - (* the dispatcher takes the task at the head of the queue *)
    pose proof (leave_fields (set_taskCh (pool s) c)
                  (dispatch_route (pool s) taskIndex x))
      as (_ & -> & _).
    simpl. rewrite H in Hq, Hlen. simpl in Hlen.
    split; [|split; [lia|congruence]].
    destruct (dispatch_route_cases (pool s) taskIndex x)
      as [[why ->]|(w & -> & _)]; simpl;
      rewrite (right_id_L [] (++)), Hq, <- (assoc_L (++)); done.
  - (* a caller's task enters at the tail of the queue *)
    rewrite Hq, (assoc_L (++)), length_app. simpl.
    split; [done|]. split; [lia|done].
Qed.

Lemma queue_inv_run (n size : Z) (p0 : Pool) (acts : list action)
  (evs : list event) (s : State) :
  NewPool n size = inr p0 -> run acts (boot p0) = Some (evs, s) ->
  queue_inv p0 evs s.
Proof.
  intros Hp Hrun.
  apply (run_invariant (fun _ => True) (queue_inv p0))
    with (acts := acts) (evs0 := []) (s := boot p0) (evs := evs);
    [| |by apply Forall_true|done].
  - intros evs0 s1 a evs1 s1' HI _ He. by eapply queue_inv_step.
  - apply NewPool_inr in Hp as [_ ->]. unfold queue_inv. simpl.
    split; [done|]. split; [|done]. destruct (Z.leb_spec size 0); lia.
Qed.

(** The intake queue is first in, first out and bounded: in every state a
    pool made by [NewPool] reaches, the tasks whose [AddTask] has returned
    nil are, in that order, the tasks the dispatcher has taken followed by
    those waiting in the queue; the queue never holds more tasks than the
    capacity [NewPool] gave it, and that capacity never changes. *)
Theorem intake_queue_fifo (n size : Z) (p0 : Pool) (acts : list action)
  (evs : list event) (s : State) :
  NewPool n size = inr p0 ->
  run acts (boot p0) = Some (evs, s) ->
  enqueued evs = dequeued evs ++ buf (taskCh (pool s))
  /\ (forall k t, dequeued evs !! k = Some t -> enqueued evs !! k = Some t)
  /\ Z.of_nat (length (buf (taskCh (pool s)))) <= cap (taskCh (pool s))
  /\ cap (taskCh (pool s)) = (if 1 <=? size then size else 1).
Proof.
  intros Hp Hrun.
  destruct (queue_inv_run n size p0 acts evs s Hp Hrun) as (Hq & Hlen & Hcap).
  split; [done|]. split; [|split; [done|]].
  - intros k t Hk. rewrite Hq. by apply lookup_app_l_Some.
  - rewrite Hcap. apply NewPool_inr in Hp as [_ ->]. simpl.
    destruct (Z.leb_spec size 0), (Z.leb_spec 1 size); lia.
Qed.

(** ** Result channels are first in, first out *)

Lemma pending_new (fs : list (chan Result)) (ch : chan Result)
  (c : chan_ref) :
  buf ch = [] -> pending (fs ++ [ch]) c = pending fs c.
Proof.
  intros Hb. unfold pending.
  destruct (decide (c < length fs)%nat) as [Hlt|Hge].
  - by rewrite lookup_app_l.
  - assert (Hnone : fs !! c = None) by (apply lookup_ge_None; lia).
    rewrite lookup_app_r, Hnone by lia.
    by destruct (c - length fs)%nat as [|[|k]].
Qed.

Lemma pending_insert (fs : list (chan Result)) (ch ch' : chan Result)
  (c c0 : chan_ref) :
  fs !! c = Some ch ->
  pending (<[c := ch']> fs) c0
  = if decide (c = c0) then buf ch' else pending fs c0.
Proof.
  intros Hc. unfold pending. destruct (decide (c = c0)) as [->|Hne].
  - rewrite list_lookup_insert_eq; [done|]. by eapply lookup_lt_Some.
  - by rewrite list_lookup_insert_ne.
Qed.

Lemma pending_lookup (fs : list (chan Result)) (ch : chan Result)
  (c : chan_ref) :
  fs !! c = Some ch -> pending fs c = buf ch.
Proof. intros Hc. unfold pending. by rewrite Hc. Qed.

Lemma sinks_inv_step (evs0 evs : list event) (s s' : State) (a : action) :
  sinks_inv evs0 s -> exec a s = Some (evs, s') -> sinks_inv (evs0 ++ evs) s'.
Proof.
  intros [Hres Hcap] H.
  assert (Hlk : forall c ch, futures s !! c = Some ch ->
                  Z.of_nat (length (buf ch)) <= cap ch).
  { intros c ch. apply (proj1 (Forall_lookup _ _) Hcap). }
  split; [intros c0; specialize (Hres c0);
          rewrite results_on_app, drained_app|];
    exec_cases; simpl in *; chan_facts; subst; simpl in *;
    rewrite ?(right_id_L [] (++)); try done;
    rewrite ?pending_new by done;
    try (erewrite pending_insert by eassumption);
    repeat case_decide; try done; subst;
    try (apply Forall_app; split; [done|]; repeat constructor; simpl; lia);
    try (apply Forall_insert; [done|]; simpl; eauto using Hlk);
    try (rewrite Hres; erewrite (pending_lookup (futures s)) by eassumption;
         simpl; rewrite <- ?(assoc_L (++)); done);
    try (rewrite Hres; erewrite (pending_lookup (futures s)) by eassumption;
         match goal with Hb : buf _ = _ |- _ => rewrite Hb end;
         simpl; rewrite <- ?(assoc_L (++)); done);
    try match goal with
      | Hl : futures _ !! _ = Some ?ch |- _ =>
          apply Hlk in Hl;
          try match goal with Hb : buf ch = _ |- _ => rewrite Hb in Hl end;
          rewrite ?length_app; simpl in *; lia
      end.
  (* the dispatcher takes a task: no result moves *)
  destruct (dispatch_route_cases (pool s) taskIndex x)
    as [[why ->]|(w & -> & _)]; simpl; by rewrite !(right_id_L [] (++)).
Qed.

Lemma sinks_inv_run (p0 : Pool) (acts : list action) (evs : list event)
  (s : State) :
  run acts (boot p0) = Some (evs, s) -> sinks_inv evs s.
Proof.
  intros Hrun.
  apply (run_invariant (fun _ => True) sinks_inv)
    with (acts := acts) (evs0 := []) (s := boot p0) (evs := evs);
    [| |by apply Forall_true|done].
  - intros evs0 s1 a evs1 s1' HI _ He. by eapply sinks_inv_step.
  - split; [done|]. by apply Forall_nil.
Qed.

(** Result channels are first in, first out and bounded: in every state a
    pool reaches, the results the workers have written to a channel are, in
    that order, the results its callers have received followed by those
    waiting in it.  So a caller receives the results of its future in the
    order they were written, each once, and a channel never holds more
    results than the size given to [newFuture]. *)
Theorem result_channel_fifo (p0 : Pool) (acts : list action)
  (evs : list event) (s : State) (c : chan_ref) :
  run acts (boot p0) = Some (evs, s) ->
  results_on c evs = drained c evs ++ pending (futures s) c
  /\ (forall k r, drained c evs !! k = Some r ->
        results_on c evs !! k = Some r)
  /\ (forall ch, futures s !! c = Some ch ->
        Z.of_nat (length (buf ch)) <= cap ch).
Proof.
  intros Hrun. destruct (sinks_inv_run p0 acts evs s Hrun) as [Hres Hcap].
  split; [done|]. split.
  - intros k r Hk. rewrite Hres. by apply lookup_app_l_Some.
  - intros ch. apply (proj1 (Forall_lookup _ _) Hcap).
Qed.

(** ** [Stop] waits for the workers and the dispatcher *)

Lemma counted_spawned (ws : list nat) :
  sum_list_with counted (map (fun w => GWorker w WSelect) ws) = length ws.
Proof. induction ws as [|w ws IH]; simpl; [done|]. by rewrite IH. Qed.

Lemma wg_inv_step (a : action) (s s' : State) (evs : list event) :
  wg_inv s -> exec a s = Some (evs, s') -> wg_inv s'.
Proof.
  intros [Hwg Hn] H. unfold wg_inv.
  exec_cases; simpl in *; chan_facts; subst; simpl in *;
    rewrite ?sum_list_with_app, ?counted_spawned, ?length_seq,
      ?length_insert; simpl;
    repeat match goal with
      | Hi : ?gs !! ?i = Some ?g, Hj : ?gs !! ?j = Some ?h
        |- context [sum_list_with ?f (<[?j := ?h']> (<[?i := ?g']> ?gs))] =>
          assert (i <> j) by (intros ->; rewrite Hi in Hj; discriminate Hj);
          let F := fresh "F" in
          assert (F : <[i := g']> gs !! j = Some h)
            by (by rewrite list_lookup_insert_ne);
          pose proof (sum_list_with_insert f _ j h h' F);
          pose proof (sum_list_with_insert f gs i g g' Hi);
          generalize dependent (sum_list_with f (<[j := h']> (<[i := g']> gs)));
          generalize dependent (sum_list_with f (<[i := g']> gs)); intros
      | Hi : ?gs !! ?i = Some ?g
        |- context [sum_list_with ?f (<[?i := ?g']> ?gs)] =>
          pose proof (sum_list_with_insert f gs i g g' Hi);
          generalize dependent (sum_list_with f (<[i := g']> gs)); intros
      end;
    simpl in *; try (split; [lia|done]); try done.
  (* the dispatcher takes a task, and leaves if routing it panics *)
  destruct (dispatch_route_cases (pool s) taskIndex x)
    as [[why Hr]|(w & Hr & _)]; rewrite Hr in *; simpl in *;
    (split; [lia|done]).
Qed.

Lemma wg_inv_run (n size : Z) (p0 : Pool) (acts : list action)
  (evs : list event) (s : State) :
  NewPool n size = inr p0 -> run acts (boot p0) = Some (evs, s) -> wg_inv s.
Proof.
  intros Hp Hrun.
  apply (run_invariant (fun _ => True) (fun _ => wg_inv))
    with (acts := acts) (evs0 := []) (s := boot p0) (evs := evs);
    [| |by apply Forall_true|done].
  - intros evs0 s1 a evs1 s1' HI _ He. by eapply wg_inv_step.
  - apply NewPool_inr in Hp as [Hn ->]. unfold wg_inv. simpl.
    split; [done|]. rewrite length_map, length_seq. lia.
Qed.

Lemma exec_StopReturn (a : action) (s s' : State) (evs : list event) :
  exec a s = Some (evs, s') -> EvStopReturn ∈ evs ->
  wg (pool s) = 0 /\ pool s' = pool s
  /\ exists i, goroutines s !! i = Some (GStop SWait)
               /\ goroutines s' = <[i := GExited]> (goroutines s).
Proof.
  intros H Hin.
  exec_cases; simpl in *; chan_facts; subst; simpl in *;
    repeat match goal with
      | H : _ ∈ [] |- _ => by apply elem_of_nil in H
      | H : _ ∈ _ :: _ |- _ => apply elem_of_cons in H as [?|H]; [done|]
      end.
  - exfalso. destruct (dispatch_route_cases (pool s) taskIndex x)
      as [[why Hr]|(w & Hr & _)]; rewrite Hr in Hin; simpl in Hin.
    + by apply list_elem_of_singleton in Hin.
    + by apply elem_of_nil in Hin.
  - split; [by apply Z.eqb_eq|]. split; [done|]. by eauto.
Qed.

Lemma at_rest_step (B : list Task) (evs0 evs : list event) (s s' : State)
  (a : action) :
  at_rest B evs0 s -> a <> CallStart -> exec a s = Some (evs, s') ->
  at_rest B (evs0 ++ evs) s'.
Proof.
  intros (Hgs & Hc & Hb & He & Hd & Hh & Hp & Hx) Ha H.
  assert (Hlk : forall i g, goroutines s !! i = Some g -> counted g = 0%nat).
  { intros i g. apply (proj1 (Forall_lookup _ _) Hgs). }
  unfold at_rest.
  rewrite enqueued_app, dequeued_app, handoffs_app, published_app,
    discarded_app, He, Hd, Hh, Hp, Hx.
  exec_cases; simpl in *; chan_facts; subst; simpl in *;
    try match goal with
      | Hl : goroutines _ !! _ = Some (GDispatch _) |- _ =>
          by apply Hlk in Hl
      | Hl : goroutines _ !! _ = Some (GWorker _ _) |- _ =>
          by apply Hlk in Hl
      end;
    try congruence;
    try (split; [|done]);
    try first [ assumption
              | apply Forall_insert; [assumption|done]
              | apply Forall_app; split; [assumption|by repeat constructor] ].
Qed.

Lemma at_rest_run (B : list Task) (acts : list action) (evs : list event)
  (s s' : State) :
  at_rest B [] s -> Forall (fun a => a <> CallStart) acts ->
  run acts s = Some (evs, s') -> at_rest B evs s'.
Proof.
  intros HI HA Hrun.
  apply (run_invariant (fun a => a <> CallStart) (at_rest B))
    with (acts := acts) (evs0 := []) (s := s) (evs := evs); try done.
  intros evs0 s1 a evs1 s1' HI1 Ha He. by eapply at_rest_step.
Qed.

Lemma counted_zero (gs : list goroutine) :
  sum_list_with counted gs = 0%nat -> Forall (fun g => counted g = 0%nat) gs.
Proof.
  induction gs as [|g gs IH]; simpl; intros Hsum; constructor.
  - lia.
  - apply IH. lia.
Qed.


(** ** [Stop] can wait forever *)

Lemma sum_list_with_lookup {A : Type} (f : A -> nat) (l : list A) (i : nat)
  (x : A) :
  l !! i = Some x -> (f x <= sum_list_with f l)%nat.
Proof.
  revert i. induction l as [|y l IH]; intros [|i] Hi; simpl in *;
    simplify_eq; [lia|].
  specialize (IH i Hi). lia.
Qed.

Lemma stuck_send_step (i : nat) (k : Z) (w : nat) (t : Task)
  (evs0 evs : list event) (s s' : State) (a : action) :
  stuck_send i k w t evs0 s -> a <> CallStart ->
  exec a s = Some (evs, s') -> stuck_send i k w t (evs0 ++ evs) s'.
Proof.
  intros (Hwg & Hi & Hnone & Hret & Hhand) Ha H.
  assert (Hlk : forall j g, goroutines s !! j = Some g -> ~ is_worker_of w g).
  { intros j g. apply (proj1 (Forall_lookup _ _) Hnone). }
  assert (Hpos : 1 <= wg (pool s)).
  { destruct Hwg as [-> _].
    pose proof (sum_list_with_lookup counted _ _ _ Hi). simpl in *. lia. }
  split; [by eapply wg_inv_step|].
  assert (Hev : EvStopReturn ∉ evs).
  { intros Hin. destruct (exec_StopReturn a s s' evs H Hin) as [Hz _]. lia. }
  assert (Hgoal : goroutines s' !! i = Some (GDispatch (DSend k w t))
                  /\ Forall (fun g => ~ is_worker_of w g) (goroutines s')
                  /\ forall t', EvHandoff w t' ∉ evs).
  { clear Hev Hret Hhand Hwg Hpos.
    exec_cases; simpl in *; chan_facts; subst; simpl in *;
      repeat match goal with
        | Hj : goroutines ?s !! ?j = Some ?g |- _ =>
            lazymatch g with
            | GDispatch (DSend k w t) => fail
            | _ =>
                assert (j <> i) by (intros ->; congruence);
                pose proof (Hlk _ _ Hj); revert Hj
            end
        end; intros;
      try match goal with
        | |- context [dispatch_route ?p ?k' ?x] =>
            destruct (dispatch_route_cases p k' x) as [[? Hr]|(? & Hr & _)];
            rewrite Hr in *; simpl in *
        end;
      rewrite ?list_lookup_insert_ne by done;
      (split; [first [done | by apply lookup_app_l_Some]|]);
      (split;
       [ repeat first [ assumption
                      | apply Forall_insert;
                        [|first [by intros [] | by simpl]]
                      | apply Forall_app; split;
                        [|by repeat constructor; intros []] ]
       | intros t' Hin;
         repeat match goal with
           | H : _ ∈ [] |- _ => by apply elem_of_nil in H
           | H : _ ∈ _ :: _ |- _ =>
               apply elem_of_cons in H as [?|H]; [by simplify_eq|]
           end ]). }
  destruct Hgoal as (? & ? & Hnew).
  unfold stuck_send. split; [done|]. split; [done|].
  split; [rewrite elem_of_app; tauto|].
  intros t'. rewrite elem_of_app. specialize (Hhand t'). specialize (Hnew t').
  tauto.
Qed.

(** [Stop] can wait forever.  The send of line 118 is not one of the cases
    of the dispatcher's [select]: once the dispatcher has taken a task for
    a worker whose goroutine has returned (a [Stop] closed its shutdown
    channel), it waits at that send for good.  As long as [Start] is not
    called again, the task is never handed over, the wait group stays above
    zero, and no [Stop] returns. *)
Theorem Stop_blocks_on_departed_worker (n size : Z) (p0 : Pool)
  (acts : list action) (evs : list event) (s : State)
  (i : nat) (k : Z) (w : nat) (t : Task) :
  NewPool n size = inr p0 ->
  run acts (boot p0) = Some (evs, s) ->
  goroutines s !! i = Some (GDispatch (DSend k w t)) ->
  Forall (fun g => ~ is_worker_of w g) (goroutines s) ->
  forall acts' evs' s',
    Forall (fun a => a <> CallStart) acts' ->
    run acts' s = Some (evs', s') ->
    goroutines s' !! i = Some (GDispatch (DSend k w t))
    /\ 1 <= wg (pool s')
    /\ (EvStopReturn ∉ evs')
    /\ (forall t', EvHandoff w t' ∉ evs')
    /\ forall c evs'' s'', exec (Step i c) s' <> Some (evs'', s'').
Proof.
  intros Hp Hrun Hi Hnone acts' evs' s' HA Hrun'.
  assert (Hstuck : stuck_send i k w t [] s).
  { split; [by eapply wg_inv_run|]. split; [done|]. split; [done|].
    split; [by intros ?%elem_of_nil|]. by intros t' ?%elem_of_nil. }
  assert (Hstuck' : stuck_send i k w t evs' s').
  { apply (run_invariant (fun a => a <> CallStart) (stuck_send i k w t))
      with (acts := acts') (evs0 := []) (s := s) (evs := evs'); try done.
    intros evs0 s1 a evs1 s1' HI1 Ha He. by eapply stuck_send_step. }
  destruct Hstuck' as ([Hwg _] & Hi' & _ & Hret & Hhand).
  split; [done|]. split; [|split; [done|split; [done|]]].
  - rewrite Hwg. pose proof (sum_list_with_lookup counted _ _ _ Hi').
    simpl in *. lia.
  - intros c evs'' s''. simpl. by rewrite Hi'.
Qed.

(** ** A pool that was stopped cannot be stopped again *)

Lemma Stop_all_closed (p : Pool) :
  closed p = false -> chan_closed (taskCh p) = true ->
  Stop p = Some (StopPanic CloseOfClosedChannel (set_closed p true)).
Proof.
  intros Hc Ht. unfold Stop. rewrite Stop_enter_running by done.
  unfold stop_steps. rewrite Nat.add_comm. simpl.
  unfold chan_close. simpl. by rewrite Ht.
Qed.

(** After a [Stop] has returned nil a second [Stop] cannot succeed: while
    the flag reads Stopped it returns the already-stopped error, and once a
    [Start] has set the flag to Running again it passes its check and
    panics at line 97, closing the intake queue a second time. *)
Theorem Stop_after_restart_panics (p0 : Pool) (acts : list action)
  (evs : list event) (s : State) :
  run acts (boot p0) = Some (evs, s) ->
  EvStopReturn ∈ evs ->
  forall acts' evs' s',
    run acts' s = Some (evs', s') ->
    (closed (pool s') = true ->
     fst <$> exec CallStop s' = Some [EvStop (Some ErrAlreadyStopped)])
    /\ (closed (pool s') = false ->
        Stop (pool s')
        = Some (StopPanic CloseOfClosedChannel (set_closed (pool s') true))
        /\ forall c,
             fst <$> run [CallStop; Step (length (goroutines s')) c] s'
             = Some [EvStop None; EvPanic CloseOfClosedChannel]).
Proof.
  intros Hrun Hret acts' evs' s' Hrun'.
  pose proof (stop_inv_run _ _ _ [] _ (stop_inv_boot p0) Hrun) as [_ Hall].
  specialize (Hall Hret).
  assert (Hall' : all_closed (pool s')).
  { eapply all_closed_le; [|done]. by eapply run_pool_le. }
  destruct Hall' as (Ht & _). split.
  - intros Hc. simpl. by rewrite Stop_enter_stopped.
  - intros Hc. split; [by apply Stop_all_closed|].
    intros c. rewrite run_two. simpl. rewrite Stop_enter_running by done.
    simpl. rewrite lookup_app_r, Nat.sub_diag by done. simpl.
    unfold chan_close. simpl. by rewrite Ht.
Qed.

(** ** The pool bounds the number of tasks in progress *)

Lemma placed_insert (n : nat) (gs : list goroutine) (j : nat)
  (g g' : goroutine) :
  gs !! j = Some g ->
  (forall w st, g' = GWorker w st -> is_worker_of w g) ->
  (forall i w st, gs !! i = Some (GWorker w st) -> i = w /\ (w < n)%nat) ->
  forall i w st, <[j := g']> gs !! i = Some (GWorker w st) ->
    i = w /\ (w < n)%nat.
Proof.
  intros Hj Hg Hpos i w st Hi. destruct (decide (i = j)) as [->|Hne].
  - rewrite list_lookup_insert_eq in Hi by by eapply lookup_lt_Some.
    simplify_eq. specialize (Hg w st eq_refl).
    destruct g as [|w0 st0| | | |]; try done. simpl in Hg. subst w0.
    by eapply Hpos.
  - rewrite list_lookup_insert_ne in Hi by done. by eapply Hpos.
Qed.

Lemma placed_app (n : nat) (gs : list goroutine) (g' : goroutine) :
  (forall w, ~ is_worker_of w g') ->
  (forall i w st, gs !! i = Some (GWorker w st) -> i = w /\ (w < n)%nat) ->
  forall i w st, (gs ++ [g']) !! i = Some (GWorker w st) ->
    i = w /\ (w < n)%nat.
Proof.
  intros Hg Hpos i w st Hi. apply lookup_app_Some in Hi as [Hi|[_ Hi]].
  - by eapply Hpos.
  - apply list_lookup_singleton_Some in Hi as [_ ->].
    exfalso. by apply (Hg w).
Qed.

Lemma placed_step (p0 : Pool) (a : action) (s s' : State) (evs : list event) :
  placed p0 s -> a <> CallStop -> exec a s = Some (evs, s') -> placed p0 s'.
Proof.
  intros (Hlen & Hnil & Hpos) Ha H. unfold placed.
  exec_cases; simpl in *; chan_facts; subst; simpl in *;
    rewrite ?(right_id_L [] (++));
    try match goal with
      | |- context [dispatch_route ?p ?k' ?x] =>
          pose proof (leave_fields (set_taskCh p c) (dispatch_route p k' x))
            as (_ & _ & -> & -> & _);
          destruct (dispatch_route_cases p k' x) as [[? Hr]|(? & Hr & _)];
          rewrite Hr in *; simpl in *
      end;
    try done;
    (split; [by rewrite ?length_insert|]);
    (split;
     [ intros Hc; try done; exfalso;
       first [ congruence
             | rewrite (Hnil Hc) in *;
               match goal with
               | Hl : [] !! _ = Some _ |- _ => by rewrite lookup_nil in Hl
               end ]
     | repeat first
         [ exact Hpos
         | eapply placed_insert;
           [ first [ eassumption
                   | rewrite list_lookup_insert_ne;
                     [eassumption | congruence] ]
           | by intros ? ? [=]; subst | ]
         | eapply placed_app; [by intros ? [] | ] ] ]).
  (* Start launches worker [w] as goroutine [w] *)
  assert (Hc : closed (pool s) = true) by by destruct (closed (pool s)).
  rewrite (Hnil Hc). simpl. intros i w st Hi.
  apply lookup_app_Some in Hi as [Hi|[_ Hi]].
  - apply list_lookup_fmap_Some in Hi as (k & Hw & Hk).
    apply lookup_seq in Hk as [-> Hlt]. simplify_eq. split; [done|lia].
  - by apply list_lookup_singleton_Some in Hi as [_ ?].
Qed.

Lemma placed_run (n size : Z) (p0 : Pool) (acts : list action)
  (evs : list event) (s : State) :
  NewPool n size = inr p0 -> Forall (fun a => a <> CallStop) acts ->
  run acts (boot p0) = Some (evs, s) -> placed p0 s.
Proof.
  intros Hp HA Hrun.
  apply (run_invariant (fun a => a <> CallStop) (fun _ => placed p0))
    with (acts := acts) (evs0 := []) (s := boot p0) (evs := evs);
    try done.
  intros evs0 s1 a evs1 s1' HI Ha He. by eapply placed_step.
Qed.

Lemma bind_bounded {A B : Type} (f : A -> list B) (n : nat) (l : list A) :
  (forall x, (length (f x) <= 1)%nat) ->
  (forall i x, l !! i = Some x -> f x <> [] -> (i < n)%nat) ->
  (length (l ≫= f) <= n)%nat.
Proof.
  intros Hone. revert n. induction l as [|x l IH]; intros n Hpos; csimpl.
  - lia.
  - rewrite length_app. destruct n as [|n].
    + destruct (f x) eqn:Hfx.
      * simpl. apply (IH 0%nat). intros i y Hi Hy.
        specialize (Hpos (S i) y Hi Hy). lia.
      * specialize (Hpos 0%nat x eq_refl). rewrite Hfx in Hpos.
        specialize (Hpos ltac:(done)). lia.
    + specialize (Hone x).
      assert (length (l ≫= f) <= n)%nat; [|lia].
      apply IH. intros i y Hi Hy. specialize (Hpos (S i) y Hi Hy). lia.
Qed.

(** The pool bounds the work in progress.  In a pool of [n] workers that
    was never stopped, the goroutine of worker [w] is the only one with
    that number, so each worker holds one task at most, and at every moment
    at most [n] tasks are in the hands of the workers, being run or
    waiting for their result to be sent. *)
Theorem at_most_one_task_per_worker (n size : Z) (p0 : Pool)
  (acts : list action) (evs : list event) (s : State) :
  NewPool n size = inr p0 ->
  Forall (fun a => a <> CallStop) acts ->
  run acts (boot p0) = Some (evs, s) ->
  (length (goroutines s ≫= working) <= Z.to_nat n)%nat
  /\ (forall i j w st st',
        goroutines s !! i = Some (GWorker w st) ->
        goroutines s !! j = Some (GWorker w st') -> i = j)
  /\ (forall i w st, goroutines s !! i = Some (GWorker w st) ->
        Z.of_nat w < n).
Proof.
  intros Hp HA Hrun.
  destruct (placed_run n size p0 acts evs s Hp HA Hrun) as (_ & _ & Hpos).
  assert (Hn : length (workers p0) = Z.to_nat n).
  { apply NewPool_inr in Hp as [_ ->]. simpl.
    by rewrite length_map, length_seq. }
  assert (Hnn : 0 <= n) by by apply NewPool_inr in Hp as [? _].
  rewrite Hn in Hpos. split; [|split].
  - apply bind_bounded.
    + intros [|w [| |]| | | |]; simpl; lia.
    + intros i g Hi Hg. destruct g as [|w st| | | |]; try done.
      destruct (Hpos i w st Hi). lia.
  - intros i j w st st' Hi Hj.
    destruct (Hpos i w st Hi) as [-> _].
    by destruct (Hpos j w st' Hj) as [-> _].
  - intros i w st Hi. destruct (Hpos i w st Hi). lia.
Qed.

(** ** Every call of [newFuture] makes a channel of its own *)

Lemma created_app evs evs' :
  created (evs ++ evs') = created evs ++ created evs'.
Proof. apply omap_app. Qed.

Lemma futures_inv_step (evs0 evs : list event) (s s' : State) (a : action) :
  futures_inv evs0 s -> exec a s = Some (evs, s') ->
  futures_inv (evs0 ++ evs) s'.
Proof.
  intros HI H. unfold futures_inv in *. rewrite created_app, HI.
  exec_cases; simpl in *; chan_facts; subst; simpl in *;
    rewrite ?length_insert, ?(right_id_L [] (++)); try done.
  - rewrite length_app. simpl. by rewrite Nat.add_comm, seq_S, fmap_app.
  - destruct (dispatch_route_cases (pool s) taskIndex x)
      as [[why ->]|(w & -> & _)]; simpl; by rewrite (right_id_L [] (++)).
Qed.

Lemma futures_inv_run (p0 : Pool) (acts : list action) (evs : list event)
  (s : State) :
  run acts (boot p0) = Some (evs, s) -> futures_inv evs s.
Proof.
  intros Hrun.
  apply (run_invariant (fun _ => True) futures_inv)
    with (acts := acts) (evs0 := []) (s := boot p0) (evs := evs);
    [|done|by apply Forall_true|done].
  intros evs0 s1 a evs1 s1' HI _ He. by eapply futures_inv_step.
Qed.


(** ** [Future.Close] *)

(** A caller receiving from a channel takes what it holds, in order. *)
Lemma drain_run (p : Pool) (gs : list goroutine) (fs : list (chan Result))
  (c : chan_ref) (k : Z) (closed : bool) (rs : list Result) :
  (c < length fs)%nat ->
  run (repeat (Receive c) (length rs))
    (mkState p gs (<[c := Chan k rs closed]> fs))
  = Some (EvDrain c <$> rs, mkState p gs (<[c := Chan k [] closed]> fs)).
Proof.
  intros Hc. induction rs as [|r rs IH]; [done|].
  assert (Hexec : exec (Receive c)
                    (mkState p gs (<[c := Chan k (r :: rs) closed]> fs))
                  = Some ([EvDrain c r],
                          mkState p gs (<[c := Chan k rs closed]> fs))).
  { simpl. rewrite list_lookup_insert_eq by done. simpl.
    by rewrite list_insert_insert_eq. }
  change (repeat (Receive c) (length (r :: rs)))
    with (Receive c :: repeat (Receive c) (length rs)).
  change (run (?a :: ?l) ?s0)
    with ('(evs, s') ← exec a s0; '(evs', s'') ← run l s';
          Some (evs ++ evs', s'')).
  rewrite Hexec. simpl. by rewrite IH.
Qed.

(** [Future.Close] keeps what the channel holds.  Closing a channel that
    is closed already panics.  After the first [Close] the callers still
    receive, in order and without waiting, every result that was in the
    channel, and from then on a receive returns at once without a result;
    but a worker that has a result to send for a task of that future
    panics at its send. *)
Theorem Close_keeps_results (s : State) (c : chan_ref) (ch : chan Result) :
  futures s !! c = Some ch ->
  (chan_closed ch = true ->
   exec (CallClose c) s = Some ([EvPanic CloseOfClosedChannel], s))
  /\ (chan_closed ch = false ->
      let closed_state :=
        mkState (pool s) (goroutines s)
          (<[c := Chan (cap ch) (buf ch) true]> (futures s)) in
      let drained_state :=
        mkState (pool s) (goroutines s)
          (<[c := Chan (cap ch) [] true]> (futures s)) in
      exec (CallClose c) s = Some ([EvClose c], closed_state)
      /\ exec (CallClose c) closed_state
         = Some ([EvPanic CloseOfClosedChannel], closed_state)
      /\ run (repeat (Receive c) (length (buf ch))) closed_state
         = Some (EvDrain c <$> buf ch, drained_state)
      /\ exec (Receive c) drained_state = Some ([], drained_state)
      /\ forall j w task v e sel,
           goroutines s !! j = Some (GWorker w (WReply task v e)) ->
           responseCh task = Some c ->
           exec (Step j sel) closed_state
           = Some ([EvPanic SendOnClosedChannel],
                   mkState (wg_done (pool s))
                     (<[j := GPanicked SendOnClosedChannel]> (goroutines s))
                     (<[c := Chan (cap ch) (buf ch) true]> (futures s)))).
Proof.
  intros Hc. pose proof (lookup_lt_Some _ _ _ Hc) as Hlt. split.
  - intros Hcl. simpl. rewrite Hc. simpl. unfold chan_close. by rewrite Hcl.
  - intros Hop closed_state drained_state.
    split; [|split; [|split; [|split]]].
    + simpl. rewrite Hc. simpl. unfold chan_close. by rewrite Hop.
    + simpl. by rewrite list_lookup_insert_eq.
    + by apply drain_run.
    + simpl. by rewrite list_lookup_insert_eq.
    + intros j w task v e sel Hj Hresp. simpl. rewrite Hj. simpl.
      unfold worker_reply. rewrite Hresp.
      by rewrite list_lookup_insert_eq.
Qed.

(** ** [AddTask] against a concurrent [Stop] *)

(** The check of line 84 does not protect the send of line 88.  In every
    state of a running pool that was never stopped, a caller that has
    passed the check of [AddTask] is overtaken by a [Stop] that closes the
    intake queue: the [Stop] passes its own check, and the caller then
    panics at its send instead of returning the closed error. *)
Theorem AddTask_overtaken_by_Stop (n size : Z) (p0 : Pool)
  (acts : list action) (evs : list event) (s : State)
  (f : Future) (index : Z) (fn : Fn) (c1 c2 : select_case) :
  NewPool n size = inr p0 ->
  Forall (fun a => a <> CallStop) acts ->
  run acts (boot p0) = Some (evs, s) ->
  closed (pool s) = false ->
  let task := mkTask index fn (ResultCh f) in
  let caller := length (goroutines s) in
  run [CallAddTask (Some f) index fn; CallStop;
       Step (S caller) c1; Step caller c2] s
  = Some ([EvSubmit task; EvStop None; EvPanic SendOnClosedChannel],
          mkState
            (set_taskCh (set_closed (pool s) true)
               (Chan (cap (taskCh (pool s))) (buf (taskCh (pool s))) true))
            (goroutines s
             ++ [GPanicked SendOnClosedChannel; GStop SCloseShutdownCh])
            (futures s)).
Proof.
  intros Hp HA Hrun Hc task caller.
  destruct (dispatch_inv_run p0 n size acts evs s Hp HA Hrun) as (Ht & _).
  assert (Hl1 : (goroutines s ++ [GAddTask task; GStop SCloseTaskCh])
                  !! S caller = Some (GStop SCloseTaskCh)).
  { rewrite lookup_app_r by (unfold caller; lia).
    by replace (S caller - length (goroutines s))%nat with 1%nat
      by (unfold caller; lia). }
  assert (Hl2 : (<[S caller := GStop SCloseShutdownCh]>
                   (goroutines s ++ [GAddTask task; GStop SCloseTaskCh]))
                  !! caller = Some (GAddTask task)).
  { rewrite list_lookup_insert_ne by lia.
    rewrite lookup_app_r by (unfold caller; lia).
    by rewrite Nat.sub_diag. }
  unfold task in *. simpl. unfold AddTask_enter. rewrite Hc. simpl.
  rewrite Stop_enter_running by done. simpl.
  rewrite <- (assoc_L (++)). simpl. rewrite Hl1. simpl.
  unfold chan_close. simpl. rewrite Ht. simpl. rewrite Hl2. simpl.
  unfold addtask_send, chan_send. simpl.
  do 3 f_equal. unfold caller.
  rewrite !insert_app_r_alt by lia.
  replace (S (length (goroutines s)) - length (goroutines s))%nat
    with 1%nat by lia.
  by rewrite Nat.sub_diag.
Qed.

(** ** [worker.stop] *)

Lemma stop_run_step (fuel : nat) (p p' : Pool) (pc pc' : stop_pc) :
  stop_step p pc = Some (p', GStop pc') ->
  stop_run (S fuel) p pc = stop_run fuel p' pc'.
Proof. intros H. simpl. by rewrite H. Qed.

Lemma stop_run_closed_worker (i d : nat) :
  forall (j fuel : nat) (q : Pool) (wi : worker),
    i = (j + d)%nat -> (d < fuel)%nat ->
    workers q !! i = Some wi -> chan_closed (shutdown wi) = true ->
    (forall k wk, (j <= k < i)%nat -> workers q !! k = Some wk ->
       chan_closed (shutdown wk) = false) ->
    exists q',
      stop_run fuel q (SCloseWorker j)
      = Some (StopPanic CloseOfClosedChannel q')
      /\ closed q' = closed q /\ taskCh q' = taskCh q
      /\ shutdownCh q' = shutdownCh q.
Proof.
  induction d as [|d IH]; intros j fuel q wi Hi Hfuel Hwi Hcl Hopen.
  - replace j with i in * by lia. destruct fuel as [|fuel]; [lia|].
    exists q. simpl. rewrite Hwi. unfold close_worker, chan_close.
    by rewrite Hcl.
  - destruct fuel as [|fuel]; [lia|].
    assert (Hj : (j < length (workers q))%nat).
    { apply lookup_lt_Some in Hwi. lia. }
    destruct (lookup_lt_is_Some_2 _ _ Hj) as [wj Hwj].
    pose proof (Hopen j wj ltac:(lia) Hwj) as Hjo.
    simpl. rewrite Hwj. unfold close_worker, chan_close. rewrite Hjo.
    unfold stop_loop.
    destruct (Nat.ltb_spec (S j) (length (workers q))) as [_|Hge];
      [|apply lookup_lt_Some in Hwi; lia].
    destruct (IH (S j) fuel
                (set_workers q
                   (<[j := mkWorker (wid wj) (requestCh wj)
                             (Chan (cap (shutdown wj)) (buf (shutdown wj))
                                true)]> (workers q)))
                wi) as (q' & Hq' & ? & ? & ?); try done; try lia.
    + simpl. rewrite list_lookup_insert_ne by lia. done.
    + intros k wk Hk Hwk. simpl in Hwk.
      rewrite list_lookup_insert_ne in Hwk by lia. apply (Hopen k); [lia|done].
    + exists q'. by rewrite Hq'.
Qed.

(** [worker.stop] closes the shutdown channel of one worker: the goroutine
    of that worker can return at its [select].  A second [worker.stop]
    panics, and so does a [Stop] of the pool: it passes its check, closes
    the intake queue and the pool's shutdown channel, and panics in its
    loop when it comes to the worker that was stopped already. *)
Theorem worker_stop_then_Stop (p : Pool) (i : nat) (w : worker) :
  closed p = false ->
  chan_closed (taskCh p) = false ->
  chan_closed (shutdownCh p) = false ->
  Forall worker_open (workers p) ->
  workers p !! i = Some w ->
  exists w',
    worker_stop w = inr w'
    /\ worker_stop w' = inl CloseOfClosedChannel
    /\ let p' := set_workers p (<[i := w']> (workers p)) in
       worker_select p' i CaseShutdown = Some ([], wg_done p', GExited)
       /\ exists p'',
            Stop p' = Some (StopPanic CloseOfClosedChannel p'')
            /\ closed p'' = true
            /\ chan_closed (taskCh p'') = true
            /\ chan_closed (shutdownCh p'') = true.
Proof.
  intros Hc Ht Hs Hopen Hw.
  pose proof (lookup_lt_Some _ _ _ Hw) as Hlt.
  destruct (proj1 (Forall_lookup _ _) Hopen i w Hw) as [Hwo _].
  exists (mkWorker (wid w) (requestCh w)
            (Chan (cap (shutdown w)) (buf (shutdown w)) true)).
  split; [unfold worker_stop, chan_close; by rewrite Hwo|].
  split; [done|]. intros p'. split.
  - unfold worker_select. simpl. by rewrite list_lookup_insert_eq.
  - set (q1 := set_taskCh (set_closed p' true)
                 (Chan (cap (taskCh p)) (buf (taskCh p)) true)).
    set (q2 := set_shutdownCh q1
                 (Chan (cap (shutdownCh p)) (buf (shutdownCh p)) true)).
    assert (H1 : stop_step (set_closed p' true) SCloseTaskCh
                 = Some (q1, GStop SCloseShutdownCh)).
    { simpl. unfold chan_close. simpl. by rewrite Ht. }
    assert (H2 : stop_step q1 SCloseShutdownCh
                 = Some (q2, GStop (SCloseWorker 0))).
    { simpl. unfold chan_close. simpl. rewrite Hs. unfold stop_loop. simpl.
      rewrite length_insert.
      by destruct (Nat.ltb_spec 0 (length (workers p))) as [_|?]; [|lia]. }
    destruct (stop_run_closed_worker i i 0 (length (workers p) + 2) q2
                (mkWorker (wid w) (requestCh w)
                   (Chan (cap (shutdown w)) (buf (shutdown w)) true)))
      as (p'' & Hp'' & Hc'' & Ht'' & Hs''); [done|lia| |done| |].
    + simpl. by apply list_lookup_insert_eq.
    + intros k wk Hk Hwk. simpl in Hwk.
      rewrite list_lookup_insert_ne in Hwk by lia.
      by destruct (proj1 (Forall_lookup _ _) Hopen k wk Hwk).
    + exists p''. rewrite Hc'', Ht'', Hs''. split; [|done].
      unfold Stop. rewrite Stop_enter_running by done.
      unfold stop_steps. simpl length. rewrite length_insert.
      replace (length (workers p) + 4)%nat
        with (S (S (length (workers p) + 2))) by lia.
      rewrite (stop_run_step _ _ _ _ _ H1), (stop_run_step _ _ _ _ _ H2).
      exact Hp''.
Qed.

(** ** [Stop] waits for the computations *)

Lemma in_call_step (j w : nat) (t : Task) (evs0 evs : list event)
  (s s' : State) (a : action) :
  fn t = Diverges -> in_call j w t evs0 s -> exec a s = Some (evs, s') ->
  in_call j w t (evs0 ++ evs) s'.
Proof.
  intros Hfn (Hwg & Hj & Hret) H.
  assert (Hpos : 1 <= wg (pool s)).
  { destruct Hwg as [-> _].
    pose proof (sum_list_with_lookup counted _ _ _ Hj). simpl in *. lia. }
  split; [by eapply wg_inv_step|].
  split; [|intros [Hin|Hin]%elem_of_app; [done|];
           destruct (exec_StopReturn a s s' evs H Hin) as [Hz _]; lia].
  clear Hret Hwg Hpos.
  exec_cases; simpl in *; chan_facts; subst; simpl in *;
    repeat match goal with
      | Hi : goroutines ?s !! ?i = Some ?g |- _ =>
          lazymatch g with
          | GWorker w (WCall t) => fail
          | _ => assert (i <> j) by (intros ->; congruence); revert Hi
          end
      end; intros;
    rewrite ?list_lookup_insert_ne by done;
    first [ done | by apply lookup_app_l_Some | idtac ].
Qed.

(** [Stop] waits for the computations, without a time limit.  While a
    worker is inside the call of a task's computation, the wait group is
    above zero and a caller inside [Stop] cannot leave [wg.Wait].  If the
    computation never returns, this lasts forever, whatever else happens:
    the worker stays in the call and no [Stop] ever returns. *)
Theorem Stop_waits_for_running_task (n size : Z) (p0 : Pool)
  (acts : list action) (evs : list event) (s : State)
  (j w : nat) (t : Task) :
  NewPool n size = inr p0 ->
  run acts (boot p0) = Some (evs, s) ->
  goroutines s !! j = Some (GWorker w (WCall t)) ->
  1 <= wg (pool s)
  /\ (forall i c, goroutines s !! i = Some (GStop SWait) ->
        exec (Step i c) s = None)
  /\ (fn t = Diverges ->
      forall acts' evs' s',
        run acts' s = Some (evs', s') ->
        goroutines s' !! j = Some (GWorker w (WCall t))
        /\ 1 <= wg (pool s')
        /\ (EvStopReturn ∉ evs')).
Proof.
  intros Hp Hrun Hj.
  pose proof (wg_inv_run n size p0 acts evs s Hp Hrun) as Hwg.
  assert (Hpos : forall s1, wg_inv s1 ->
                   goroutines s1 !! j = Some (GWorker w (WCall t)) ->
                   1 <= wg (pool s1)).
  { intros s1 [-> _] Hj1.
    pose proof (sum_list_with_lookup counted _ _ _ Hj1). simpl in *. lia. }
  split; [by apply Hpos|]. split.
  - intros i c Hi. simpl. rewrite Hi. simpl.
    specialize (Hpos s Hwg Hj).
    by destruct (Z.eqb_spec (wg (pool s)) 0); [lia|].
  - intros Hfn acts' evs' s' Hrun'.
    assert (Hcall : in_call j w t evs' s').
    { apply (run_invariant (fun _ => True) (in_call j w t))
        with (acts := acts') (evs0 := []) (s := s) (evs := evs');
        [| |by apply Forall_true|done].
      - intros evs0 s1 a evs1 s1' HI _ He. by eapply in_call_step.
      - split; [done|]. split; [done|]. by intros ?%elem_of_nil. }
    destruct Hcall as (Hwg' & Hj' & Hret). split; [done|].
    split; [by apply Hpos|done].
Qed.

(** ** A running pool keeps its goroutines *)


(** ** Tasks reach the workers in the order they were accepted *)

Lemma dispatch_loop_prefix (p : Pool) (tasks : list Task) (k : Z) :
  snd <$> (dispatch_loop p k tasks).1 `prefix_of` tasks.
Proof.
  revert k. induction tasks as [|t tasks IH]; intros k; simpl.
  - done.
  - destruct (dispatch_route_cases p k t) as [[why ->]|(w & -> & _)]; simpl.
    + apply prefix_nil.
    + specialize (IH (wrap (k + 1))).
      destruct (dispatch_loop p (wrap (k + 1)) tasks) as [hs g]. simpl in *.
      by apply prefix_cons.
Qed.

(** No task overtakes another on its way to the workers.  In a pool that
    was never stopped, the tasks handed to the workers so far are, in the
    order of the hand-offs, the first of the tasks whose [AddTask] returned
    nil, in the order in which they were accepted. *)
Theorem handoffs_in_enqueue_order (n size : Z) (p0 : Pool)
  (acts : list action) (evs : list event) (s : State) :
  NewPool n size = inr p0 ->
  Forall (fun a => a <> CallStop) acts ->
  run acts (boot p0) = Some (evs, s) ->
  snd <$> handoffs evs `prefix_of` enqueued evs
  /\ (forall k w t, handoffs evs !! k = Some (w, t) ->
        enqueued evs !! k = Some t)
  /\ (length (handoffs evs) <= length (dequeued evs)
      <= length (enqueued evs))%nat.
Proof.
  intros Hp HA Hrun.
  pose proof (dispatch_inv_run p0 n size acts evs s Hp HA Hrun) as Hinv.
  apply dispatch_inv_handoffs in Hinv as (ts & Hhs & Hts).
  destruct (queue_inv_run n size p0 acts evs s Hp Hrun) as (Hq & _).
  assert (Hpre : snd <$> handoffs evs `prefix_of` enqueued evs).
  { rewrite <- Hhs, Hq. etrans; [apply dispatch_loop_prefix|].
    etrans; [|apply prefix_app_r; reflexivity].
    destruct Hts as [->|(t & -> & _)]; [done|]. by apply prefix_app_r. }
  split; [done|]. split.
  - intros k w t Hk. destruct Hpre as [rest ->].
    apply lookup_app_l_Some. by rewrite list_lookup_fmap, Hk.
  - split.
    + apply prefix_length in Hpre. rewrite length_fmap in Hpre.
      pose proof (dispatch_loop_prefix p0 ts 0) as Hl.
      apply prefix_length in Hl. rewrite length_fmap, Hhs in Hl.
      destruct Hts as [->|(t & -> & _)]; [done|].
      rewrite length_app. lia.
    + rewrite Hq, length_app. lia.
Qed.

(** ** [Stop] returns on an idle pool *)

Lemma idle_goroutine_same (p p' : Pool) (g : goroutine) :
  length (workers p') = length (workers p) ->
  idle_goroutine p g -> idle_goroutine p' g.
Proof. intros Hl. destruct g as [[]|w []| | | |]; simpl; by rewrite ?Hl. Qed.

Lemma no_panic_snoc (evs evs' : list event) :
  no_panic evs -> no_panic evs' -> no_panic (evs ++ evs').
Proof. intros H H' why [Hin|Hin]%elem_of_app; [by apply (H why)|by apply (H' why)]. Qed.

Lemma stopping_other (m : nat) (evs0 : list event) (s : State) (i : nat)
  (g : goroutine) (p' : Pool) (fs' : list (chan Result)) :
  stopping m evs0 s -> goroutines s !! i = Some g -> i <> m ->
  taskCh p' = taskCh (pool s) -> shutdownCh p' = shutdownCh (pool s) ->
  workers p' = workers (pool s) ->
  stopping m (evs0 ++ [])
    (mkState p' (<[i := GExited]> (goroutines s)) fs').
Proof.
  intros (Hb & Hnp & Hidle & gm & Hm & Hpend) Hi Hne Ht Hs Hw.
  rewrite (right_id_L [] (++)). unfold stopping. simpl.
  split; [by rewrite Ht|]. split; [done|]. split.
  - intros k g' Hk Hkm. destruct (decide (k = i)) as [->|Hki].
    + rewrite list_lookup_insert_eq in Hk by by eapply lookup_lt_Some.
      by simplify_eq.
    + rewrite list_lookup_insert_ne in Hk by done.
      eapply idle_goroutine_same; [|by eapply Hidle]. by rewrite Hw.
  - exists gm. rewrite list_lookup_insert_ne by done. split; [done|].
    destruct gm as [| | |[]| |]; simpl in *; by rewrite ?Ht, ?Hs, ?Hw.
Qed.

Lemma stopping_stopper (m : nat) (evs0 evs : list event) (s : State)
  (p' : Pool) (g' : goroutine) (fs' : list (chan Result)) :
  stopping m evs0 s -> buf (taskCh p') = [] ->
  length (workers p') = length (workers (pool s)) ->
  no_panic evs -> stop_pending p' (evs0 ++ evs) g' ->
  stopping m (evs0 ++ evs)
    (mkState p' (<[m := g']> (goroutines s)) fs').
Proof.
  intros (Hb & Hnp & Hidle & gm & Hm & Hpend) Hb' Hl Hnp' Hpend'.
  unfold stopping. simpl. split; [done|].
  split; [by apply no_panic_snoc|]. split.
  - intros k g Hk Hkm. rewrite list_lookup_insert_ne in Hk by done.
    eapply idle_goroutine_same; [|by eapply Hidle]. done.
  - exists g'. split; [|done].
    apply list_lookup_insert_eq. by eapply lookup_lt_Some.
Qed.

Lemma stopping_step (m : nat) (evs0 evs : list event) (s s' : State)
  (a : action) :
  stopping m evs0 s -> internal a -> exec a s = Some (evs, s') ->
  stopping m (evs0 ++ evs) s'.
Proof.
  intros Hstop Hint H. pose proof Hstop as (Hb & Hnp & Hidle & gm & Hm & Hpend).
  destruct a; try done; exec_cases; simpl in *; chan_facts; subst;
    simpl in *;
    repeat match goal with
      | Hi : goroutines ?s !! ?i = Some ?g |- _ =>
          lazymatch goal with
          | _ : i = m |- _ => fail
          | _ : i <> m |- _ => fail
          | _ => destruct (decide (i = m)) as [Heq|?];
                 [ pose proof Hi as Hi'; rewrite Heq in Hi';
                   rewrite Hi' in Hm; injection Hm as <-; simpl in Hpend
                 | pose proof (Hidle _ _ Hi ltac:(done)) ]
          end
      end;
    simpl in *; try done;
    repeat match goal with H : _ /\ _ |- _ => destruct H end;
    try congruence;
    try (eapply stopping_other; [done|eassumption|done|done|done|done]);
    try match goal with
      | Hw : workers _ !! ?j = Some ?w,
        Hc : chan_closed (shutdown ?w) = true,
        Ho : forall k w', (?j <= k)%nat -> _ |- _ =>
          by rewrite (Ho j w (le_n _) Hw) in Hc
      end;
    rewrite Heq;
    (apply stopping_stopper;
     [ done | done | by simpl; rewrite ?length_insert
     | intros why Hin;
       repeat (apply elem_of_cons in Hin as [?|Hin]; [done|]);
       by apply elem_of_nil in Hin
     | simpl ]);
    unfold stop_loop; simpl; rewrite ?length_insert;
    repeat case_match; simpl;
    repeat match goal with
      | H : (_ <? _)%nat = true |- _ => apply Nat.ltb_lt in H
      | H : (_ <? _)%nat = false |- _ => apply Nat.ltb_ge in H
      end;
    simplify_eq; try done;
    first
      [ split; [|done]; apply elem_of_app; right; by left
      | split; [done|]; split; [lia|]; intros k wk Hk Hwk;
        first
          [ match goal with
            | HF : Forall _ (workers _) |- _ =>
                exact (proj1 (Forall_lookup _ _) HF k wk Hwk)
            end
          | rewrite list_lookup_insert_ne in Hwk by lia;
            match goal with
            | Ho : forall k w', (_ <= k)%nat -> _ |- _ =>
                apply (Ho k wk); [lia|done]
            end ] ].
Qed.

Lemma candidates_internal (s : State) (a : action) :
  a ∈ candidates s -> internal a.
Proof.
  unfold candidates. rewrite elem_of_app, !list_elem_of_bind.
  intros [(i & Ha & _)|(i & (j & Ha & _)%list_elem_of_bind & _)].
  - repeat (apply elem_of_cons in Ha as [->|Ha]; [done|]).
    by apply elem_of_nil in Ha.
  - by apply list_elem_of_singleton in Ha as ->.
Qed.

Lemma exec_candidate (a : action) (s s' : State) (evs : list event) :
  internal a -> exec a s = Some (evs, s') -> a ∈ candidates s.
Proof.
  intros Hint H. unfold candidates. rewrite elem_of_app, !list_elem_of_bind.
  destruct a as [| | | | | | |i c|i j]; try done; simpl in H.
  - left. exists i.
    split; [destruct c; repeat first [by left | right]|].
    destruct (goroutines s !! i) eqn:Hi; [|done].
    apply elem_of_seq. apply lookup_lt_Some in Hi. lia.
  - right. exists i.
    destruct (goroutines s !! i) eqn:Hi; [|done].
    destruct (goroutines s !! j) eqn:Hj; [|by repeat case_match].
    apply lookup_lt_Some in Hi, Hj. split.
    + apply list_elem_of_bind. exists j. split; [by left|].
      apply elem_of_seq. lia.
    + apply elem_of_seq. lia.
Qed.

Lemma quiescent_or_step (s : State) :
  quiescent s
  \/ exists a evs s', internal a /\ exec a s = Some (evs, s').
Proof.
  destruct (decide (Exists (fun a => is_Some (exec a s)) (candidates s)))
    as [Hex|Hno].
  - right. apply Exists_exists in Hex as (a & Ha & [[evs s'] He]).
    exists a, evs, s'. split; [by eapply candidates_internal|done].
  - left. intros a Hint. destruct (exec a s) as [[evs s']|] eqn:He; [|done].
    exfalso. apply Hno, Exists_exists. exists a.
    split; [by eapply exec_candidate|]. by rewrite He.
Qed.

(** Left to themselves the goroutines come to rest. *)
Lemma reaches_quiescence (s : State) :
  exists acts evs s',
    Forall internal acts /\ run acts s = Some (evs, s') /\ quiescent s'.
Proof.
  remember (measure s) as k eqn:Hk. revert s Hk.
  induction k as [k IH] using lt_wf_ind. intros s ->.
  destruct (quiescent_or_step s) as [Hq|(a & evs & s1 & Hint & He)].
  - exists [], [], s. by repeat split.
  - pose proof (measure_step a s s1 evs He Hint) as Hlt.
    destruct (IH (measure s1) Hlt s1 eq_refl)
      as (acts & evs' & s' & HA & Hrun & Hq).
    exists (a :: acts), (evs ++ evs'), s'.
    split; [by constructor|]. split; [|done].
    simpl. rewrite He. simpl. by rewrite Hrun.
Qed.

Lemma sum_list_with_pos {A : Type} (f : A -> nat) (l : list A) :
  sum_list_with f l <> 0%nat -> exists i x, l !! i = Some x /\ f x <> 0%nat.
Proof.
  induction l as [|y l IH]; simpl; [done|]. intros Hsum.
  destruct (decide (f y = 0%nat)) as [Hy|Hy].
  - destruct IH as (i & x & Hi & Hx); [lia|]. by exists (S i), x.
  - by exists 0%nat, y.
Qed.

Lemma idle_goroutine_leaves (s : State) (i : nat) (g : goroutine) :
  goroutines s !! i = Some g -> idle_goroutine (pool s) g ->
  chan_closed (shutdownCh (pool s)) = true ->
  exec (Step i CaseOwnerShutdown) s = None -> g = GExited.
Proof.
  intros Hi Hidle Hs He. simpl in He. rewrite Hi in He. simpl in He.
  destruct g as [[k|]|w [| |]| | | |]; try done; simpl in *.
  - by rewrite Hs in He.
  - unfold worker_select in He.
    destruct (lookup_lt_is_Some_2 _ _ Hidle) as [wk Hwk].
    by rewrite Hwk, Hs in He.
Qed.

Lemma stopping_quiescent (m : nat) (evs : list event) (s : State) :
  wg_inv s -> stopping m evs s -> quiescent s ->
  EvStopReturn ∈ evs /\ Forall (fun g => g = GExited) (goroutines s).
Proof.
  intros [Hwg _] (Hb & Hnp & Hidle & gm & Hm & Hpend) Hq.
  pose proof (Hq (Step m CaseTask) I) as Hstep. simpl in Hstep.
  rewrite Hm in Hstep. simpl in Hstep.
  assert (Hleave : chan_closed (shutdownCh (pool s)) = true ->
                   forall i g, goroutines s !! i = Some g -> i <> m ->
                     g = GExited).
  { intros Hs i g Hi Hne. eapply idle_goroutine_leaves; eauto.
    by apply (Hq (Step i CaseOwnerShutdown)). }
  destruct gm as [| | |[| |j|]| |]; simpl in *; try done.
  - by repeat case_match.
  - by repeat case_match.
  - by repeat case_match.
  - exfalso. destruct (Z.eqb_spec (wg (pool s)) 0) as [|Hnz]; [done|].
    destruct (sum_list_with_pos counted (goroutines s)) as (i & g & Hi & Hg);
      [lia|].
    assert (Hne : i <> m) by (intros ->; by simplify_eq).
    rewrite (Hleave Hpend i g Hi Hne) in Hg. done.
  - destruct Hpend as [Hret Hs]. split; [done|].
    apply Forall_lookup. intros i g Hi.
    destruct (decide (i = m)) as [->|Hne]; [by simplify_eq|].
    by eapply Hleave.
Qed.


(** ** Collecting the results by index *)

Lemma filter_submseteq_mono {A : Type} (P : A -> Prop)
  `{!forall x, Decision (P x)} (l1 l2 : list A) :
  l1 ⊆+ l2 -> filter P l1 ⊆+ filter P l2.
Proof.
  induction 1 as [|x l1 l2 _ IH|x y l|x l1 l2 _ IH|l1 l2 l3 _ IH1 _ IH2].
  - done.
  - destruct (decide (P x)).
    + rewrite !filter_cons_True by done. by constructor.
    + by rewrite !filter_cons_False by done.
  - destruct (decide (P x)), (decide (P y));
      rewrite ?filter_cons_True, ?filter_cons_False by done;
      rewrite ?filter_cons_True, ?filter_cons_False by done;
      first [by constructor | done].
  - destruct (decide (P x)).
    + rewrite filter_cons_True by done. by constructor.
    + by rewrite filter_cons_False by done.
  - by etrans.
Qed.

Lemma collect_snoc (rs : list Result) (r : Result) :
  collect (rs ++ [r]) = <[rindex r := r]> (collect rs).
Proof. unfold collect. by rewrite foldl_snoc. Qed.

Lemma collect_lookup (rs : list Result) (r : Result) :
  NoDup (rindex <$> rs) -> r ∈ rs -> collect rs !! rindex r = Some r.
Proof.
  induction rs as [|r' rs IH] using rev_ind; intros Hnd Hin.
  - by apply elem_of_nil in Hin.
  - rewrite collect_snoc. rewrite fmap_app in Hnd.
    apply NoDup_app in Hnd as (Hnd & Hdisj & _).
    apply elem_of_app in Hin as [Hin|Hin%list_elem_of_singleton].
    + rewrite lookup_insert_ne; [by apply IH|].
      intros Heq. apply (Hdisj (rindex r)).
      * apply list_elem_of_fmap. by exists r.
      * rewrite <- Heq. by left.
    + subst r'. by rewrite lookup_insert_eq.
Qed.

Lemma collect_lookup_None (rs : list Result) (k : Z) :
  k ∉ rindex <$> rs -> collect rs !! k = None.
Proof.
  induction rs as [|r rs IH] using rev_ind; intros Hk.
  - done.
  - rewrite collect_snoc. rewrite fmap_app, elem_of_app in Hk.
    rewrite lookup_insert_ne.
    + apply IH. tauto.
    + intros <-. apply Hk. right. by left.
Qed.

(** Collecting the results by index puts them back in the order of
    submission, as pool_test.go does.  If nothing has panicked, the tasks
    submitted on a future have pairwise distinct indices and the caller has
    received as many results from the future as it submitted tasks on it,
    then the future is empty, the results received are the results of
    those tasks, each once, in the order of completion; and the map built
    from them holds under each task's index the [Result] with that index
    and what the task's computation returned, and nothing under any other
    index. *)
Theorem collected_by_index (n size : Z) (p0 : Pool) (acts : list action)
  (evs : list event) (s : State) (c : chan_ref) :
  NewPool n size = inr p0 ->
  run acts (boot p0) = Some (evs, s) ->
  no_panic evs ->
  NoDup (index <$> batch c evs) ->
  length (drained c evs) = length (batch c evs) ->
  Some <$> drained c evs ≡ₚ task_result <$> batch c evs
  /\ pending (futures s) c = []
  /\ (forall t, t ∈ batch c evs ->
        exists v e,
          fn t = Returns v e
          /\ collect (drained c evs) !! index t
             = Some (mkResult (index t) v e))
  /\ (forall k, k ∉ index <$> batch c evs ->
        collect (drained c evs) !! k = None).
Proof.
  intros Hp Hrun Hnp Hnd Hlen.
  assert (Hb : buf (taskCh p0) = []) by by apply NewPool_inr in Hp as [_ ->].
  pose proof (accounted_run _ _ _ [] _ (accounted_boot _ Hb) Hrun Hnp)
    as [K1 K2].
  pose proof (result_inv_run _ _ _ [] _ (result_inv_boot _ Hb) Hrun)
    as (_ & _ & Hpub & _).
  destruct (sinks_inv_run p0 acts evs s Hrun) as [Hfifo _].
  specialize (Hfifo c). simpl in *.
  assert (Hsub : filter (fun t => responseCh t = Some c) (published evs)
                 ⊆+ batch c evs).
  { apply filter_submseteq_mono. rewrite K1, K2.
    do 4 apply submseteq_inserts_l. by apply submseteq_inserts_r. }
  assert (Hres : Some <$> results_on c evs
                 = task_result <$> filter (fun t => responseCh t = Some c)
                                     (published evs)).
  { apply results_on_published. intros t c' r Hin.
    eapply result_of_task_result. by apply Hpub. }
  assert (Hidx : rindex <$> results_on c evs
                 = index <$> filter (fun t => responseCh t = Some c)
                               (published evs)).
  { apply indices_on_published. intros t c' r Hin.
    destruct (Hpub t c' r Hin) as (_ & ? & ? & _). done. }
  assert (Hle : (length (results_on c evs) <= length (batch c evs))%nat).
  { rewrite <- (length_fmap Some), Hres, length_fmap.
    by apply submseteq_length. }
  assert (Hempty : pending (futures s) c = []).
  { apply nil_length_inv. rewrite Hfifo, length_app in Hle. lia. }
  rewrite Hempty, (right_id_L [] (++)) in Hfifo. rewrite <- Hfifo.
  assert (Hperm : Some <$> results_on c evs ≡ₚ task_result <$> batch c evs).
  { apply submseteq_length_Permutation.
    - rewrite Hres. by apply fmap_submseteq.
    - rewrite !length_fmap, Hfifo. lia. }
  assert (Hnd' : NoDup (rindex <$> results_on c evs)).
  { rewrite Hidx.
    destruct (submseteq_Permutation _ _ (fmap_submseteq index _ _ Hsub))
      as [rest Hrest].
    rewrite Hrest in Hnd. by apply NoDup_app in Hnd as (? & _). }
  split; [done|]. split; [done|]. split.
  - intros t Ht.
    assert (Hin : task_result t ∈ Some <$> results_on c evs).
    { rewrite Hperm. apply list_elem_of_fmap. by exists t. }
    apply list_elem_of_fmap in Hin as (r & Hr & Hin).
    unfold task_result in Hr. destruct (fn t) as [v e| |]; try done.
    exists v, e. split; [done|]. simplify_eq.
    by apply (collect_lookup _ _ Hnd') in Hin.
  - intros k Hk. apply collect_lookup_None. intros Hin. apply Hk.
    rewrite Hidx in Hin.
    by apply (elem_of_submseteq _ _ _ Hin (fmap_submseteq index _ _ Hsub)).
Qed.

End RoutinePool.

(** * Concrete runs *)

(** A pool of one worker with an intake queue of capacity one, and a task
    whose computation returns a value together with an error. *)
Definition pool1 : @Pool string string :=
  mkPool 1 (Chan 1 [] false) [new_worker 0] true 0 make_signal.

Definition future0 : Future := mkFuture (Some 0%nat).

Definition partial : option string := Some "partial"%string.
Definition boom : option string := Some "boom"%string.

Definition failing : @Fn string string := Returns partial boom.

Definition task0 : @Task string string := mkTask 7 failing (Some 0%nat).

Definition result0 : @Result string string := mkResult 7 partial boom.

(** Start, make a future, submit [task0], let it travel to the worker and
    back to the future. *)
Definition submit_schedule : list (@action string string) :=
  [CallStart; CallNewFuture 1; CallAddTask (Some future0) 7 failing;
   Step 2 CaseTask; Step 1 CaseTask; Handoff 1 0;
   Step 0 CaseTask; Step 0 CaseTask].

Definition submit_events : list (@event string string) :=
  [EvStart None; EvNewFuture future0; EvSubmit task0; EvEnqueue task0;
   EvDequeue task0; EvHandoff 0 task0; EvPublish task0 0%nat result0].

Definition running1 : @Pool string string :=
  mkPool 1 (Chan 1 [] false) [new_worker 0] false 2 make_signal.

(** The worker holds [task0] and is about to call its computation. *)
Definition handed_state : @State string string :=
  mkState running1 [GWorker 0 (WCall task0); GDispatch (DSelect 1); GExited]
    [Chan 1 [] false].

(** The worker and the dispatcher are back at their [select]; the result
    waits in the future. *)
Definition submit_state : @State string string :=
  mkState running1 [GWorker 0 WSelect; GDispatch (DSelect 1); GExited]
    [Chan 1 [result0] false].

(** Receive the result, then stop the pool: the caller closes the channels
    and waits, the worker and the dispatcher leave, [Stop] returns. *)
Definition stop_schedule : list (@action string string) :=
  submit_schedule
  ++ [Receive 0%nat; CallStop; Step 3 CaseTask; Step 3 CaseTask;
      Step 3 CaseTask; Step 0 CaseShutdown; Step 1 CaseOwnerShutdown;
      Step 3 CaseTask].

Definition stopped_events : list (@event string string) :=
  submit_events ++ [EvDrain 0%nat result0; EvStop None; EvStopReturn].

Definition stopped1 : @Pool string string :=
  mkPool 1 (Chan 1 [] true)
    [mkWorker 0 (Chan 0 [] false) (Chan 0 [] true)] true 0 (Chan 0 [] true).

Definition stopped_state : @State string string :=
  mkState stopped1 [GExited; GExited; GExited; GExited] [Chan 1 [] false].

(** Then start the pool again. *)
Definition restart_schedule : list (@action string string) :=
  stop_schedule ++ [CallStart].

Definition restart_events : list (@event string string) :=
  stopped_events ++ [EvStart None].

Definition restarted_state : @State string string :=
  mkState (set_wg (set_closed stopped1 false) 2)
    [GExited; GExited; GExited; GExited; GWorker 0 WSelect;
     GDispatch (DSelect 0)]
    [Chan 1 [] false].

(** Submit [task0] and stop the pool before the dispatcher has taken it:
    the worker and the dispatcher leave, the task stays in the queue. *)
Definition abandon_schedule : list (@action string string) :=
  [CallStart; CallNewFuture 1; CallAddTask (Some future0) 7 failing;
   Step 2 CaseTask; CallStop; Step 3 CaseTask; Step 3 CaseTask;
   Step 3 CaseTask; Step 0 CaseShutdown; Step 1 CaseOwnerShutdown].

Definition abandon_events : list (@event string string) :=
  [EvStart None; EvNewFuture future0; EvSubmit task0; EvEnqueue task0;
   EvStop None].

Definition abandoned1 : @Pool string string :=
  mkPool 1 (Chan 1 [task0] true)
    [mkWorker 0 (Chan 0 [] false) (Chan 0 [] true)] true 0 (Chan 0 [] true).

(** The caller of [Stop] is about to leave [wg.Wait]. *)
Definition abandon_state : @State string string :=
  mkState abandoned1 [GExited; GExited; GExited; GStop SWait]
    [Chan 1 [] false].

Definition abandoned_state : @State string string :=
  mkState abandoned1 [GExited; GExited; GExited; GExited] [Chan 1 [] false].

(** Submit [task0], let the dispatcher take it, and stop the pool before
    the worker has received it: the worker leaves, the dispatcher waits at
    its send. *)
Definition stuck_schedule : list (@action string string) :=
  [CallStart; CallNewFuture 1; CallAddTask (Some future0) 7 failing;
   Step 2 CaseTask; Step 1 CaseTask; CallStop; Step 3 CaseTask;
   Step 3 CaseTask; Step 3 CaseTask; Step 0 CaseShutdown].

Definition stuck_events : list (@event string string) :=
  [EvStart None; EvNewFuture future0; EvSubmit task0; EvEnqueue task0;
   EvDequeue task0; EvStop None].

Definition stuck_state : @State string string :=
  mkState (set_wg stopped1 1)
    [GExited; GDispatch (DSend 0 0 task0); GExited; GStop SWait]
    [Chan 1 [] false].

(** A task whose computation never returns, handed to the worker. *)
Definition forever : @Task string string := mkTask 3 Diverges (Some 0%nat).

Definition hang_schedule : list (@action string string) :=
  [CallStart; CallNewFuture 1; CallAddTask (Some future0) 3 Diverges;
   Step 2 CaseTask; Step 1 CaseTask; Handoff 1 0].

Definition hang_events : list (@event string string) :=
  [EvStart None; EvNewFuture future0; EvSubmit forever; EvEnqueue forever;
   EvDequeue forever; EvHandoff 0 forever].

Definition hang_state : @State string string :=
  mkState running1 [GWorker 0 (WCall forever); GDispatch (DSelect 1); GExited]
    [Chan 1 [] false].

(** Then [Stop] is called, closes the channels and waits; the dispatcher
    leaves. *)
Definition hang_stop_schedule : list (@action string string) :=
  [CallStop; Step 3 CaseTask; Step 3 CaseTask; Step 3 CaseTask;
   Step 1 CaseOwnerShutdown].

(** The caller of pool_test.go has received the result of [task0]. *)
Definition received_schedule : list (@action string string) :=
  submit_schedule ++ [Receive 0%nat].

Definition received_events : list (@event string string) :=
  submit_events ++ [EvDrain 0%nat result0].

Definition received_state : @State string string :=
  mkState running1 [GWorker 0 WSelect; GDispatch (DSelect 1); GExited]
    [Chan 1 [] false].

(** A pool of three workers, and the number [2^63] of tasks that takes the
    dispatcher's counter past the largest [int]. *)
Definition pool3 : @Pool string string :=
  mkPool 3 (Chan 1 [] false) [new_worker 0; new_worker 1; new_worker 2]
    true 0 make_signal.

Abbreviation overflow_count := (Z.to_nat (int_max + 1)).

Ltac in_list :=
  repeat first [ apply list_elem_of_here | apply list_elem_of_further ].

Example pool1_is_NewPool : NewPool 1 1 = inr pool1.
Proof. reflexivity. Qed.

Example handed_schedule_run :
  run (take 6 submit_schedule) (boot pool1)
  = Some (take 6 submit_events, handed_state).
Proof. vm_compute. reflexivity. Qed.

Example submit_schedule_run :
  run submit_schedule (boot pool1) = Some (submit_events, submit_state).
Proof. vm_compute. reflexivity. Qed.

Example stop_schedule_run :
  run stop_schedule (boot pool1) = Some (stopped_events, stopped_state).
Proof. vm_compute. reflexivity. Qed.

Example restart_schedule_run :
  run restart_schedule (boot pool1) = Some (restart_events, restarted_state).
Proof. vm_compute. reflexivity. Qed.

Example submit_schedule_no_stop :
  Forall (fun a : @action string string => a <> CallStop) submit_schedule.
Proof. repeat constructor; discriminate. Qed.

Example submit_events_no_panic : no_panic submit_events.
Proof.
  intros why Hin. unfold submit_events in Hin.
  repeat (apply elem_of_cons in Hin as [Heq|Hin]; [discriminate|]).
  by apply elem_of_nil in Hin.
Qed.

(** In [submit_state] no goroutine can move. *)
Example submit_state_quiescent : quiescent submit_state.
Proof.
  intros [| | | | | | |i c|i j] Hint; try done.
  all: destruct i as [|[|[|i]]]; try reflexivity.
  all: try (destruct c; reflexivity).
  all: destruct j as [|[|[|j]]]; reflexivity.
Qed.

(** ** C1 *)

Lemma result_index_is_task_index_witness :
  NewPool 1 1 = inr pool1
  /\ run submit_schedule (boot pool1) = Some (submit_events, submit_state)
  /\ EvPublish task0 0%nat result0 ∈ submit_events
  /\ (rindex result0 = index task0 /\ responseCh task0 = Some 0%nat
      /\ EvSubmit task0 ∈ submit_events
      /\ fn task0 = Returns (value result0) (err result0)).
Proof.
  split; [reflexivity|]. split; [exact submit_schedule_run|].
  assert (Hin : EvPublish task0 0%nat result0 ∈ submit_events)
    by (unfold submit_events; in_list).
  split; [exact Hin|].
  exact (proj1 (result_index_is_task_index 1 1 pool1 submit_schedule
                  submit_events submit_state eq_refl submit_schedule_run)
           task0 0%nat result0 Hin).
Defined.

(** ** C2 *)


(** ** C3 *)

Lemma AddTask_checks_flag_witness :
  closed pool1 = true
  /\ AddTask pool1 (Some future0) 7 failing = AddTaskError ErrClosed pool1.
Proof.
  split; [reflexivity|].
  apply (proj1 (AddTask_checks_flag pool1 (Some future0) 7 failing)).
  reflexivity.
Defined.

(** The claim as written fails after a restart: the [Stop] returned nil,
    the flag reads Running again, and the [AddTask] that follows returns no
    error and enqueues nothing: it panics at its send. *)
Lemma AddTask_after_restart_panics :
  NewPool 1 1 = inr pool1
  /\ run restart_schedule (boot pool1) = Some (restart_events, restarted_state)
  /\ EvStopReturn ∈ restart_events
  /\ closed (pool restarted_state) = false
  /\ AddTask (pool restarted_state) (Some future0) 8 failing
     = AddTaskPanic SendOnClosedChannel (pool restarted_state)
  /\ fst <$> run [CallAddTask (Some future0) 8 failing; Step 6 CaseTask]
               restarted_state
     = Some [EvSubmit (mkTask 8 failing (Some 0%nat));
             EvPanic SendOnClosedChannel].
Proof.
  split; [reflexivity|]. split; [exact restart_schedule_run|].
  split; [vm_compute; in_list|]. repeat split; vm_compute; reflexivity.
Defined.

(** ** C4 *)

Lemma Start_Stop_guarded_witness :
  closed pool1 = true
  /\ Start_error pool1 = None
  /\ Start_error (Start_pool pool1) = Some ErrAlreadyRunning.
Proof.
  split; [reflexivity|].
  destruct (Start_Stop_guarded pool1) as (_ & Hnil & _ & _ & _ & Hagain & _).
  split; [apply Hnil; reflexivity | exact Hagain].
Defined.

(** ** C5 *)



(** ** C6 *)

Lemma task_error_verbatim_witness :
  NewPool 1 1 = inr pool1
  /\ run submit_schedule (boot pool1) = Some (submit_events, submit_state)
  /\ EvPublish task0 0%nat result0 ∈ submit_events
  /\ fn task0 = Returns partial (Some "boom"%string)
  /\ (err result0 = Some "boom"%string /\ value result0 = partial
      /\ rindex result0 = index task0).
Proof.
  split; [reflexivity|]. split; [exact submit_schedule_run|].
  assert (Hin : EvPublish task0 0%nat result0 ∈ submit_events)
    by (unfold submit_events; in_list).
  split; [exact Hin|]. split; [reflexivity|].
  exact (task_error_verbatim 1 1 pool1 submit_schedule submit_events
           submit_state task0 0%nat result0 partial "boom"%string
           eq_refl submit_schedule_run Hin eq_refl).
Defined.

(** The claim as written fails for a computation that returns a value
    together with its error: the [Result] carries that value, not nil. *)
Lemma error_result_keeps_value :
  NewPool 1 1 = inr pool1
  /\ run submit_schedule (boot pool1) = Some (submit_events, submit_state)
  /\ fn task0 = Returns (Some "partial"%string) (Some "boom"%string)
  /\ EvPublish task0 0%nat
       (mkResult 7 (Some "partial"%string) (Some "boom"%string))
     ∈ submit_events
  /\ (fun ch => value <$> buf ch) <$> futures submit_state !! 0%nat
     = Some [Some "partial"%string].
Proof.
  split; [reflexivity|]. split; [exact submit_schedule_run|].
  split; [reflexivity|]. split; [unfold submit_events; in_list|].
  reflexivity.
Defined.

(** ** C7 *)



(** ** C8 *)

Lemma worker_runs_task_witness :
  run (take 6 submit_schedule) (boot pool1)
  = Some (take 6 submit_events, handed_state)
  /\ goroutines handed_state !! 0%nat = Some (GWorker 0 (WCall task0))
  /\ fn task0 = Returns partial boom
  /\ run [Step 0 CaseTask; Step 0 CaseTask] handed_state
     = Some ([EvPublish task0 0%nat result0],
             mkState (pool handed_state)
               (<[0%nat := GWorker 0 WSelect]> (goroutines handed_state))
               (<[0%nat := Chan 1 [result0] false]> (futures handed_state))).
Proof.
  split; [exact handed_schedule_run|]. split; [reflexivity|]. split; [reflexivity|].
  pose proof (worker_runs_task handed_state 0 0 task0 partial boom
                CaseTask CaseTask eq_refl eq_refl) as (_ & H & _).
  simpl responseCh in H.
  exact (proj2 (H (Chan 1 [] false) eq_refl)).
Defined.

(** ** C9 *)

Lemma worker_count_unchecked_witness :
  -1 < 0 /\ @NewPool string string (-1) 1 = inl MakeSliceLenOutOfRange.
Proof.
  split; [lia|]. apply (proj1 (worker_count_unchecked 1)). lia.
Defined.

(** ** C10 *)

Lemma stopped_pool_stays_closed_witness :
  run stop_schedule (boot pool1) = Some (stopped_events, stopped_state)
  /\ EvStopReturn ∈ stopped_events
  /\ all_closed (pool stopped_state)
  /\ exec CallStart stopped_state = Some ([EvStart None], restarted_state)
  /\ AddTask (pool restarted_state) (Some future0) 8 failing
     = AddTaskPanic SendOnClosedChannel (pool restarted_state).
Proof.
  split; [exact stop_schedule_run|].
  assert (Hin : EvStopReturn ∈ stopped_events) by (vm_compute; in_list).
  split; [exact Hin|].
  destruct (stopped_pool_stays_closed pool1 stop_schedule stopped_events
              stopped_state stop_schedule_run Hin) as [Hall Hlater].
  split; [exact Hall|].
  destruct (Hlater [] [] stopped_state eq_refl) as [_ Hstart].
  destruct (Hstart eq_refl) as (s' & He & _ & _ & Hadd).
  split; [reflexivity|].
  assert (Hs' : s' = restarted_state).
  { assert (Some ([EvStart None], restarted_state)
            = Some ([EvStart None : @event string string], s')) as [= <-]
      by (rewrite <- He; reflexivity).
    reflexivity. }
  rewrite <- Hs'. exact (proj1 (Hadd future0 8 failing)).
Defined.

(** * Concrete runs for the further properties *)

Example abandon_schedule_run :
  run abandon_schedule (boot pool1) = Some (abandon_events, abandon_state).
Proof. vm_compute. reflexivity. Qed.

Example stuck_schedule_run :
  run stuck_schedule (boot pool1) = Some (stuck_events, stuck_state).
Proof. vm_compute. reflexivity. Qed.

Example handed_schedule_no_stop :
  Forall (fun a : @action string string => a <> CallStop)
    (take 6 submit_schedule).
Proof. repeat constructor; discriminate. Qed.

Lemma intake_queue_fifo_witness :
  NewPool 1 1 = inr pool1
  /\ run submit_schedule (boot pool1) = Some (submit_events, submit_state)
  /\ enqueued submit_events
     = dequeued submit_events ++ buf (taskCh (pool submit_state)).
Proof.
  split; [reflexivity|]. split; [exact submit_schedule_run|].
  exact (proj1 (intake_queue_fifo 1 1 pool1 submit_schedule submit_events
                  submit_state eq_refl submit_schedule_run)).
Defined.

Lemma result_channel_fifo_witness :
  run submit_schedule (boot pool1) = Some (submit_events, submit_state)
  /\ results_on 0%nat submit_events
     = drained 0%nat submit_events ++ pending (futures submit_state) 0%nat.
Proof.
  split; [exact submit_schedule_run|].
  exact (proj1 (result_channel_fifo pool1 submit_schedule submit_events
                  submit_state 0%nat submit_schedule_run)).
Defined.


Lemma Stop_blocks_on_departed_worker_witness :
  NewPool 1 1 = inr pool1
  /\ run stuck_schedule (boot pool1) = Some (stuck_events, stuck_state)
  /\ goroutines stuck_state !! 1%nat = Some (GDispatch (DSend 0 0 task0))
  /\ Forall (fun g => ~ is_worker_of 0 g) (goroutines stuck_state)
  /\ run [CallStop] stuck_state
     = Some ([EvStop (Some ErrAlreadyStopped)], stuck_state)
  /\ 1 <= wg (pool stuck_state).
Proof.
  split; [reflexivity|]. split; [exact stuck_schedule_run|].
  split; [reflexivity|].
  assert (Hnone : Forall (fun g : @goroutine string string =>
                            ~ is_worker_of 0 g) (goroutines stuck_state))
    by (repeat constructor; intros []).
  split; [exact Hnone|]. split; [reflexivity|].
  assert (HA : Forall (fun a : @action string string => a <> CallStart)
                 [CallStop]) by (repeat constructor; discriminate).
  exact (proj1 (proj2 (Stop_blocks_on_departed_worker 1 1 pool1
                         stuck_schedule stuck_events stuck_state 1 0 0 task0
                         eq_refl stuck_schedule_run eq_refl Hnone
                         [CallStop] _ stuck_state HA eq_refl))).
Defined.

Lemma Stop_after_restart_panics_witness :
  run stop_schedule (boot pool1) = Some (stopped_events, stopped_state)
  /\ EvStopReturn ∈ stopped_events
  /\ run [CallStart] stopped_state = Some ([EvStart None], restarted_state)
  /\ closed (pool restarted_state) = false
  /\ Stop (pool restarted_state)
     = Some (StopPanic CloseOfClosedChannel
               (set_closed (pool restarted_state) true)).
Proof.
  split; [exact stop_schedule_run|].
  assert (Hin : EvStopReturn ∈ stopped_events) by (vm_compute; in_list).
  split; [exact Hin|]. split; [reflexivity|]. split; [reflexivity|].
  exact (proj1 (proj2 (Stop_after_restart_panics pool1 stop_schedule
                         stopped_events stopped_state stop_schedule_run Hin
                         [CallStart] [EvStart None] restarted_state eq_refl)
                  eq_refl)).
Defined.

Lemma at_most_one_task_per_worker_witness :
  NewPool 1 1 = inr pool1
  /\ Forall (fun a => a <> CallStop) (take 6 submit_schedule)
  /\ run (take 6 submit_schedule) (boot pool1)
     = Some (take 6 submit_events, handed_state)
  /\ goroutines handed_state ≫= working = [task0]
  /\ (length (goroutines handed_state ≫= working) <= Z.to_nat 1)%nat.
Proof.
  split; [reflexivity|]. split; [exact handed_schedule_no_stop|].
  split; [exact handed_schedule_run|]. split; [reflexivity|].
  exact (proj1 (at_most_one_task_per_worker 1 1 pool1 (take 6 submit_schedule)
                  (take 6 submit_events) handed_state eq_refl
                  handed_schedule_no_stop handed_schedule_run)).
Defined.


Lemma Close_keeps_results_witness :
  futures submit_state !! 0%nat = Some (Chan 1 [result0] false)
  /\ exec (CallClose 0%nat) submit_state
     = Some ([EvClose 0%nat],
             mkState running1 (goroutines submit_state)
               [Chan 1 [result0] true])
  /\ run [Receive 0%nat]
       (mkState running1 (goroutines submit_state) [Chan 1 [result0] true])
     = Some ([EvDrain 0%nat result0],
             mkState running1 (goroutines submit_state) [Chan 1 [] true]).
Proof.
  split; [reflexivity|].
  destruct (proj2 (Close_keeps_results submit_state 0%nat
                     (Chan 1 [result0] false) eq_refl) eq_refl)
    as (Hclose & _ & Hdrain & _).
  split; [exact Hclose | exact Hdrain].
Defined.

Lemma AddTask_overtaken_by_Stop_witness :
  NewPool 1 1 = inr pool1
  /\ Forall (fun a => a <> CallStop) submit_schedule
  /\ run submit_schedule (boot pool1) = Some (submit_events, submit_state)
  /\ closed (pool submit_state) = false
  /\ fst <$> run [CallAddTask (Some future0) 8 failing; CallStop;
                  Step 4 CaseTask; Step 3 CaseTask] submit_state
     = Some [EvSubmit (mkTask 8 failing (Some 0%nat)); EvStop None;
             EvPanic SendOnClosedChannel].
Proof.
  split; [reflexivity|]. split; [exact submit_schedule_no_stop|].
  split; [exact submit_schedule_run|]. split; [reflexivity|].
  pose proof (AddTask_overtaken_by_Stop 1 1 pool1 submit_schedule
                submit_events submit_state future0 8 failing CaseTask
                CaseTask eq_refl submit_schedule_no_stop submit_schedule_run
                eq_refl) as Hrace.
  simpl length in Hrace. rewrite Hrace. reflexivity.
Defined.

Lemma worker_stop_then_Stop_witness :
  closed running1 = false
  /\ workers running1 !! 0%nat = Some (new_worker 0)
  /\ exists w' : @worker string string,
       worker_stop (new_worker 0) = inr w'
       /\ worker_stop w' = inl CloseOfClosedChannel.
Proof.
  split; [reflexivity|]. split; [reflexivity|].
  destruct (worker_stop_then_Stop running1 0 (new_worker 0) eq_refl eq_refl
              eq_refl ltac:(by repeat constructor) eq_refl)
    as (w' & Hfirst & Hsecond & _).
  exists w'. split; [exact Hfirst | exact Hsecond].
Defined.

Example hang_schedule_run :
  run hang_schedule (boot pool1) = Some (hang_events, hang_state).
Proof. vm_compute. reflexivity. Qed.

Example received_schedule_run :
  run received_schedule (boot pool1) = Some (received_events, received_state).
Proof. vm_compute. reflexivity. Qed.

Example received_events_no_panic : no_panic received_events.
Proof.
  intros why Hin. unfold received_events, submit_events in Hin. simpl in Hin.
  repeat (apply elem_of_cons in Hin as [Heq|Hin]; [discriminate|]).
  by apply elem_of_nil in Hin.
Qed.

Lemma Stop_waits_for_running_task_witness :
  NewPool 1 1 = inr pool1
  /\ run hang_schedule (boot pool1) = Some (hang_events, hang_state)
  /\ goroutines hang_state !! 0%nat = Some (GWorker 0 (WCall forever))
  /\ fn forever = Diverges
  /\ 1 <= wg (pool hang_state)
  /\ exists evs' s',
       run hang_stop_schedule hang_state = Some (evs', s')
       /\ goroutines s' !! 3%nat = Some (GStop SWait)
       /\ exec (Step 3 CaseTask) s' = None
       /\ goroutines s' !! 0%nat = Some (GWorker 0 (WCall forever))
       /\ 1 <= wg (pool s')
       /\ (EvStopReturn ∉ evs').
Proof.
  split; [reflexivity|]. split; [exact hang_schedule_run|].
  split; [reflexivity|]. split; [reflexivity|].
  destruct (Stop_waits_for_running_task 1 1 pool1 hang_schedule hang_events
              hang_state 0 0 forever eq_refl hang_schedule_run eq_refl)
    as (Hwg & _ & Hlast).
  split; [exact Hwg|].
  destruct (run hang_stop_schedule hang_state) as [[evs' s']|] eqn:Hrun;
    [|vm_compute in Hrun; discriminate].
  exists evs', s'. split; [reflexivity|].
  destruct (Hlast eq_refl hang_stop_schedule evs' s' Hrun) as (Hj & Hwg' & Hno).
  assert (Hs : Some (evs', s')
               = Some ([EvStop None],
                       mkState (set_wg stopped1 1)
                         [GWorker 0 (WCall forever); GExited; GExited;
                          GStop SWait]
                         [Chan 1 [] false])).
  { rewrite <- Hrun. vm_compute. reflexivity. }
  split; [by injection Hs as _ ->|].
  split.
  - injection Hs as _ Hs'.
    destruct (Stop_waits_for_running_task 1 1 pool1
                (hang_schedule ++ hang_stop_schedule) (hang_events ++ evs') s'
                0 0 forever eq_refl) as (_ & Hwait & _).
    + rewrite run_app, hang_schedule_run.
      change (('(evs2, s2) ← run hang_stop_schedule hang_state;
               Some (hang_events ++ evs2, s2))
              = Some (hang_events ++ evs', s')).
      by rewrite Hrun.
    + done.
    + apply Hwait. by rewrite Hs'.
  - done.
Defined.


Lemma handoffs_in_enqueue_order_witness :
  NewPool 1 1 = inr pool1
  /\ Forall (fun a : @action string string => a <> CallStop) submit_schedule
  /\ run submit_schedule (boot pool1) = Some (submit_events, submit_state)
  /\ handoffs submit_events = [(0%nat, task0)]
  /\ snd <$> handoffs submit_events `prefix_of` enqueued submit_events
  /\ enqueued submit_events !! 0%nat = Some task0.
Proof.
  split; [reflexivity|]. split; [exact submit_schedule_no_stop|].
  split; [exact submit_schedule_run|]. split; [reflexivity|].
  destruct (handoffs_in_enqueue_order 1 1 pool1 submit_schedule submit_events
              submit_state eq_refl submit_schedule_no_stop
              submit_schedule_run) as (Hpre & Hk & _).
  split; [exact Hpre|]. exact (Hk 0%nat 0%nat task0 eq_refl).
Defined.


Lemma collected_by_index_witness :
  NewPool 1 1 = inr pool1
  /\ run received_schedule (boot pool1)
     = Some (received_events, received_state)
  /\ no_panic received_events
  /\ NoDup (index <$> batch 0%nat received_events)
  /\ length (drained 0%nat received_events)
     = length (batch 0%nat received_events)
  /\ task0 ∈ batch 0%nat received_events
  /\ pending (futures received_state) 0%nat = []
  /\ exists v e,
       fn task0 = Returns v e
       /\ collect (drained 0%nat received_events) !! 7
          = Some (mkResult 7 v e).
Proof.
  assert (Hnd : NoDup (index <$> batch 0%nat received_events)).
  { apply (NoDup_singleton 7). }
  assert (Hin : task0 ∈ batch 0%nat received_events).
  { apply (list_elem_of_here task0 []). }
  split; [reflexivity|]. split; [exact received_schedule_run|].
  split; [exact received_events_no_panic|]. split; [exact Hnd|].
  split; [reflexivity|]. split; [exact Hin|].
  destruct (collected_by_index 1 1 pool1 received_schedule received_events
              received_state 0%nat eq_refl received_schedule_run
              received_events_no_panic Hnd eq_refl)
    as (_ & Hempty & Hall & _).
  split; [exact Hempty|]. exact (Hall task0 Hin).
Defined.
